(** * custom_scheduler: the dispatch engine, the job repository and the
      next-run calculator, embedded from the TypeScript sources.

    Conventions of the embedding.
    - A JavaScript [Date] is its time value: milliseconds since the epoch,
      an integer in [Z]. The range check [TimeClip] of the language is
      left out (all instants are valid).
    - Local time is UTC shifted by a fixed offset [LocalTZA] (no daylight
      saving changes); the calendar functions are those of ECMAScript.
    - JavaScript numbers that the program uses as counters and durations
      are integers in [Z].
    - The MongoDB collections are finite maps from document id to document;
      the [createdAt]/[updatedAt] stamps that mongoose maintains by itself
      are not part of the documents.
    - A document id is an ObjectId; the strings of the embedding name
      ObjectIds. What a caller passes for a [jobId] is an [IdArgument]:
      an ObjectId, or a text that mongoose cannot cast to one.
    - A payload stands in serialised form, as the store keeps it: the
      [minimize] option of mongoose leaves out empty objects when it
      writes a document, and "{}" is the payload of which nothing is
      kept.
    - Asynchronous code is embedded as the steps between its [await]s; a
      write to the store takes effect when it is issued, and an answer of
      the store is the state of the store at that moment.
    - An exception is a [Throw] result. *)

From stdpp Require Import gmap gmultiset strings list fin_maps fin_sets
  sorting pretty.
From Stdlib Require Import Ascii ZArith Lia.

#[local] Set Warnings "-clear-no-such-hyp".

Open Scope Z_scope.

(** ** JavaScript dates *)

Module JsDate.

Definition msPerSecond : Z := 1000.
Definition msPerMinute : Z := 60000.
Definition msPerHour : Z := 3600000.
Definition msPerDay : Z := 86400000.

Definition Day (t : Z) : Z := t / msPerDay.
Definition TimeWithinDay (t : Z) : Z := t mod msPerDay.

Definition HourFromTime (t : Z) : Z := (t / msPerHour) mod 24.
Definition MinFromTime (t : Z) : Z := (t / msPerMinute) mod 60.
Definition SecFromTime (t : Z) : Z := (t / msPerSecond) mod 60.
Definition msFromTime (t : Z) : Z := t mod msPerSecond.

Definition DayFromYear (y : Z) : Z :=
  365 * (y - 1970) + (y - 1969) / 4 - (y - 1901) / 100 + (y - 1601) / 400.

Definition InLeapYear (y : Z) : Z :=
  if negb (y mod 4 =? 0) then 0
  else if negb (y mod 100 =? 0) then 1
  else if negb (y mod 400 =? 0) then 0
  else 1.

(** The largest [y] with [DayFromYear y <= Day t]: the mean length of a
    year gives an estimate that is off by one at most. *)
Definition YearFromTime (t : Z) : Z :=
  let d := Day t in
  let y := 1970 + (400 * d) / 146097 in
  if d <? DayFromYear y then y - 1
  else if DayFromYear (y + 1) <=? d then y + 1
  else y.

Definition DayWithinYear (t : Z) : Z := Day t - DayFromYear (YearFromTime t).

(** First day (within the year) of month [m], [l] being 1 in a leap year. *)
Definition monthStart (l m : Z) : Z :=
  match m with
  | 0 => 0
  | 1 => 31
  | 2 => 59 + l
  | 3 => 90 + l
  | 4 => 120 + l
  | 5 => 151 + l
  | 6 => 181 + l
  | 7 => 212 + l
  | 8 => 243 + l
  | 9 => 273 + l
  | 10 => 304 + l
  | _ => 334 + l
  end.

Definition MonthFromTime (t : Z) : Z :=
  let l := InLeapYear (YearFromTime t) in
  let d := DayWithinYear t in
  if d <? 31 then 0
  else if d <? 59 + l then 1
  else if d <? 90 + l then 2
  else if d <? 120 + l then 3
  else if d <? 151 + l then 4
  else if d <? 181 + l then 5
  else if d <? 212 + l then 6
  else if d <? 243 + l then 7
  else if d <? 273 + l then 8
  else if d <? 304 + l then 9
  else if d <? 334 + l then 10
  else 11.

Definition DateFromTime (t : Z) : Z :=
  DayWithinYear t - monthStart (InLeapYear (YearFromTime t)) (MonthFromTime t) + 1.

Definition WeekDay (t : Z) : Z := (Day t + 4) mod 7.

Definition MakeTime (hour min sec ms : Z) : Z :=
  hour * msPerHour + min * msPerMinute + sec * msPerSecond + ms.

Definition MakeDay (year month date : Z) : Z :=
  let ym := year + month / 12 in
  let mn := month mod 12 in
  DayFromYear ym + monthStart (InLeapYear ym) mn + date - 1.

Definition MakeDate (day time : Z) : Z := day * msPerDay + time.

Section LocalTime.

(** Offset of local time from UTC, in milliseconds. *)
Variable LocalTZA : Z.

Definition LocalTime (t : Z) : Z := t + LocalTZA.
Definition UTC (t : Z) : Z := t - LocalTZA.

Definition getMinutes (d : Z) : Z := MinFromTime (LocalTime d).
Definition getHours (d : Z) : Z := HourFromTime (LocalTime d).
Definition getDate (d : Z) : Z := DateFromTime (LocalTime d).
Definition getDay (d : Z) : Z := WeekDay (LocalTime d).
Definition getMonth (d : Z) : Z := MonthFromTime (LocalTime d).

Definition setMilliseconds (d ms : Z) : Z :=
  let t := LocalTime d in
  UTC (MakeDate (Day t)
         (MakeTime (HourFromTime t) (MinFromTime t) (SecFromTime t) ms)).

Definition setSeconds (d sec : Z) : Z :=
  let t := LocalTime d in
  UTC (MakeDate (Day t)
         (MakeTime (HourFromTime t) (MinFromTime t) sec (msFromTime t))).

Definition setMinutes (d min : Z) : Z :=
  let t := LocalTime d in
  UTC (MakeDate (Day t)
         (MakeTime (HourFromTime t) min (SecFromTime t) (msFromTime t))).

Definition setHours (d hour : Z) : Z :=
  let t := LocalTime d in
  UTC (MakeDate (Day t)
         (MakeTime hour (MinFromTime t) (SecFromTime t) (msFromTime t))).

Definition setDate (d date : Z) : Z :=
  let t := LocalTime d in
  UTC (MakeDate (MakeDay (YearFromTime t) (MonthFromTime t) date)
         (TimeWithinDay t)).

Definition setMonth (d month : Z) : Z :=
  let t := LocalTime d in
  UTC (MakeDate (MakeDay (YearFromTime t) month (DateFromTime t))
         (TimeWithinDay t)).

End LocalTime.

End JsDate.

(** ** Strings *)

(** [s.split(sep)] for a one-character separator: never empty, and two
    separators in a row enclose an empty field. *)
Fixpoint split_string (sep : ascii) (s : string) : list string :=
  match s with
  | EmptyString => [EmptyString]
  | String c rest =>
      if bool_decide (c = sep) then EmptyString :: split_string sep rest
      else match split_string sep rest with
           | [] => [String c EmptyString]
           | field :: fields => String c field :: fields
           end
  end.

(** [parts[i] === v]; an index past the end reads [undefined]. *)
Definition field_is (parts : list string) (i : nat) (v : string) : bool :=
  bool_decide (parts !! i = Some v).

(** Truthiness of an optional string: [undefined] and the empty string are
    falsy. *)
Definition truthy (s : option string) : bool :=
  match s with
  | Some EmptyString | None => false
  | Some _ => true
  end.

(** [x || d] on an optional number: [undefined] and [0] give [d]. *)
Definition or_default (x : option Z) (d : Z) : Z :=
  match x with
  | Some v => if v =? 0 then d else v
  | None => d
  end.

(** ** Data model (interfaces/Job, models/JobModel, models/RecurringJobModel) *)

Inductive JobStatus := PENDING | RUNNING | COMPLETED | FAILED.

Inductive JobPriority := LOW | NORMAL | HIGH.

#[global] Instance JobStatus_eq_dec : EqDecision JobStatus.
Proof. solve_decision. Defined.

#[global] Instance JobPriority_eq_dec : EqDecision JobPriority.
Proof. solve_decision. Defined.

(** The value of each member of the string enums: what the store holds and
    compares. *)
Definition JobStatus_value (s : JobStatus) : string :=
  match s with
  | PENDING => "pending"
  | RUNNING => "running"
  | COMPLETED => "completed"
  | FAILED => "failed"
  end.

Definition JobPriority_value (p : JobPriority) : string :=
  match p with
  | LOW => "low"
  | NORMAL => "normal"
  | HIGH => "high"
  end.

(** Document ids and the opaque payload (kept in serialised form). *)
Definition ObjectId : Type := string.
Definition JobData : Type := string.
Definition Date : Type := Z.

Record JobOptions := {
  opt_priority : option JobPriority;
  opt_maxRetries : option Z;
  opt_retryDelay : option Z;
  opt_timeout : option Z
}.

(** A document of the [Job] collection: the fields of [JobSchema]. *)
Record JobDocument := {
  name : string;
  data : JobData;
  status : JobStatus;
  scheduledAt : Date;
  executedAt : option Date;
  completedAt : option Date;
  errorMessage : option string;
  attempts : Z;
  userId : option string;
  priority : JobPriority;
  maxRetries : Z;
  retryDelay : Z;
  timeout : Z
}.

(** [Job]: a document together with its id ([convertToJob]). *)
Record Job := {
  id : ObjectId;
  fields :> JobDocument
}.

Definition convertToJob (entry : ObjectId * JobDocument) : Job :=
  {| id := entry.1; fields := entry.2 |}.

Record RecurringJobDocument := {
  r_name : string;
  r_data : JobData;
  r_cronExpression : string;
  r_userId : option string;
  r_priority : JobPriority;
  r_maxRetries : Z;
  r_retryDelay : Z;
  r_timeout : Z;
  r_lastExecutedAt : option Date;
  r_isActive : bool
}.

Record RecurringJob := {
  r_id : ObjectId;
  r_fields :> RecurringJobDocument
}.

Definition convertToRecurringJob (entry : ObjectId * RecurringJobDocument)
  : RecurringJob :=
  {| r_id := entry.1; r_fields := entry.2 |}.

(** Field updates, as the [update] objects of the repository write them. *)
Definition set_status (s : JobStatus) (d : JobDocument) : JobDocument :=
  {| name := name d; data := data d; status := s;
     scheduledAt := scheduledAt d; executedAt := executedAt d;
     completedAt := completedAt d; errorMessage := errorMessage d;
     attempts := attempts d; userId := userId d; priority := priority d;
     maxRetries := maxRetries d; retryDelay := retryDelay d;
     timeout := timeout d |}.

Definition set_executedAt (t : Date) (d : JobDocument) : JobDocument :=
  {| name := name d; data := data d; status := status d;
     scheduledAt := scheduledAt d; executedAt := Some t;
     completedAt := completedAt d; errorMessage := errorMessage d;
     attempts := attempts d; userId := userId d; priority := priority d;
     maxRetries := maxRetries d; retryDelay := retryDelay d;
     timeout := timeout d |}.

Definition set_completedAt (t : Date) (d : JobDocument) : JobDocument :=
  {| name := name d; data := data d; status := status d;
     scheduledAt := scheduledAt d; executedAt := executedAt d;
     completedAt := Some t; errorMessage := errorMessage d;
     attempts := attempts d; userId := userId d; priority := priority d;
     maxRetries := maxRetries d; retryDelay := retryDelay d;
     timeout := timeout d |}.

Definition set_errorMessage (m : string) (d : JobDocument) : JobDocument :=
  {| name := name d; data := data d; status := status d;
     scheduledAt := scheduledAt d; executedAt := executedAt d;
     completedAt := completedAt d; errorMessage := Some m;
     attempts := attempts d; userId := userId d; priority := priority d;
     maxRetries := maxRetries d; retryDelay := retryDelay d;
     timeout := timeout d |}.

Definition inc_attempts (d : JobDocument) : JobDocument :=
  {| name := name d; data := data d; status := status d;
     scheduledAt := scheduledAt d; executedAt := executedAt d;
     completedAt := completedAt d; errorMessage := errorMessage d;
     attempts := attempts d + 1; userId := userId d; priority := priority d;
     maxRetries := maxRetries d; retryDelay := retryDelay d;
     timeout := timeout d |}.

(** Exceptions. *)
Inductive Result (A : Type) :=
| Ok (a : A)
| Throw (message : string).
Arguments Ok {A} a.
Arguments Throw {A} message.

(** What a caller passes where the program expects the id of a document
    ([jobId: string]). Before it looks a document up, mongoose casts the
    argument to an ObjectId: an ObjectId object (the [id] of a job or of a
    schedule that was read from the store is one) and the text form of an
    ObjectId are cast to that ObjectId; for any other text the cast
    fails. *)
Inductive IdArgument :=
| Id (i : ObjectId)
| NotAnId (text : string).

Coercion Id : ObjectId >-> IdArgument.

(** A string literal in the place of an id names the ObjectId. *)
Definition Id_of_name (name : string) : IdArgument := Id name.

Coercion Id_of_name : string >-> IdArgument.

(** [text] between double quotes. *)
Definition quoted (text : string) : string :=
  String "034" (text +:+ String "034" EmptyString).

(** The message of the [CastError] that mongoose throws when it cannot
    cast the value of [_id] in a query on the model [model]. *)
Definition CastError (value model : string) : string :=
  "Cast to ObjectId failed for value " +:+ quoted value
  +:+ " (type string) at path " +:+ quoted "_id"
  +:+ " for model " +:+ quoted model.

(** A payload as it is read back from the store: nothing, when nothing of
    it was kept. *)
Definition stored_payload (data : JobData) : option JobData :=
  if bool_decide (data = "{}") then None else Some data.

(** ** JobRepository (services/JobRepository) *)

Module JobRepository.

(** The [Job] collection. *)
Abbreviation Collection := (gmap ObjectId JobDocument).

(** [createJob]; [fresh] is the id that the store gives the new document. *)
Definition createJob (fresh : ObjectId) (name : string) (data : JobData)
    (scheduledAt : Date) (options : option JobOptions)
    (userId : option string) (db : Collection) : Collection * Job :=
  let newJob :=
    {| name := name;
       data := data;
       status := PENDING;
       scheduledAt := scheduledAt;
       executedAt := None;
       completedAt := None;
       errorMessage := None;
       attempts := 0;
       userId := userId;
       priority := default NORMAL (options ≫= opt_priority);
       maxRetries := or_default (options ≫= opt_maxRetries) 3;
       retryDelay := or_default (options ≫= opt_retryDelay) 60000;
       timeout := or_default (options ≫= opt_timeout) 30000 |} in
  (<[fresh := newJob]> db, convertToJob (fresh, newJob)).

(** [JobModel.findById] when the argument has been cast. *)
Definition findById (i : ObjectId) (db : Collection) : option Job :=
  (λ d, convertToJob (i, d)) <$> db !! i.

(** [getJobById]: the cast of [findById] throws for a text that is no
    ObjectId. *)
Definition getJobById (jobId : IdArgument) (db : Collection)
  : Result (option Job) :=
  match jobId with
  | Id i => Ok (findById i db)
  | NotAnId text => Throw (CastError text "Job")
  end.

(** The [update] object of [updateJobStatus], applied to a document. *)
Definition status_update (now : Date) (status : JobStatus)
    (errorMessage : option string) (d : JobDocument) : JobDocument :=
  let d := set_status status d in
  match status with
  | RUNNING => set_executedAt now d
  | COMPLETED => set_completedAt now d
  | FAILED =>
      if truthy errorMessage then set_errorMessage (default "" errorMessage) d
      else d
  | PENDING => d
  end.

(** [updateJobStatus]: [findByIdAndUpdate] changes nothing and answers
    [null] when no document has the id. The scheduler calls this function,
    [incrementJobAttempts] and [deleteJob] with the id of a job that it
    has read from the store, an ObjectId. *)
Definition updateJobStatus (now : Date) (jobId : ObjectId)
    (status : JobStatus) (errorMessage : option string) (db : Collection)
  : Collection * option Job :=
  match db !! jobId with
  | Some d =>
      let d' := status_update now status errorMessage d in
      (<[jobId := d']> db, Some (convertToJob (jobId, d')))
  | None => (db, None)
  end.

Definition incrementJobAttempts (jobId : ObjectId) (db : Collection)
  : Collection * option Job :=
  match db !! jobId with
  | Some d =>
      let d' := inc_attempts d in
      (<[jobId := d']> db, Some (convertToJob (jobId, d')))
  | None => (db, None)
  end.

(** The order of [sort({ priority: -1, scheduledAt: 1 })]. The [priority]
    field is a string in the store, so it is compared as a string, the
    greater string first; ties go to the earlier [scheduledAt]. *)
Definition sort_before (a b : Job) : bool :=
  match String.compare (JobPriority_value (priority a))
                       (JobPriority_value (priority b)) with
  | Gt => true
  | Lt => false
  | Eq => scheduledAt a <=? scheduledAt b
  end.

(** [limit(n)]: zero means no limit, a negative number counts as its
    absolute value. *)
Definition limit {A} (n : Z) (l : list A) : list A :=
  if n =? 0 then l else take (Z.abs_nat n) l.

(** [getPendingJobs]. The store leaves the order of documents with equal
    sort keys open; here [merge_sort] settles it. *)
Definition getPendingJobs (now : Date) (n : Z) (db : Collection) : list Job :=
  let found :=
    filter (λ j : Job, status j = PENDING ∧ scheduledAt j ≤ now)
           (convertToJob <$> map_to_list db) in
  limit n (merge_sort (λ a b, Is_true (sort_before a b)) found).

(** [deleteJob]: whether a document was deleted. *)
Definition deleteJob (jobId : ObjectId) (db : Collection) : Collection * bool :=
  match db !! jobId with
  | Some _ => (delete jobId db, true)
  | None => (db, false)
  end.

(** The order of [sort({ scheduledAt: -1 })]: the later due time first. *)
Definition later_first (a b : Job) : bool := scheduledAt b <=? scheduledAt a.

(** The query of [getJobsByUserId]: the owner, and the status when one is
    given (every member of the enum is a non-empty string, so the test
    [if (status)] passes whenever the argument is there). *)
Definition owned_by (uid : string) (st : option JobStatus) (j : Job) : bool :=
  bool_decide (userId j = Some uid)
  && match st with
     | Some st => bool_decide (status j = st)
     | None => true
     end.

(** [getJobsByUserId]; the caller passes the limit (50 where the source
    leaves it out). *)
Definition getJobsByUserId (uid : string) (st : option JobStatus) (n : Z)
    (db : Collection) : list Job :=
  let found :=
    filter (λ j : Job, Is_true (owned_by uid st j))
           (convertToJob <$> map_to_list db) in
  limit n (merge_sort (λ a b, Is_true (later_first a b)) found).

End JobRepository.

(** ** RecurringJobRepository (services/RecurringJobRepository) *)

Module RecurringJobRepository.

Abbreviation Collection := (gmap ObjectId RecurringJobDocument).

Definition createRecurringJob (fresh : ObjectId) (name : string)
    (data : JobData) (cronExpression : string) (options : option JobOptions)
    (userId : option string) (db : Collection) : Collection * RecurringJob :=
  let newJob :=
    {| r_name := name;
       r_data := data;
       r_cronExpression := cronExpression;
       r_userId := userId;
       r_priority := default NORMAL (options ≫= opt_priority);
       r_maxRetries := or_default (options ≫= opt_maxRetries) 3;
       r_retryDelay := or_default (options ≫= opt_retryDelay) 60000;
       r_timeout := or_default (options ≫= opt_timeout) 30000;
       r_lastExecutedAt := None;
       r_isActive := true |} in
  (<[fresh := newJob]> db, convertToRecurringJob (fresh, newJob)).

Definition getActiveRecurringJobs (db : Collection) : list RecurringJob :=
  filter (λ r : RecurringJob, r_isActive r = true)
         (convertToRecurringJob <$> map_to_list db).

Definition set_lastExecutedAt (t : Date) (d : RecurringJobDocument)
  : RecurringJobDocument :=
  {| r_name := r_name d; r_data := r_data d;
     r_cronExpression := r_cronExpression d; r_userId := r_userId d;
     r_priority := r_priority d; r_maxRetries := r_maxRetries d;
     r_retryDelay := r_retryDelay d; r_timeout := r_timeout d;
     r_lastExecutedAt := Some t; r_isActive := r_isActive d |}.

(** [updateLastExecutedAt]; like the three functions after it, it throws
    when the cast of its argument fails, and then writes nothing. *)
Definition updateLastExecutedAt (jobId : IdArgument) (lastExecutedAt : Date)
    (db : Collection) : Result (Collection * option RecurringJob) :=
  match jobId with
  | Id i =>
      match db !! i with
      | Some d =>
          let d' := set_lastExecutedAt lastExecutedAt d in
          Ok (<[i := d']> db, Some (convertToRecurringJob (i, d')))
      | None => Ok (db, None)
      end
  | NotAnId text => Throw (CastError text "RecurringJob")
  end.


(** The fields that an [updates] object of [updateRecurringJob] can carry;
    a field that is left out keeps its value. *)
Record Updates := {
  u_name : option string;
  u_data : option JobData;
  u_cronExpression : option string;
  u_userId : option string;
  u_priority : option JobPriority;
  u_maxRetries : option Z;
  u_retryDelay : option Z;
  u_timeout : option Z;
  u_lastExecutedAt : option Date;
  u_isActive : option bool
}.

Definition apply_updates (u : Updates) (d : RecurringJobDocument)
  : RecurringJobDocument :=
  {| r_name := default (r_name d) (u_name u);
     r_data := default (r_data d) (u_data u);
     r_cronExpression := default (r_cronExpression d) (u_cronExpression u);
     r_userId := match u_userId u with Some v => Some v | None => r_userId d end;
     r_priority := default (r_priority d) (u_priority u);
     r_maxRetries := default (r_maxRetries d) (u_maxRetries u);
     r_retryDelay := default (r_retryDelay d) (u_retryDelay u);
     r_timeout := default (r_timeout d) (u_timeout u);
     r_lastExecutedAt :=
       match u_lastExecutedAt u with
       | Some v => Some v
       | None => r_lastExecutedAt d
       end;
     r_isActive := default (r_isActive d) (u_isActive u) |}.

(** [updateRecurringJob]: the updates are written as they are given. *)
Definition updateRecurringJob (jobId : IdArgument) (updates : Updates)
    (db : Collection) : Result (Collection * option RecurringJob) :=
  match jobId with
  | Id i =>
      match db !! i with
      | Some d =>
          let d' := apply_updates updates d in
          Ok (<[i := d']> db, Some (convertToRecurringJob (i, d')))
      | None => Ok (db, None)
      end
  | NotAnId text => Throw (CastError text "RecurringJob")
  end.


End RecurringJobRepository.

(** ** Configuration (utils/config) *)

Module Config.

(** [isValidMongoURI]. *)
Definition isValidMongoURI (uri : string) : bool :=
  String.prefix "mongodb://" uri || String.prefix "mongodb+srv://" uri.

(** [getMongoURI]; [envURI] is the value of the environment variable
    [MONGODB_URI], if it is set. *)
Definition getMongoURI (envURI : option string) : string :=
  match envURI with
  | Some uri =>
      if truthy (Some uri) && isValidMongoURI uri then uri
      else "mongodb://localhost:27017/scheduler"
  | None => "mongodb://localhost:27017/scheduler"
  end.

End Config.

(** ** Handlers and events (interfaces/Scheduler) *)

(** [JobResult]; of the error only the message is used. *)
Record JobResult := {
  success : bool;
  error : option string
}.

(** A thrown value: an [Error] with its message, or anything else. *)
Inductive Thrown := ErrorObject (message : string) | OtherValue.

(** What a handler's promise does while the timer of the job runs: it is
    fulfilled, it is rejected, or the timer fires first. *)
Inductive HandlerRun :=
| Resolves (result : JobResult)
| Rejects (reason : Thrown)
| Unsettled.

Abbreviation JobHandler := (Job → HandlerRun).

Inductive SchedulerEvent :=
| JOB_SCHEDULED | JOB_STARTED | JOB_COMPLETED
| JOB_FAILED | JOB_RETRIED | JOB_CANCELLED.

Record Emitted := {
  event : SchedulerEvent;
  event_job : Job;
  event_result : option JobResult
}.

(** ** Scheduler (core/Scheduler) *)

(** [activeJobs] is a [Set] of the ids of the jobs in flight. The [id] of a
    job is the ObjectId object of its document ([toJSON]: [ret.id =
    ret._id]), and a [Set] tells objects apart by identity, not by value:
    two id objects of one document are two members. The multiset counts,
    for every ObjectId, the id objects in the set. *)
Record Scheduler := {
  initialized : bool;
  jobHandlers : gmap string JobHandler;
  activeJobs : gmultiset ObjectId;
  maxConcurrentJobs : Z;
  jobRepository : gmap ObjectId JobDocument;
  recurringJobRepository : gmap ObjectId RecurringJobDocument;
  emitted : list Emitted
}.

(** The constructor: [options.maxConcurrentJobs || 10]. *)
Definition new_Scheduler (opt_maxConcurrentJobs : option Z) : Scheduler :=
  {| initialized := false;
     jobHandlers := ∅;
     activeJobs := ∅;
     maxConcurrentJobs := or_default opt_maxConcurrentJobs 10;
     jobRepository := ∅;
     recurringJobRepository := ∅;
     emitted := [] |}.

Definition set_initialized (b : bool) (s : Scheduler) : Scheduler :=
  {| initialized := b; jobHandlers := jobHandlers s;
     activeJobs := activeJobs s; maxConcurrentJobs := maxConcurrentJobs s;
     jobRepository := jobRepository s;
     recurringJobRepository := recurringJobRepository s;
     emitted := emitted s |}.

Definition set_jobHandlers (h : gmap string JobHandler) (s : Scheduler)
  : Scheduler :=
  {| initialized := initialized s; jobHandlers := h;
     activeJobs := activeJobs s; maxConcurrentJobs := maxConcurrentJobs s;
     jobRepository := jobRepository s;
     recurringJobRepository := recurringJobRepository s;
     emitted := emitted s |}.

Definition set_activeJobs (a : gmultiset ObjectId) (s : Scheduler)
  : Scheduler :=
  {| initialized := initialized s; jobHandlers := jobHandlers s;
     activeJobs := a; maxConcurrentJobs := maxConcurrentJobs s;
     jobRepository := jobRepository s;
     recurringJobRepository := recurringJobRepository s;
     emitted := emitted s |}.

Definition set_jobRepository (db : gmap ObjectId JobDocument) (s : Scheduler)
  : Scheduler :=
  {| initialized := initialized s; jobHandlers := jobHandlers s;
     activeJobs := activeJobs s; maxConcurrentJobs := maxConcurrentJobs s;
     jobRepository := db;
     recurringJobRepository := recurringJobRepository s;
     emitted := emitted s |}.

Definition set_recurringJobRepository
    (db : gmap ObjectId RecurringJobDocument) (s : Scheduler) : Scheduler :=
  {| initialized := initialized s; jobHandlers := jobHandlers s;
     activeJobs := activeJobs s; maxConcurrentJobs := maxConcurrentJobs s;
     jobRepository := jobRepository s;
     recurringJobRepository := db;
     emitted := emitted s |}.

(** [this.emit(event, job, result)]: the events are kept in the order in
    which they were emitted. *)
Definition emit (e : SchedulerEvent) (job : Job) (result : option JobResult)
    (s : Scheduler) : Scheduler :=
  {| initialized := initialized s; jobHandlers := jobHandlers s;
     activeJobs := activeJobs s; maxConcurrentJobs := maxConcurrentJobs s;
     jobRepository := jobRepository s;
     recurringJobRepository := recurringJobRepository s;
     emitted := emitted s ++ [{| event := e; event_job := job;
                                 event_result := result |}] |}.

Definition initialize (s : Scheduler) : Scheduler := set_initialized true s.
Definition shutdown (s : Scheduler) : Scheduler := set_initialized false s.

Definition ensureInitialized {A} (s : Scheduler) (k : Result A) : Result A :=
  if initialized s then k
  else Throw "Scheduler not initialized. Call initialize() first.".

Definition registerJobHandler (jobName : string) (handler : JobHandler)
    (s : Scheduler) : Scheduler :=
  set_jobHandlers (<[jobName := handler]> (jobHandlers s)) s.

Section SchedulerOperations.

Import JsDate.

(** Offset of the host's local time from UTC, in milliseconds. *)
Variable LocalTZA : Z.

(** [cron.validate] of the node-cron package. *)
Variable validate : string → bool.

(** [getNextRunTime]; [from] is given by the caller (the current instant
    where the source leaves it out). *)
Definition getNextRunTime (cronExpression : string) (from : Date) : Date :=
  let parts := split_string " " cronExpression in
  let now := from in
  let nextDate := now in
  let nextDate :=
    setMinutes LocalTZA nextDate (getMinutes LocalTZA nextDate + 1) in
  let nextDate := setSeconds LocalTZA nextDate 0 in
  let nextDate := setMilliseconds LocalTZA nextDate 0 in
  if bool_decide (cronExpression = "* * * * *") then
    nextDate
  else if field_is parts 0 "0" && field_is parts 1 "*" then
    let nextDate := setMinutes LocalTZA nextDate 0 in
    if getMinutes LocalTZA now =? 0 then
      setHours LocalTZA nextDate (getHours LocalTZA nextDate + 1)
    else nextDate
  else if field_is parts 0 "0" && field_is parts 1 "0"
          && field_is parts 2 "*" then
    let nextDate := setMinutes LocalTZA nextDate 0 in
    let nextDate := setHours LocalTZA nextDate 0 in
    setDate LocalTZA nextDate (getDate LocalTZA nextDate + 1)
  else if field_is parts 0 "0" && field_is parts 1 "0"
          && field_is parts 4 "0" then
    let nextDate := setMinutes LocalTZA nextDate 0 in
    let nextDate := setHours LocalTZA nextDate 0 in
    setDate LocalTZA nextDate
      (getDate LocalTZA nextDate + (7 - getDay LocalTZA nextDate))
  else if field_is parts 0 "0" && field_is parts 1 "0"
          && field_is parts 2 "1" then
    let nextDate := setMinutes LocalTZA nextDate 0 in
    let nextDate := setHours LocalTZA nextDate 0 in
    let nextDate := setDate LocalTZA nextDate 1 in
    setMonth LocalTZA nextDate (getMonth LocalTZA nextDate + 1)
  else
    setMinutes LocalTZA nextDate (getMinutes LocalTZA nextDate + 5).

(** [scheduleJob]; [fresh] is the id of the new document. *)
Definition scheduleJob (fresh : ObjectId) (name : string) (data : JobData)
    (scheduledAt : Date) (options : option JobOptions)
    (userId : option string) (s : Scheduler) : Result (Scheduler * Job) :=
  ensureInitialized s
    (let '(db, job) :=
       JobRepository.createJob fresh name data scheduledAt options userId
         (jobRepository s) in
     Ok (emit JOB_SCHEDULED job None (set_jobRepository db s), job)).

(** [scheduleRecurringJob] at the instant [now]; [freshR] and [fresh] are
    the ids of the new schedule and of its first job. *)
Definition scheduleRecurringJob (now : Date) (freshR fresh : ObjectId)
    (name : string) (data : JobData) (cronExpression : string)
    (options : option JobOptions) (userId : option string) (s : Scheduler)
  : Result (Scheduler * Job) :=
  ensureInitialized s
    (if negb (validate cronExpression) then
       Throw ("Invalid cron expression: " +:+ cronExpression)
     else
       let '(rdb, _) :=
         RecurringJobRepository.createRecurringJob freshR name data
           cronExpression options userId (recurringJobRepository s) in
       let s := set_recurringJobRepository rdb s in
       let nextRunTime := getNextRunTime cronExpression now in
       let '(db, job) :=
         JobRepository.createJob fresh name data nextRunTime options userId
           (jobRepository s) in
       Ok (emit JOB_SCHEDULED job None (set_jobRepository db s), job)).

Definition getJob (jobId : IdArgument) (s : Scheduler)
  : Result (option Job) :=
  ensureInitialized s (JobRepository.getJobById jobId (jobRepository s)).

(** [cancelJob]. When [getJobById] has answered a job, [jobId] is cast to
    the id of that job, which [deleteJob] gets. *)
Definition cancelJob (jobId : IdArgument) (s : Scheduler)
  : Result (Scheduler * bool) :=
  ensureInitialized s
    (match JobRepository.getJobById jobId (jobRepository s) with
     | Throw message => Throw message
     | Ok None => Ok (s, false)
     | Ok (Some job) =>
         if negb (bool_decide (status job = PENDING)) then Ok (s, false)
         else
           let '(db, success) :=
             JobRepository.deleteJob (id job) (jobRepository s) in
           let s := set_jobRepository db s in
           let s := if success then emit JOB_CANCELLED job None s else s in
           Ok (s, success)
     end).

(** [retryJob]; [updateJobStatus] gets the id of the job as [deleteJob]
    does in [cancelJob]. *)
Definition retryJob (now : Date) (jobId : IdArgument) (s : Scheduler)
  : Result (Scheduler * option Job) :=
  ensureInitialized s
    (match JobRepository.getJobById jobId (jobRepository s) with
     | Throw message => Throw message
     | Ok None => Ok (s, None)
     | Ok (Some job) =>
         if negb (bool_decide (status job = FAILED)) then
           Throw ("Cannot retry job with status: "
                  +:+ JobStatus_value (status job))
         else
           let '(db, updatedJob) :=
             JobRepository.updateJobStatus now (id job) PENDING None
               (jobRepository s) in
           let s := set_jobRepository db s in
           let s :=
             match updatedJob with
             | Some u => emit JOB_RETRIED u None s
             | None => s
             end in
           Ok (s, updatedJob)
     end).

(** [await this.jobRepository.updateJobStatus(...)] with the answer
    dropped. *)
Definition do_updateJobStatus (now : Date) (jobId : ObjectId)
    (st : JobStatus) (msg : option string) (s : Scheduler) : Scheduler :=
  set_jobRepository
    (JobRepository.updateJobStatus now jobId st msg (jobRepository s)).1 s.

(** [this.activeJobs.has(job.id)] at the entry of [processJob]. The only
    caller of [processJob] is [processNextJobs], which hands over each job
    that its query has answered once. The id object of such a job was
    made when the answer was read, and the set gets an id object only
    from the call of [processJob] for its job, after this test: no member
    of the set is this object, whatever their values are. *)
Definition has_id_object (active : gmultiset ObjectId) (job : Job) : bool :=
  false.

(** [processJob], from its entry to its first [await]: the test of the
    active set, the look-up of the handler and the first write to the
    store. The answer is the handler that the job will be handed to, or
    [None] when [processJob] ends here. *)
Definition processJob_enter (now : Date) (job : Job) (s : Scheduler)
  : Scheduler * option JobHandler :=
  if has_id_object (activeJobs s) job then (s, None)
  else
    match jobHandlers s !! name job with
    | None =>
        (do_updateJobStatus now (id job) FAILED
           (Some ("No handler registered for job type: " +:+ name job)) s,
         None)
    | Some handler =>
        (do_updateJobStatus now (id job) RUNNING None s, Some handler)
    end.

(** [processJob], from the answer to that write to the call of the
    handler: the id object joins the active set, the attempt is counted
    and [JOB_STARTED] is emitted. The answer is what the handler's promise
    will do. *)
Definition processJob_launch (job : Job) (handler : JobHandler)
    (s : Scheduler) : Scheduler * HandlerRun :=
  let s := set_activeJobs ({[+ id job +]} ⊎ activeJobs s) s in
  let s :=
    set_jobRepository
      (JobRepository.incrementJobAttempts (id job) (jobRepository s)).1 s in
  let s := emit JOB_STARTED job None s in
  (s, handler job).

(** [processJob], from its entry to the call of the handler, when nothing
    else runs in between. The answer is [None] when the job was not handed
    to a handler. *)
Definition processJob_start (now : Date) (job : Job) (s : Scheduler)
  : Scheduler * option HandlerRun :=
  let '(s, handler) := processJob_enter now job s in
  match handler with
  | Some handler =>
      let '(s, run) := processJob_launch job handler s in (s, Some run)
  | None => (s, None)
  end.

(** [Promise.race([handler(job), timeoutPromise])]. *)
Definition race (job : Job) (run : HandlerRun) : JobResult + Thrown :=
  match run with
  | Resolves result => inl result
  | Rejects reason => inr reason
  | Unsettled =>
      inr (ErrorObject
             ("Job timed out after " +:+ pretty (timeout job) +:+ "ms"))
  end.

(** [processJob], from the settling of the race to the end of the [try]
    and [catch] blocks. The argument of [getJobById] is the [id] of the
    job, an ObjectId: its cast does not fail. *)
Definition processJob_settle (now : Date) (job : Job) (run : HandlerRun)
    (s : Scheduler) : Scheduler :=
  match race job run with
  | inl result =>
      if success result then
        let s := do_updateJobStatus now (id job) COMPLETED None s in
        emit JOB_COMPLETED job (Some result) s
      else
        let errorMessage :=
          match error result with
          | Some message => message
          | None => "Job failed without error details"
          end in
        let s :=
          do_updateJobStatus now (id job) FAILED (Some errorMessage) s in
        let updatedJob :=
          JobRepository.getJobById (id job) (jobRepository s) in
        let s :=
          match updatedJob with
          | Ok (Some u) =>
              if attempts u <? maxRetries u then
                let retryTime := now + retryDelay u in
                let s := do_updateJobStatus now (id u) PENDING None s in
                do_updateJobStatus now (id u) PENDING None s
              else s
          | Ok None | Throw _ => s
          end in
        emit JOB_FAILED job (Some result) s
  | inr thrown =>
      let errorMessage :=
        match thrown with
        | ErrorObject message => message
        | OtherValue => "Unknown error"
        end in
      let s :=
        do_updateJobStatus now (id job) FAILED (Some errorMessage) s in
      let updatedJob :=
        JobRepository.getJobById (id job) (jobRepository s) in
      let s :=
        match updatedJob with
        | Ok (Some u) =>
            if attempts u <? maxRetries u then
              let retryTime := now + retryDelay u in
              do_updateJobStatus now (id u) PENDING None s
            else s
        | Ok None | Throw _ => s
        end in
      emit JOB_FAILED job
        (Some {| success := false; error := Some errorMessage |}) s
  end.

(** The [finally] block of [processJob]: the id object leaves the active
    set. *)
Definition processJob_finally (job : Job) (s : Scheduler) : Scheduler :=
  set_activeJobs (activeJobs s ∖ {[+ id job +]}) s.

(** [processJob], from the settling of the race to the end of the
    [finally] block, when nothing else runs in between. *)
Definition processJob_finish (now : Date) (job : Job) (run : HandlerRun)
    (s : Scheduler) : Scheduler :=
  processJob_finally job (processJob_settle now job run s).

(** [processJob] run from start to end, the handler started at [now] and
    the race settled at [later]. *)
Definition processJob (now later : Date) (job : Job) (s : Scheduler)
  : Scheduler :=
  let '(s, run) := processJob_start now job s in
  match run with
  | Some run => processJob_finish later job run s
  | None => s
  end.

(** The body of [pendingJobs.forEach]: [processJob] is called and runs to
    its first [await]; the job is noted when a handler waits for it. *)
Definition forEach_body (now : Date)
    (acc : Scheduler * list (Job * JobHandler)) (job : Job)
  : Scheduler * list (Job * JobHandler) :=
  let '(s, handler) := processJob_enter now job acc.1 in
  match handler with
  | Some handler => (s, acc.2 ++ [(job, handler)])
  | None => (s, acc.2)
  end.

(** [processNextJobs]. The promises of [processJob] are not awaited: the
    function returns when every selected job has run to its first
    [await], before any id has joined the active set. The answer lists
    the jobs that then wait for the store to go on, each with its
    handler. *)
Definition processNextJobs (now : Date) (s : Scheduler)
  : Result (Scheduler * list (Job * JobHandler)) :=
  ensureInitialized s
    (if Z.of_nat (size (activeJobs s)) >=? maxConcurrentJobs s then
       Ok (s, [])
     else
       let availableSlots :=
         maxConcurrentJobs s - Z.of_nat (size (activeJobs s)) in
       let pendingJobs :=
         JobRepository.getPendingJobs now availableSlots (jobRepository s) in
       Ok (foldl (forEach_body now) (s, []) pendingJobs)).

(** The jobs that wait after [processNextJobs] go on to the call of their
    handlers, one after the other. The answer lists the jobs in flight,
    each with what its handler will do. *)
Definition launch (entered : list (Job * JobHandler)) (s : Scheduler)
  : Scheduler * list (Job * HandlerRun) :=
  foldl (λ (acc : Scheduler * list (Job * HandlerRun))
           (jh : Job * JobHandler),
           let '(s, run) := processJob_launch jh.1 jh.2 acc.1 in
           (s, acc.2 ++ [(jh.1, run)]))
        (s, []) entered.

(** The jobs in flight run to their end, settled at [later]. *)
Definition settle (later : Date) (inflight : list (Job * HandlerRun))
    (s : Scheduler) : Scheduler :=
  foldl (λ s (jr : Job * HandlerRun), processJob_finish later jr.1 jr.2 s)
        s inflight.

(** The two places where [checkRecurringJobs] creates the job of a
    schedule and stamps the schedule with the current instant. The
    answer is the state when the two statements end, and the message of
    the exception that ended them early, if there was one. [createJob]
    gets the payload that was read with the schedule, and throws when
    there is none: [data] is a required path of a job. *)
Definition spawn (now : Date) (fresh : RecurringJob → ObjectId)
    (recurringJob : RecurringJob) (nextRunTime : Date) (s : Scheduler)
  : Scheduler * option string :=
  match stored_payload (r_data recurringJob) with
  | None => (s, Some "Job validation failed: data: Path `data` is required.")
  | Some data =>
      let s :=
        set_jobRepository
          (JobRepository.createJob (fresh recurringJob)
             (r_name recurringJob) data nextRunTime
             (Some {| opt_priority := Some (r_priority recurringJob);
                      opt_maxRetries := Some (r_maxRetries recurringJob);
                      opt_retryDelay := Some (r_retryDelay recurringJob);
                      opt_timeout := Some (r_timeout recurringJob) |})
             (r_userId recurringJob) (jobRepository s)).1 s in
      match RecurringJobRepository.updateLastExecutedAt
              (r_id recurringJob) now (recurringJobRepository s) with
      | Ok (db, _) => (set_recurringJobRepository db s, None)
      | Throw message => (s, Some message)
      end
  end.

(** The body of the loop of [checkRecurringJobs]: the [try] block, and the
    [catch] block, which logs the exception and lets the loop go on. *)
Definition checkRecurringJob (now : Date) (fresh : RecurringJob → ObjectId)
    (s : Scheduler) (recurringJob : RecurringJob) : Scheduler :=
  let tried :=
    match r_lastExecutedAt recurringJob with
    | None =>
        let nextRunTime :=
          getNextRunTime (r_cronExpression recurringJob) now in
        spawn now fresh recurringJob nextRunTime s
    | Some lastExecutedAt =>
        let nextRunTime :=
          getNextRunTime (r_cronExpression recurringJob) lastExecutedAt in
        if nextRunTime <=? now then spawn now fresh recurringJob nextRunTime s
        else (s, None)
    end in
  tried.1.

(** [checkRecurringJobs]; [fresh r] is the id that the store gives the
    job spawned for the schedule [r]. *)
Definition checkRecurringJobs (now : Date) (fresh : RecurringJob → ObjectId)
    (s : Scheduler) : Scheduler :=
  foldl (checkRecurringJob now fresh) s
    (RecurringJobRepository.getActiveRecurringJobs
       (recurringJobRepository s)).

(** One firing of the cron task of [initialize] with nothing else running
    in between: the selected jobs go on to the call of their handlers,
    and every started job runs to its end at [later], before the next
    firing. *)
Definition tick (now later : Date) (fresh : RecurringJob → ObjectId)
    (s : Scheduler) : Result Scheduler :=
  let s := checkRecurringJobs now fresh s in
  match processNextJobs now s with
  | Ok (s, entered) =>
      let '(s, inflight) := launch entered s in
      Ok (settle later inflight s)
  | Throw message => Throw message
  end.

(** [n] firings in a row, the [i]-th at [clock i] with its jobs settled
    before the next one, [fresh i] naming the jobs it spawns. *)
Fixpoint ticks (clock : nat → Date) (fresh : nat → RecurringJob → ObjectId)
    (from n : nat) (s : Scheduler) : Result Scheduler :=
  match n with
  | O => Ok s
  | S n =>
      match tick (clock from) (clock from) (fresh from) s with
      | Ok s => ticks clock fresh (S from) n s
      | Throw message => Throw message
      end
  end.

End SchedulerOperations.

(** ** Notions used by the statements *)

(** The message that [processJob] stores when the race ends in a failure;
    [None] when the handler reported success. *)
Definition failure_message (job : Job) (run : HandlerRun) : option string :=
  match race job run with
  | inl result =>
      if success result then None
      else Some (default "Job failed without error details" (error result))
  | inr (ErrorObject message) => Some message
  | inr OtherValue => Some "Unknown error"
  end.

(** The filter of the selection query. *)
Definition due (now : Date) (d : JobDocument) : Prop :=
  status d = PENDING ∧ scheduledAt d ≤ now.


(** The expressions that reach the last branch of [getNextRunTime]: every
    test of the branches before it fails. *)
Definition falls_through (cronExpression : string) : bool :=
  let parts := split_string " " cronExpression in
  negb (bool_decide (cronExpression = "* * * * *"))
  && negb (field_is parts 0 "0" && field_is parts 1 "*")
  && negb (field_is parts 0 "0" && field_is parts 1 "0"
           && field_is parts 2 "*")
  && negb (field_is parts 0 "0" && field_is parts 1 "0"
           && field_is parts 4 "0")
  && negb (field_is parts 0 "0" && field_is parts 1 "0"
           && field_is parts 2 "1").

(** Local midnights, and the first of them strictly after an instant. *)
Definition is_midnight (LocalTZA : Z) (m : Date) : Prop :=
  JsDate.TimeWithinDay (JsDate.LocalTime LocalTZA m) = 0.

Definition first_midnight_after (LocalTZA : Z) (x m : Date) : Prop :=
  is_midnight LocalTZA m ∧ x < m ∧
  ∀ m', is_midnight LocalTZA m' → x < m' → m ≤ m'.

(** The rounding with which [getNextRunTime] begins: one minute later,
    seconds and milliseconds set to zero. *)
Definition round_forward (LocalTZA : Z) (from : Date) : Date :=
  JsDate.setMilliseconds LocalTZA
    (JsDate.setSeconds LocalTZA
       (JsDate.setMinutes LocalTZA from (JsDate.getMinutes LocalTZA from + 1))
       0)
    0.


(** The document that the failure branches of [processJob] leave in the
    store, [d] being the document when the race settles: marked failed
    with the message, and marked pending again when the retry test
    passes. *)
Definition after_failure (now : Date) (msg : string) (d : JobDocument)
  : JobDocument :=
  let failed := JobRepository.status_update now FAILED (Some msg) d in
  if attempts d <? maxRetries d then set_status PENDING failed else failed.

(** The document that [processJob] leaves when no handler is registered. *)
Definition without_handler (now : Date) (job : Job) (d : JobDocument)
  : JobDocument :=
  JobRepository.status_update now FAILED
    (Some ("No handler registered for job type: " +:+ name job)) d.

(** The document of a job when its handler has been called at [now]:
    marked running and stamped, with one more attempt. *)
Definition dispatched (now : Date) (d : JobDocument) : JobDocument :=
  inc_attempts (set_executedAt now (set_status RUNNING d)).

(** The document of a job whose handler reported success at [now]. *)
Definition completed (now : Date) (d : JobDocument) : JobDocument :=
  set_completedAt now (set_status COMPLETED d).

(** The fields of a document that no operation of the scheduler writes
    after the creation, and the attempts, which only grow. *)
Definition same_job (d d' : JobDocument) : Prop :=
  name d' = name d ∧ data d' = data d ∧ scheduledAt d' = scheduledAt d ∧
  userId d' = userId d ∧ priority d' = priority d ∧
  maxRetries d' = maxRetries d ∧ retryDelay d' = retryDelay d ∧
  timeout d' = timeout d ∧ attempts d ≤ attempts d'.

(** Local time of day and day of the week of an instant. *)
Definition local_time_of_day (LocalTZA : Z) (t : Date) : Z :=
  JsDate.TimeWithinDay (JsDate.LocalTime LocalTZA t).

Definition local_minute (LocalTZA : Z) (t : Date) : Z :=
  JsDate.MinFromTime (JsDate.LocalTime LocalTZA t).

Definition start_of_local_hour (LocalTZA : Z) (t : Date) : Date :=
  t - (t + LocalTZA) mod JsDate.msPerHour.

(** The number of days of a year that have passed when the month [m]
    (0 for January) ends, [l] being 1 in a leap year and 0 otherwise. *)
Definition monthEnd (l m : Z) : Z :=
  match m with
  | 0 => 31
  | 1 => 59 + l
  | 2 => 90 + l
  | 3 => 120 + l
  | 4 => 151 + l
  | 5 => 181 + l
  | 6 => 212 + l
  | 7 => 243 + l
  | 8 => 273 + l
  | 9 => 304 + l
  | 10 => 334 + l
  | _ => 365 + l
  end.


(** The document of the job that [checkRecurringJobs] creates for a
    schedule, due at [nextRunTime]. *)
Definition occurrence (r : RecurringJobDocument) (nextRunTime : Date)
  : JobDocument :=
  {| name := r_name r;
     data := r_data r;
     status := PENDING;
     scheduledAt := nextRunTime;
     executedAt := None;
     completedAt := None;
     errorMessage := None;
     attempts := 0;
     userId := r_userId r;
     priority := r_priority r;
     maxRetries := or_default (Some (r_maxRetries r)) 3;
     retryDelay := or_default (Some (r_retryDelay r)) 60000;
     timeout := or_default (Some (r_timeout r)) 30000 |}.

(** ** Sample data *)

Definition sample_job (n : string) (p : JobPriority) (due_at : Date)
    (retries : Z) : JobDocument :=
  {| name := n; data := "{}"; status := PENDING; scheduledAt := due_at;
     executedAt := None; completedAt := None; errorMessage := None;
     attempts := 0; userId := None; priority := p; maxRetries := retries;
     retryDelay := 60000; timeout := 30000 |}.

(** Two due jobs: the one of high priority due later than the one of low
    priority. *)
Definition two_priorities : gmap ObjectId JobDocument :=
  <["high-later" := sample_job "report" HIGH 20 3]>
    (<["low-earlier" := sample_job "report" LOW 10 3]> ∅).

(** A handler that always throws. *)
Definition always_throws : JobHandler :=
  λ _, Rejects (ErrorObject "boom").

Definition only_max_retries (n : Z) : JobOptions :=
  {| opt_priority := None; opt_maxRetries := Some n;
     opt_retryDelay := None; opt_timeout := None |}.

(** A started scheduler with the handler [always_throws] for "flaky" and
    one job of that name, due at 0, scheduled with [maxRetries = n]. *)
Definition flaky_scheduler (n : Z) : Result (Scheduler * Job) :=
  scheduleJob "job-1" "flaky" "{}" 0 (Some (only_max_retries n)) None
    (registerJobHandler "flaky" always_throws
       (initialize (new_Scheduler None))).

Definition scheduler_of (r : Result (Scheduler * Job)) : Scheduler :=
  match r with
  | Ok (s, _) => s
  | Throw _ => new_Scheduler None
  end.

(** The job of [flaky_scheduler n] as a query hands it to [processJob],
    and the scheduler when the handler of that job has been called at
    1000. *)
Definition flaky_job (n : Z) : Job :=
  {| id := "job-1"; fields := sample_job "flaky" NORMAL 0 n |}.

Definition flaky_running (n : Z) : Scheduler :=
  (processJob_start 1000 (flaky_job n) (scheduler_of (flaky_scheduler n))).1.

(** The stored document of that job in [flaky_running n]. *)
Definition flaky_running_doc (n : Z) : JobDocument :=
  inc_attempts
    (set_executedAt 1000 (set_status RUNNING (sample_job "flaky" NORMAL 0 n))).

(** A started scheduler without handlers, holding one due job. *)
Definition orphan_job : Job :=
  {| id := "job-1"; fields := sample_job "unknown" NORMAL 0 3 |}.

Definition orphan_scheduler : Scheduler :=
  set_jobRepository (<["job-1" := fields orphan_job]> ∅)
    (initialize (new_Scheduler None)).

(** A started scheduler holding one failed job. *)
Definition failed_scheduler : Scheduler :=
  set_jobRepository
    (<["job-1" := set_status FAILED (sample_job "report" NORMAL 0 3)]> ∅)
    (initialize (new_Scheduler None)).


(** A validator that accepts every expression. *)
Definition accept_all : string → bool := λ _, true.

(** Firings one minute apart, none of which spawns a job under the id of
    a sample job. *)
Definition every_minute : nat → Date := λ i, 60000 * (Z.of_nat i + 1).

Definition spawned_ids : nat → RecurringJob → ObjectId := λ _ _, "spawned".

(** Handlers that report success, that never settle, and that throw an
    error with an empty message. *)
Definition always_succeeds : JobHandler :=
  λ _, Resolves {| success := true; error := None |}.

Definition never_settles : JobHandler := λ _, Unsettled.

Definition throws_empty : JobHandler := λ _, Rejects (ErrorObject "").

(** The scheduler of [flaky_scheduler 1] with another handler for
    "flaky". *)
Definition scheduler_with (handler : JobHandler) : Scheduler :=
  registerJobHandler "flaky" handler (scheduler_of (flaky_scheduler 1)).

(** A handler that reports a failure. *)
Definition reports_failure : JobHandler :=
  λ _, Resolves {| success := false; error := Some "boom" |}.

(** The scheduler of [flaky_scheduler 2] with the handler
    [reports_failure] for "flaky": its cap is 10 and its one job, due at
    0, has [maxRetries = 2]. *)
Definition retrying_scheduler : Scheduler :=
  registerJobHandler "flaky" reports_failure
    (scheduler_of (flaky_scheduler 2)).

(** A started scheduler built with the cap 1, holding a handler and two
    due jobs. *)
Definition narrow_scheduler : Scheduler :=
  set_jobRepository
    (<["job-2" := sample_job "flaky" NORMAL 0 3]>
       (<["job-1" := sample_job "flaky" NORMAL 0 3]> ∅))
    (registerJobHandler "flaky" never_settles
       (initialize (new_Scheduler (Some 1)))).

(** A started scheduler with a handler and an empty store. *)
Definition empty_scheduler : Scheduler :=
  registerJobHandler "flaky" always_throws (initialize (new_Scheduler None)).

(** A started scheduler holding one completed job. *)
Definition completed_scheduler : Scheduler :=
  set_jobRepository
    (<["job-1" := set_status COMPLETED (sample_job "report" NORMAL 0 3)]> ∅)
    (initialize (new_Scheduler None)).

(** A job that failed with its three attempts used up, in a started
    scheduler whose handler for it always throws. *)
Definition exhausted_doc : JobDocument :=
  set_status FAILED
    (inc_attempts (inc_attempts (inc_attempts
       (sample_job "report" NORMAL 0 3)))).

Definition exhausted_scheduler : Scheduler :=
  registerJobHandler "report" always_throws
    (set_jobRepository (<["job-1" := exhausted_doc]> ∅)
       (initialize (new_Scheduler None))).

(** A started scheduler built with the cap -1, holding one due job. *)
Definition capped_scheduler : Scheduler :=
  set_jobRepository (<["job-1" := sample_job "report" NORMAL 0 3]> ∅)
    (initialize (new_Scheduler (Some (-1)))).

(** An active schedule with the expression "*/5 * * * *", stamped or
    not, and a started scheduler holding it. *)
Definition sample_schedule (last : option Date) : RecurringJob :=
  {| r_id := "schedule-1";
     r_fields :=
       {| r_name := "report"; r_data := "{k:1}";
          r_cronExpression := "*/5 * * * *"; r_userId := None;
          r_priority := NORMAL; r_maxRetries := 3; r_retryDelay := 60000;
          r_timeout := 30000; r_lastExecutedAt := last;
          r_isActive := true |} |}.

Definition schedule_scheduler (last : option Date) : Scheduler :=
  set_recurringJobRepository
    (<["schedule-1" := r_fields (sample_schedule last)]> ∅)
    (initialize (new_Scheduler None)).



(** Ids for the jobs of schedules, one for each schedule. *)
Definition job_of_schedule : RecurringJob → ObjectId :=
  λ r, "job-of-" +:+ r_id r.

(** The update that makes a schedule inactive. *)
Definition deactivate : RecurringJobRepository.Updates :=
  {| RecurringJobRepository.u_name := None;
     RecurringJobRepository.u_data := None;
     RecurringJobRepository.u_cronExpression := None;
     RecurringJobRepository.u_userId := None;
     RecurringJobRepository.u_priority := None;
     RecurringJobRepository.u_maxRetries := None;
     RecurringJobRepository.u_retryDelay := None;
     RecurringJobRepository.u_timeout := None;
     RecurringJobRepository.u_lastExecutedAt := None;
     RecurringJobRepository.u_isActive := Some false |}.

(** * Properties *)

(** ** The calendar *)

Section Calendar.

Import JsDate.

(** [YearFromTime] is the year of the language definition: the year whose
    first day is the last first-of-year on or before the day of [t]. *)
Lemma YearFromTime_bounds t :
  DayFromYear (YearFromTime t) ≤ Day t < DayFromYear (YearFromTime t + 1).
Proof.
  unfold YearFromTime. generalize (Day t). intros d. cbv zeta.
  destruct (Z.ltb_spec d (DayFromYear (1970 + 400 * d / 146097))) as [H1|H1].
  - unfold DayFromYear in *. Z.to_euclidean_division_equations; lia.
  - destruct (Z.leb_spec (DayFromYear (1970 + 400 * d / 146097 + 1)) d)
      as [H2|H2]; [|lia].
    unfold DayFromYear in *. Z.to_euclidean_division_equations; lia.
Qed.

Lemma DayFromYear_mono y y' : y ≤ y' → DayFromYear y ≤ DayFromYear y'.
Proof.
  intros H. unfold DayFromYear. Z.to_euclidean_division_equations; lia.
Qed.

Lemma YearFromTime_largest t y :
  DayFromYear y ≤ Day t → y ≤ YearFromTime t.
Proof.
  intros H. destruct (YearFromTime_bounds t) as [_ Hlt].
  destruct (Z.le_gt_cases y (YearFromTime t)) as [|Hgt]; [done|].
  pose proof (DayFromYear_mono (YearFromTime t + 1) y). lia.
Qed.

(** 2024-02-29T12:34:56.789Z, a Thursday. *)
Example leap_day_fields :
  let t := 1709210096789 in
  (YearFromTime t, MonthFromTime t, DateFromTime t, WeekDay t,
   HourFromTime t, MinFromTime t, SecFromTime t, msFromTime t)
  = (2024, 1, 29, 4, 12, 34, 56, 789).
Proof. vm_compute. reflexivity. Qed.

(** One millisecond before the epoch: 1969-12-31T23:59:59.999Z, a
    Wednesday. *)
Example before_epoch_fields :
  let t := -1 in
  (YearFromTime t, MonthFromTime t, DateFromTime t, WeekDay t,
   HourFromTime t, MinFromTime t, SecFromTime t, msFromTime t)
  = (1969, 11, 31, 3, 23, 59, 59, 999).
Proof. vm_compute. reflexivity. Qed.

(** [setDate] and [setMonth] carry over into the next month and year:
    31 November is 1 December, month 12 is January of the next year. *)
Example setDate_overflow :
  setDate 0 1730419200000 31 = 1733011200000 ∧
  setMonth 0 1730419200000 12 = 1735689600000.
Proof. vm_compute. split; reflexivity. Qed.

(** The branches of [getNextRunTime] at 1970-01-01T00:00:30Z, a Thursday:
    every minute, every hour, monthly, and the weekly pattern, which the
    test of the daily branch catches. *)
Example next_run_branches :
  getNextRunTime 0 "* * * * *" 30000 = 60000 ∧
  getNextRunTime 0 "0 * * * *" 30000 = 3600000 ∧
  getNextRunTime 0 "0 0 1 * *" 30000 = 2678400000 ∧
  getNextRunTime 0 "0 0 * * 0" 30000 = 86400000.
Proof. vm_compute. repeat split. Qed.

End Calendar.

(** ** The repository *)

Section RepositoryFacts.

Implicit Types (db : gmap ObjectId JobDocument) (d : JobDocument).

Lemma updateJobStatus_alter now i st msg db :
  (JobRepository.updateJobStatus now i st msg db).1
  = alter (JobRepository.status_update now st msg) i db.
Proof.
  unfold JobRepository.updateJobStatus.
  destruct (db !! i) as [d|] eqn:E; simpl.
  - apply map_eq; intros k. rewrite lookup_alter.
    destruct (decide (i = k)) as [->|Hne].
    + now rewrite lookup_insert_eq, E.
    + now rewrite lookup_insert_ne.
  - apply map_eq; intros k. rewrite lookup_alter.
    destruct (decide (i = k)) as [->|Hne]; [now rewrite E | done].
Qed.

Lemma incrementJobAttempts_alter i db :
  (JobRepository.incrementJobAttempts i db).1 = alter inc_attempts i db.
Proof.
  unfold JobRepository.incrementJobAttempts.
  destruct (db !! i) as [d|] eqn:E; simpl.
  - apply map_eq; intros k. rewrite lookup_alter.
    destruct (decide (i = k)) as [->|Hne].
    + now rewrite lookup_insert_eq, E.
    + now rewrite lookup_insert_ne.
  - apply map_eq; intros k. rewrite lookup_alter.
    destruct (decide (i = k)) as [->|Hne]; [now rewrite E | done].
Qed.

Lemma getJobById_Some (i : ObjectId) db d :
  db !! i = Some d →
  JobRepository.getJobById i db = Ok (Some {| id := i; fields := d |}).
Proof.
  intros E. unfold JobRepository.getJobById, JobRepository.findById.
  now rewrite E.
Qed.

Lemma getJobById_None (i : ObjectId) db :
  db !! i = None → JobRepository.getJobById i db = Ok None.
Proof.
  intros E. unfold JobRepository.getJobById, JobRepository.findById.
  now rewrite E.
Qed.

End RepositoryFacts.

(** ** Management operations *)

Section Management.

(** C6. For an id that is an ObjectId (the [id] of a job, or the text of
    one), [cancelJob] answers [true] exactly when the job exists with
    status [PENDING], and it then deletes the job; for an absent id and
    for a job that is running, completed or failed it answers [false],
    throws nothing and changes nothing. For a text that is no ObjectId
    the look-up throws a [CastError], and nothing is changed. *)
Theorem cancelJob_iff_pending (s : Scheduler) :
  initialized s = true →
  (∀ jobId : ObjectId,
     ∃ s' b,
       cancelJob jobId s = Ok (s', b) ∧
       (b = true ↔
          ∃ d, jobRepository s !! jobId = Some d ∧ status d = PENDING) ∧
       (b = true →
          jobRepository s' = delete jobId (jobRepository s) ∧
          jobRepository s' !! jobId = None) ∧
       (b = false → s' = s)) ∧
  (∀ text, cancelJob (NotAnId text) s = Throw (CastError text "Job")).
Proof.
  intros Hinit. unfold cancelJob, ensureInitialized. rewrite Hinit.
  split; [|done]. intros jobId.
  destruct (jobRepository s !! jobId) as [d|] eqn:E.
  - rewrite (getJobById_Some _ _ _ E). cbn [id fields].
    destruct (decide (status d = PENDING)) as [Hp|Hp].
    + rewrite bool_decide_eq_true_2 by done. simpl.
      unfold JobRepository.deleteJob. rewrite E. simpl.
      eexists _, true. split; [reflexivity|]. repeat split; eauto.
      * simpl. apply lookup_delete_eq.
      * discriminate.
    + rewrite bool_decide_eq_false_2 by done. simpl.
      exists s, false. split; [reflexivity|]. repeat split; try discriminate.
      intros (d' & Hd' & Hst). congruence.
  - rewrite (getJobById_None _ _ E).
    exists s, false. split; [reflexivity|]. repeat split; try discriminate.
    intros (d' & Hd' & _). congruence.
Qed.

(** C7. On an existing job whose status is not [FAILED], [retryJob]
    throws; on a [FAILED] job it writes the status [PENDING] and nothing
    else, so that [attempts] and [scheduledAt] are as before. *)
Theorem retryJob_only_failed (now : Date) (s : Scheduler) (jobId : ObjectId)
    (d : JobDocument) :
  initialized s = true →
  jobRepository s !! jobId = Some d →
  (status d ≠ FAILED →
     retryJob now jobId s
     = Throw ("Cannot retry job with status: "
              +:+ JobStatus_value (status d))) ∧
  (status d = FAILED →
     ∃ s' d',
       retryJob now jobId s = Ok (s', Some {| id := jobId; fields := d' |}) ∧
       jobRepository s' = <[jobId := d']> (jobRepository s) ∧
       d' = set_status PENDING d ∧
       status d' = PENDING ∧
       attempts d' = attempts d ∧
       scheduledAt d' = scheduledAt d).
Proof.
  intros Hinit E. unfold retryJob, ensureInitialized. rewrite Hinit.
  rewrite (getJobById_Some _ _ _ E). simpl. split; intros Hst.
  - now rewrite bool_decide_eq_false_2 by done.
  - rewrite bool_decide_eq_true_2 by done. simpl.
    unfold JobRepository.updateJobStatus. rewrite E. simpl.
    eexists _, _. split; [reflexivity|]. simpl. repeat split.
Qed.

End Management.

(** ** Defaults of the per-job policy *)

Section PolicyDefaults.

Variable LocalTZA : Z.
Variable validate : string → bool.




End PolicyDefaults.

(** ** The next-run calculator *)

Section NextRunTime.

Import JsDate.

Variable LocalTZA : Z.
Variable validate : string → bool.

Local Ltac euclid :=
  unfold HourFromTime, MinFromTime, SecFromTime, msFromTime, Day,
    TimeWithinDay, MakeDate, MakeTime, LocalTime, UTC,
    msPerDay, msPerHour, msPerMinute, msPerSecond in *;
  Z.to_euclidean_division_equations; lia.

(** A time value is made of its day, hour, minute, second and
    millisecond. *)
Lemma time_fields t :
  t = MakeDate (Day t)
        (MakeTime (HourFromTime t) (MinFromTime t) (SecFromTime t)
           (msFromTime t)).
Proof. euclid. Qed.

Local Ltac by_fields d :=
  pose proof (time_fields (LocalTime LocalTZA d));
  unfold setMinutes, setSeconds, setMilliseconds, setHours, getMinutes,
    getHours, UTC, MakeDate, MakeTime in *;
  unfold LocalTime in *; lia.

Lemma setMinutes_add d k :
  setMinutes LocalTZA d (getMinutes LocalTZA d + k) = d + k * msPerMinute.
Proof. by_fields d. Qed.

Lemma setMinutes_zero d :
  setMinutes LocalTZA d 0
  = d - MinFromTime (LocalTime LocalTZA d) * msPerMinute.
Proof. by_fields d. Qed.

Lemma setHours_zero d :
  setHours LocalTZA d 0
  = d - HourFromTime (LocalTime LocalTZA d) * msPerHour.
Proof. by_fields d. Qed.

Lemma setSeconds_zero d :
  setSeconds LocalTZA d 0
  = d - SecFromTime (LocalTime LocalTZA d) * msPerSecond.
Proof. by_fields d. Qed.

Lemma setMilliseconds_zero d :
  setMilliseconds LocalTZA d 0 = d - msFromTime (LocalTime LocalTZA d).
Proof. by_fields d. Qed.

(** The rounding lands on the start of the next local minute. *)
Lemma round_forward_eq d :
  round_forward LocalTZA d
  = d - (d + LocalTZA) mod msPerMinute + msPerMinute.
Proof.
  unfold round_forward.
  rewrite (setMinutes_add d 1), setSeconds_zero, setMilliseconds_zero.
  euclid.
Qed.

Lemma MonthFromTime_range t : 0 ≤ MonthFromTime t ≤ 11.
Proof.
  unfold MonthFromTime.
  repeat match goal with
         | |- context [if ?b then _ else _] => destruct b
         end; lia.
Qed.

(** The day of a date moved within its month's numbering. *)
Lemma MakeDay_shift t k :
  MakeDay (YearFromTime t) (MonthFromTime t) (DateFromTime t + k)
  = Day t + k.
Proof.
  pose proof (MonthFromTime_range t) as Hm.
  unfold MakeDay.
  rewrite Z.div_small, Z.mod_small, Z.add_0_r by lia.
  unfold DateFromTime, DayWithinYear. lia.
Qed.

Lemma setDate_add d k :
  setDate LocalTZA d (getDate LocalTZA d + k) = d + k * msPerDay.
Proof.
  unfold setDate, getDate. rewrite MakeDay_shift. euclid.
Qed.

(** The first local midnight after an instant, in closed form. *)
Lemma first_midnight_after_next_day x :
  first_midnight_after LocalTZA x
    ((Day (LocalTime LocalTZA x) + 1) * msPerDay - LocalTZA).
Proof.
  unfold first_midnight_after, is_midnight. repeat split.
  - euclid.
  - euclid.
  - intros m' Hm' Hlt. euclid.
Qed.

Lemma first_midnight_after_unique x m m' :
  first_midnight_after LocalTZA x m →
  first_midnight_after LocalTZA x m' → m = m'.
Proof.
  intros (Hm & Hx & Hmin) (Hm' & Hx' & Hmin').
  specialize (Hmin m' Hm' Hx'). specialize (Hmin' m Hm Hx). lia.
Qed.

Lemma daily_fields :
  bool_decide ("0 0 * * *" = "* * * * *") = false ∧
  field_is (split_string " " "0 0 * * *") 0 "0" = true ∧
  field_is (split_string " " "0 0 * * *") 1 "*" = false ∧
  field_is (split_string " " "0 0 * * *") 1 "0" = true ∧
  field_is (split_string " " "0 0 * * *") 2 "*" = true.
Proof. vm_compute. repeat split. Qed.

(** The daily pattern: the local midnight that ends the day of the
    rounded instant. *)
Lemma daily_value T :
  getNextRunTime LocalTZA "0 0 * * *" T
  = (Day (LocalTime LocalTZA (round_forward LocalTZA T)) + 1) * msPerDay
    - LocalTZA.
Proof.
  destruct daily_fields as (E1 & E2 & E3 & E4 & E5).
  cbv beta zeta delta [getNextRunTime].
  rewrite E1, E2, E3, E4, E5. cbv [andb].
  rewrite setDate_add, setHours_zero, setMinutes_zero.
  rewrite round_forward_eq.
  rewrite (setMinutes_add T 1), setSeconds_zero, setMilliseconds_zero.
  euclid.
Qed.

(** The last branch: five minutes after the rounded instant. *)
Lemma fallback_value cronExpression from :
  falls_through cronExpression = true →
  getNextRunTime LocalTZA cronExpression from
  = round_forward LocalTZA from + 5 * msPerMinute.
Proof.
  unfold falls_through. cbv beta zeta delta [getNextRunTime].
  intros H.
  repeat match type of H with
         | (_ && _ = true) => apply andb_prop in H; destruct H as [H ?]
         end.
  repeat match goal with
         | E : negb ?b = true |- _ =>
             apply negb_true_iff in E; rewrite E
         end.
  rewrite setMinutes_add. reflexivity.
Qed.

(** C9. For the daily pattern the calculator yields the first local
    midnight strictly after the rounded instant (one minute after [T],
    seconds and milliseconds cleared). That is the first midnight
    strictly after [T] itself whenever [T] is not in the last minute of
    its day, and the midnight one day after it when [T] is in that last
    minute. Equal inputs give equal outputs. *)
Theorem daily_next_run (T : Date) :
  let next := getNextRunTime LocalTZA "0 0 * * *" T in
  first_midnight_after LocalTZA (round_forward LocalTZA T) next ∧
  (TimeWithinDay (LocalTime LocalTZA T) < msPerDay - msPerMinute →
     first_midnight_after LocalTZA T next) ∧
  (msPerDay - msPerMinute ≤ TimeWithinDay (LocalTime LocalTZA T) →
     first_midnight_after LocalTZA T (next - msPerDay)) ∧
  (∀ T', T' = T → getNextRunTime LocalTZA "0 0 * * *" T' = next).
Proof.
  cbv zeta. rewrite daily_value. split; [|split; [|split]].
  - apply first_midnight_after_next_day.
  - intros Hlt.
    replace (Day (LocalTime LocalTZA (round_forward LocalTZA T)))
      with (Day (LocalTime LocalTZA T)).
    + apply first_midnight_after_next_day.
    + rewrite round_forward_eq. euclid.
  - intros Hge.
    replace ((Day (LocalTime LocalTZA (round_forward LocalTZA T)) + 1)
             * msPerDay - LocalTZA - msPerDay)
      with ((Day (LocalTime LocalTZA T) + 1) * msPerDay - LocalTZA).
    + apply first_midnight_after_next_day.
    + rewrite round_forward_eq. euclid.
  - intros T' ->. apply daily_value.
Qed.


End NextRunTime.

(** ** The selection query *)

Section Selection.

Implicit Types (db : gmap ObjectId JobDocument) (d : JobDocument).

Lemma limit_subseteq {A} (n : Z) (l : list A) :
  JobRepository.limit n l ⊆ l.
Proof.
  unfold JobRepository.limit. destruct (n =? 0); [done|].
  intros x Hx. eapply subseteq_take, Hx.
Qed.

Lemma length_limit {A} (n : Z) (l : list A) :
  0 < n → Z.of_nat (length (JobRepository.limit n l)) ≤ n.
Proof.
  intros Hn. unfold JobRepository.limit.
  destruct (n =? 0) eqn:E; [lia|].
  rewrite length_take. lia.
Qed.

Lemma limit_all {A} (n : Z) (l : list A) :
  Z.of_nat (length l) ≤ n → JobRepository.limit n l = l.
Proof.
  intros Hn. unfold JobRepository.limit.
  destruct (n =? 0); [done|]. apply take_ge. lia.
Qed.

(** Every selected job is a stored document that passes the filter. *)
Lemma getPendingJobs_sound now n db (j : Job) :
  j ∈ JobRepository.getPendingJobs now n db →
  db !! id j = Some (fields j) ∧ due now j.
Proof.
  unfold JobRepository.getPendingJobs. intros Hj.
  apply limit_subseteq in Hj.
  rewrite merge_sort_Permutation in Hj.
  apply list_elem_of_filter in Hj as [Hdue Hj].
  apply list_elem_of_fmap in Hj as ([i d] & -> & Hj).
  apply elem_of_map_to_list in Hj. done.
Qed.

(** With room for the whole collection, every stored document that
    passes the filter is selected. *)
Lemma getPendingJobs_complete now n db i d :
  db !! i = Some d → due now d →
  Z.of_nat (size db) ≤ n →
  {| id := i; fields := d |} ∈ JobRepository.getPendingJobs now n db.
Proof.
  intros E Hdue Hn. unfold JobRepository.getPendingJobs.
  rewrite limit_all.
  - rewrite merge_sort_Permutation.
    apply list_elem_of_filter. split; [done|].
    apply list_elem_of_fmap. exists (i, d). split; [done|].
    now apply elem_of_map_to_list.
  - rewrite merge_sort_Permutation.
    etrans; [|exact Hn].
    apply inj_le. etrans; [apply length_filter|].
    rewrite length_fmap. now rewrite length_map_to_list.
Qed.

(** No document is selected twice. *)
Lemma getPendingJobs_NoDup now n db :
  NoDup (id <$> JobRepository.getPendingJobs now n db).
Proof.
  unfold JobRepository.getPendingJobs.
  set (sorted := merge_sort _ _).
  assert (Hs : NoDup (id <$> sorted)).
  { unfold sorted. rewrite merge_sort_Permutation.
    eapply sublist_NoDup; [|apply fmap_sublist, sublist_filter].
    rewrite <- list_fmap_compose.
    apply (NoDup_fst_map_to_list db). }
  unfold JobRepository.limit. destruct (n =? 0); [done|].
  eapply sublist_NoDup; [exact Hs | apply fmap_sublist, sublist_take].
Qed.

(** A job of low priority sorts before a job of high priority,
    whatever their due times. *)
Lemma sort_before_low_high (a b : Job) :
  priority a = LOW → priority b = HIGH →
  JobRepository.sort_before a b = true ∧
  JobRepository.sort_before b a = false.
Proof.
  intros Ha Hb. unfold JobRepository.sort_before.
  rewrite Ha, Hb. split; reflexivity.
Qed.

(** C2. The code at two due pending jobs, one of priority [HIGH] due at
    20 and one of priority [LOW] due at 10: the query with room for one
    job answers the job of priority [LOW], and with room for both it
    puts the job of priority [HIGH] last, because the priorities are
    compared as the strings "low" and "high". *)
Theorem low_priority_is_selected_before_high :
  id <$> JobRepository.getPendingJobs 30 1 two_priorities = ["low-earlier"] ∧
  id <$> JobRepository.getPendingJobs 30 2 two_priorities
  = ["low-earlier"; "high-later"] ∧
  String.compare (JobPriority_value LOW) (JobPriority_value HIGH) = Gt.
Proof.
  split; [|split]; vm_compute; reflexivity.
Qed.

End Selection.

(** ** Dispatch *)

Section Dispatch.

Implicit Types (db : gmap ObjectId JobDocument) (d : JobDocument).
Implicit Types (job : Job) (s : Scheduler) (now : Date).

Lemma updateJobStatus_Some now i st msg db d :
  db !! i = Some d →
  (JobRepository.updateJobStatus now i st msg db).1
  = <[i := JobRepository.status_update now st msg d]> db.
Proof. intros E. unfold JobRepository.updateJobStatus. now rewrite E. Qed.

Lemma do_updateJobStatus_Some now i st msg s d :
  jobRepository s !! i = Some d →
  do_updateJobStatus now i st msg s
  = set_jobRepository
      (<[i := JobRepository.status_update now st msg d]> (jobRepository s)) s.
Proof.
  intros E. unfold do_updateJobStatus.
  now rewrite (updateJobStatus_Some _ _ _ _ _ _ E).
Qed.

Lemma do_updateJobStatus_insert now i st msg s db d :
  do_updateJobStatus now i st msg (set_jobRepository (<[i := d]> db) s)
  = set_jobRepository (<[i := JobRepository.status_update now st msg d]> db) s.
Proof.
  rewrite (do_updateJobStatus_Some now i st msg _ d) by apply lookup_insert_eq.
  cbn [jobRepository set_jobRepository]. now rewrite insert_insert_eq.
Qed.

Lemma do_updateJobStatus_missing now i st msg s :
  jobRepository s !! i = None →
  do_updateJobStatus now i st msg s = set_jobRepository (jobRepository s) s.
Proof.
  intros E. unfold do_updateJobStatus, JobRepository.updateJobStatus.
  now rewrite E.
Qed.

Lemma do_updateJobStatus_repo now i st msg s :
  jobRepository (do_updateJobStatus now i st msg s)
  = alter (JobRepository.status_update now st msg) i (jobRepository s).
Proof.
  unfold do_updateJobStatus. cbn [jobRepository set_jobRepository].
  apply updateJobStatus_alter.
Qed.

Lemma do_updateJobStatus_other now i st msg s k :
  i ≠ k →
  jobRepository (do_updateJobStatus now i st msg s) !! k = jobRepository s !! k.
Proof.
  intros Hne. rewrite do_updateJobStatus_repo. now apply lookup_alter_ne.
Qed.

(** *** The steps of [processJob] up to the call of the handler *)

Lemma processJob_enter_handler now job s :
  (processJob_enter now job s).2 = jobHandlers s !! name job.
Proof.
  unfold processJob_enter, has_id_object.
  now destruct (jobHandlers s !! name job).
Qed.

Lemma processJob_enter_repo now job s :
  jobRepository (processJob_enter now job s).1
  = alter (match jobHandlers s !! name job with
           | Some _ => JobRepository.status_update now RUNNING None
           | None => without_handler now job
           end) (id job) (jobRepository s).
Proof.
  unfold processJob_enter, has_id_object.
  destruct (jobHandlers s !! name job); cbn [fst];
    apply do_updateJobStatus_repo.
Qed.

Lemma processJob_enter_frame now job s :
  let s' := (processJob_enter now job s).1 in
  initialized s' = initialized s ∧
  jobHandlers s' = jobHandlers s ∧
  maxConcurrentJobs s' = maxConcurrentJobs s ∧
  recurringJobRepository s' = recurringJobRepository s ∧
  activeJobs s' = activeJobs s ∧
  emitted s' = emitted s.
Proof.
  unfold processJob_enter, has_id_object.
  now destruct (jobHandlers s !! name job).
Qed.

Lemma processJob_launch_repo job (handler : JobHandler) s :
  jobRepository (processJob_launch job handler s).1
  = alter inc_attempts (id job) (jobRepository s).
Proof.
  unfold processJob_launch.
  cbn [fst jobRepository emit set_jobRepository set_activeJobs].
  apply incrementJobAttempts_alter.
Qed.

Lemma processJob_launch_frame job (handler : JobHandler) s :
  let r := processJob_launch job handler s in
  initialized r.1 = initialized s ∧
  jobHandlers r.1 = jobHandlers s ∧
  maxConcurrentJobs r.1 = maxConcurrentJobs s ∧
  recurringJobRepository r.1 = recurringJobRepository s ∧
  activeJobs r.1 = {[+ id job +]} ⊎ activeJobs s ∧
  emitted r.1
  = emitted s ++ [{| event := JOB_STARTED; event_job := job;
                     event_result := None |}] ∧
  r.2 = handler job.
Proof. done. Qed.

Lemma processJob_start_eq now job s :
  processJob_start now job s
  = match jobHandlers s !! name job with
    | Some handler =>
        let r :=
          processJob_launch job handler (processJob_enter now job s).1 in
        (r.1, Some r.2)
    | None => ((processJob_enter now job s).1, None)
    end.
Proof.
  unfold processJob_start.
  pose proof (processJob_enter_handler now job s) as E.
  destruct (processJob_enter now job s) as [s1 h]. cbn [fst snd] in *.
  subst h. now destruct (jobHandlers s !! name job).
Qed.

Lemma processJob_start_repo now job s :
  jobRepository (processJob_start now job s).1
  = alter (match jobHandlers s !! name job with
           | Some _ => dispatched now
           | None => without_handler now job
           end) (id job) (jobRepository s).
Proof.
  rewrite processJob_start_eq.
  pose proof (processJob_enter_repo now job s) as E.
  destruct (jobHandlers s !! name job) as [handler|]; cbn [fst].
  - rewrite processJob_launch_repo, E, alter_alter_eq. reflexivity.
  - exact E.
Qed.

Lemma processJob_start_other now job s k :
  id job ≠ k →
  jobRepository (processJob_start now job s).1 !! k = jobRepository s !! k.
Proof.
  intros Hne. rewrite processJob_start_repo. now apply lookup_alter_ne.
Qed.

Lemma processJob_start_frame now job s :
  initialized (processJob_start now job s).1 = initialized s ∧
  jobHandlers (processJob_start now job s).1 = jobHandlers s ∧
  maxConcurrentJobs (processJob_start now job s).1 = maxConcurrentJobs s ∧
  recurringJobRepository (processJob_start now job s).1
  = recurringJobRepository s.
Proof.
  rewrite processJob_start_eq.
  pose proof (processJob_enter_frame now job s) as (F1 & F2 & F3 & F4 & _).
  cbv zeta in *.
  destruct (jobHandlers s !! name job) as [handler|]; cbn [fst]; [|done].
  pose proof (processJob_launch_frame job handler
                (processJob_enter now job s).1) as (G1 & G2 & G3 & G4 & _).
  cbv zeta in *. repeat split; congruence.
Qed.

Lemma processJob_start_run now job s :
  (processJob_start now job s).2
  = (λ handler : JobHandler, handler job) <$> jobHandlers s !! name job.
Proof.
  rewrite processJob_start_eq.
  now destruct (jobHandlers s !! name job).
Qed.

Lemma processJob_start_active now job s :
  activeJobs (processJob_start now job s).1
  = match jobHandlers s !! name job with
    | Some _ => {[+ id job +]} ⊎ activeJobs s
    | None => activeJobs s
    end.
Proof.
  rewrite processJob_start_eq.
  pose proof (processJob_enter_frame now job s) as (_ & _ & _ & _ & F5 & _).
  cbv zeta in *.
  destruct (jobHandlers s !! name job) as [handler|]; cbn [fst]; [|done].
  pose proof (processJob_launch_frame job handler
                (processJob_enter now job s).1) as (_ & _ & _ & _ & G5 & _).
  cbv zeta in *. congruence.
Qed.

(** The start of [processJob] for a stored job that has a handler. *)
Lemma processJob_start_launch now job s d (handler : JobHandler) :
  jobHandlers s !! name job = Some handler →
  jobRepository s !! id job = Some d →
  processJob_start now job s
  = (emit JOB_STARTED job None
       (set_jobRepository
          (<[id job := dispatched now d]> (jobRepository s))
          (set_activeJobs ({[+ id job +]} ⊎ activeJobs s) s)),
     Some (handler job)).
Proof.
  intros Hh E. unfold processJob_start, processJob_enter, has_id_object,
    processJob_launch.
  rewrite Hh.
  rewrite (do_updateJobStatus_Some _ _ _ _ _ _ E).
  cbn [jobRepository set_jobRepository set_activeJobs activeJobs].
  unfold JobRepository.incrementJobAttempts.
  rewrite lookup_insert_eq. cbn [fst]. rewrite insert_insert_eq.
  reflexivity.
Qed.

(** *** The pass of [processNextJobs] over the selected jobs *)

Lemma forEach_body_fst now acc job :
  (forEach_body now acc job).1 = (processJob_enter now job acc.1).1.
Proof.
  unfold forEach_body.
  destruct (processJob_enter now job acc.1) as [s1 [h|]]; done.
Qed.

Lemma forEach_body_snd now acc job :
  (forEach_body now acc job).2
  = acc.2 ++ match jobHandlers acc.1 !! name job with
             | Some handler => [(job, handler)]
             | None => []
             end.
Proof.
  unfold forEach_body.
  pose proof (processJob_enter_handler now job acc.1) as E.
  destruct (processJob_enter now job acc.1) as [s1 h]. cbn [snd] in *.
  subst h. destruct (jobHandlers acc.1 !! name job); [done|].
  now rewrite app_nil_r.
Qed.

Lemma forEach_frame now (l : list Job) :
  ∀ acc,
    let s' := (foldl (forEach_body now) acc l).1 in
    initialized s' = initialized acc.1 ∧
    jobHandlers s' = jobHandlers acc.1 ∧
    maxConcurrentJobs s' = maxConcurrentJobs acc.1 ∧
    recurringJobRepository s' = recurringJobRepository acc.1 ∧
    activeJobs s' = activeJobs acc.1 ∧
    emitted s' = emitted acc.1.
Proof.
  induction l as [|job l IH]; intros acc; simpl; [done|].
  destruct (IH (forEach_body now acc job)) as (E1 & E2 & E3 & E4 & E5 & E6).
  rewrite E1, E2, E3, E4, E5, E6, forEach_body_fst.
  apply processJob_enter_frame.
Qed.

(** The jobs that wait after the pass are the selected jobs that have a
    handler. *)
Lemma forEach_entered now (l : list Job) :
  ∀ acc,
    (foldl (forEach_body now) acc l).2
    = acc.2 ++ omap (λ job : Job,
                       (λ handler : JobHandler, (job, handler))
                         <$> jobHandlers acc.1 !! name job) l.
Proof.
  induction l as [|job l IH]; intros acc; cbn [foldl omap list_omap].
  - now rewrite app_nil_r.
  - rewrite IH, forEach_body_snd, forEach_body_fst.
    pose proof (processJob_enter_frame now job acc.1) as (_ & -> & _).
    rewrite <- app_assoc. f_equal.
    now destruct (jobHandlers acc.1 !! name job).
Qed.

Lemma forEach_other now (l : list Job) k :
  ∀ acc,
    (∀ j, j ∈ l → id j ≠ k) →
    jobRepository (foldl (forEach_body now) acc l).1 !! k
    = jobRepository acc.1 !! k.
Proof.
  induction l as [|job l IH]; intros acc Hl; simpl; [done|].
  rewrite IH by (intros j Hj; apply Hl; now right).
  rewrite forEach_body_fst, processJob_enter_repo.
  apply lookup_alter_ne, Hl. now left.
Qed.

(** What one call of [processNextJobs] does: nothing when the active set
    has as many members as the cap allows; else it selects at most as
    many jobs as the cap leaves room for, and hands on those that have a
    handler. It leaves the active set as it finds it. *)
Lemma processNextJobs_spec now s :
  initialized s = true →
  let N := maxConcurrentJobs s in
  let active := Z.of_nat (size (activeJobs s)) in
  ∃ s' entered,
    processNextJobs now s = Ok (s', entered) ∧
    (N ≤ active → s' = s ∧ entered = []) ∧
    (active < N →
       let selected :=
         JobRepository.getPendingJobs now (N - active) (jobRepository s) in
       Z.of_nat (length selected) ≤ N - active ∧
       (s', entered) = foldl (forEach_body now) (s, []) selected ∧
       entered
       = omap (λ job : Job,
                 (λ handler : JobHandler, (job, handler))
                   <$> jobHandlers s !! name job) selected) ∧
    initialized s' = initialized s ∧
    jobHandlers s' = jobHandlers s ∧
    maxConcurrentJobs s' = maxConcurrentJobs s ∧
    recurringJobRepository s' = recurringJobRepository s ∧
    activeJobs s' = activeJobs s ∧
    emitted s' = emitted s.
Proof.
  intros Hinit N active.
  assert (processNextJobs now s
          = if active >=? N then Ok (s, [])
            else Ok (foldl (forEach_body now) (s, [])
                       (JobRepository.getPendingJobs now (N - active)
                          (jobRepository s)))) as ->.
  { unfold processNextJobs, ensureInitialized. rewrite Hinit. reflexivity. }
  destruct (Z.geb_spec active N) as [Hge|Hlt].
  - exists s, []. split; [reflexivity|]. split; [done|].
    split; [lia | done].
  - set (selected := JobRepository.getPendingJobs now (N - active)
                       (jobRepository s)).
    pose proof (forEach_frame now selected (s, [])) as HF.
    pose proof (forEach_entered now selected (s, [])) as HE.
    cbv zeta in HF. cbn [fst snd app] in HF, HE.
    destruct (foldl (forEach_body now) (s, []) selected)
      as [s' entered] eqn:EF.
    cbn [fst snd] in *.
    exists s', entered. split; [reflexivity|]. split; [lia|].
    split; [|exact HF].
    intros _. cbv zeta. fold selected.
    split; [apply length_limit; lia|]. split; [now rewrite EF | exact HE].
Qed.

(** *** The jobs that go on to their handlers *)

Lemma launch_spec (entered : list (Job * JobHandler)) :
  ∀ s acc,
    let r :=
      foldl (λ (acc : Scheduler * list (Job * HandlerRun))
               (jh : Job * JobHandler),
               let '(s, run) := processJob_launch jh.1 jh.2 acc.1 in
               (s, acc.2 ++ [(jh.1, run)]))
            (s, acc) entered in
    r.2 = acc ++ ((λ jh : Job * JobHandler, (jh.1, jh.2 jh.1)) <$> entered) ∧
    jobRepository r.1
    = foldr (λ (jh : Job * JobHandler) db, alter inc_attempts (id jh.1) db)
            (jobRepository s) (reverse entered) ∧
    activeJobs r.1 = list_to_set_disj (id <$> entered.*1) ⊎ activeJobs s ∧
    initialized r.1 = initialized s ∧
    jobHandlers r.1 = jobHandlers s ∧
    maxConcurrentJobs r.1 = maxConcurrentJobs s ∧
    recurringJobRepository r.1 = recurringJobRepository s.
Proof.
  induction entered as [|[job handler] entered IH]; intros s acc.
  - cbn [foldl fst snd fmap list_fmap]. rewrite app_nil_r.
    split; [done|]. split; [done|].
    split; [multiset_solver | done].
  - cbn [foldl fst snd].
    destruct (IH (processJob_launch job handler s).1
                (acc ++ [(job, handler job)]))
      as (E1 & E2 & E3 & E4 & E5 & E6 & E7).
    cbv zeta in *. cbn [processJob_launch fst snd] in *.
    rewrite E1, E2, E3, E4, E5, E6, E7.
    cbn [jobRepository emit set_jobRepository set_activeJobs activeJobs
         initialized jobHandlers maxConcurrentJobs recurringJobRepository].
    split; [now rewrite <- app_assoc|].
    split.
    { rewrite reverse_cons, foldr_app. cbn [foldr fst].
      now rewrite incrementJobAttempts_alter. }
    split; [|done].
    rewrite !fmap_cons. cbn [fst list_to_set_disj]. multiset_solver.
Qed.

(** C3. The two tests of the active set do not keep what their comments
    promise. First run: a job whose handler reports a failure is made
    pending for its retry while its id object is still in the active
    set; the next [processNextJobs] selects it, the test of [processJob]
    finds no identical object, and the job is handed to its handler a
    second time, its id twice in the set. Second run: with the cap 1 and
    two due jobs, two calls of [processNextJobs] in a row each find the
    active set empty, because an id joins the set only after the first
    [await] of [processJob]; each selects one job, and two jobs are
    active under the cap 1. *)
Theorem active_job_is_started_again :
  (let job := flaky_job 2 in
   ∃ s1 s2 run retrying s4 job' s5 inflight,
     processNextJobs 1000 retrying_scheduler
     = Ok (s1, [(job, reports_failure)]) ∧
     launch [(job, reports_failure)] s1 = (s2, [(job, run)]) ∧
     activeJobs s2 = {[+ "job-1" +]} ∧
     race job run = inl {| success := false; error := Some "boom" |} ∧
     retrying
     = do_updateJobStatus 2000 "job-1" PENDING None
         (do_updateJobStatus 2000 "job-1" FAILED (Some "boom") s2) ∧
     processJob_settle 2000 job run s2
     = emit JOB_FAILED job
         (Some {| success := false; error := Some "boom" |})
         (do_updateJobStatus 2000 "job-1" PENDING None retrying) ∧
     "job-1" ∈ activeJobs retrying ∧
     processNextJobs 2000 retrying = Ok (s4, [(job', reports_failure)]) ∧
     id job' = "job-1" ∧
     launch [(job', reports_failure)] s4 = (s5, inflight) ∧
     length inflight = 1%nat ∧
     activeJobs s5 = {[+ "job-1" +]} ⊎ {[+ "job-1" +]}) ∧
  (∃ s1 entered1 s2 entered2 s3 inflight,
     maxConcurrentJobs narrow_scheduler = 1 ∧
     processNextJobs 1000 narrow_scheduler = Ok (s1, entered1) ∧
     id <$> entered1.*1 = ["job-1"] ∧
     activeJobs s1 = ∅ ∧
     processNextJobs 1000 s1 = Ok (s2, entered2) ∧
     id <$> entered2.*1 = ["job-2"] ∧
     launch (entered1 ++ entered2) s2 = (s3, inflight) ∧
     length inflight = 2%nat ∧
     activeJobs s3 = {[+ "job-1" +]} ⊎ {[+ "job-2" +]} ∧
     size (activeJobs s3) = 2%nat ∧
     maxConcurrentJobs s3 = 1).
Proof.
  split.
  - cbv zeta. eexists _, _, _, _, _, _, _, _.
    split; [vm_compute; reflexivity|].
    split; [vm_compute; reflexivity|].
    split; [vm_compute; reflexivity|].
    split; [reflexivity|].
    split; [reflexivity|].
    split; [vm_compute; reflexivity|].
    split; [apply (bool_decide_eq_true_1 _); vm_compute; reflexivity|].
    split; [vm_compute; reflexivity|].
    split; [reflexivity|].
    split; [vm_compute; reflexivity|].
    split; [reflexivity|].
    vm_compute. reflexivity.
  - eexists _, _, _, _, _, _.
    split; [reflexivity|].
    split; [vm_compute; reflexivity|].
    split; [reflexivity|].
    split; [vm_compute; reflexivity|].
    split; [vm_compute; reflexivity|].
    split; [reflexivity|].
    split; [vm_compute; reflexivity|].
    split; [reflexivity|].
    split; [vm_compute; reflexivity|].
    split; [vm_compute; reflexivity|].
    vm_compute. reflexivity.
Qed.

End Dispatch.

(** ** Outcomes *)

Section Outcome.

Implicit Types (db : gmap ObjectId JobDocument) (d : JobDocument).
Implicit Types (job : Job) (s : Scheduler) (now : Date).

Lemma failed_fields now msg d :
  let failed := JobRepository.status_update now FAILED (Some msg) d in
  status failed = FAILED ∧ attempts failed = attempts d ∧
  maxRetries failed = maxRetries d ∧ scheduledAt failed = scheduledAt d.
Proof.
  unfold JobRepository.status_update. destruct (truthy (Some msg)); done.
Qed.

Lemma processJob_settle_failure now job run s d msg :
  jobRepository s !! id job = Some d →
  failure_message job run = Some msg →
  processJob_settle now job run s
  = emit JOB_FAILED job
      (Some match race job run with
            | inl result => result
            | inr _ => {| success := false; error := Some msg |}
            end)
      (set_jobRepository
         (<[id job := after_failure now msg d]> (jobRepository s)) s).
Proof.
  intros E Hmsg. unfold failure_message in Hmsg.
  pose proof (failed_fields now msg d) as (Hst & Hatt & Hmax & _).
  cbv zeta in *.
  unfold processJob_settle, after_failure.
  destruct (race job run) as [result|thrown].
  - destruct (success result) eqn:Es; [discriminate|].
    injection Hmsg as <-.
    replace (match error result with
             | Some message => message
             | None => "Job failed without error details"
             end)
      with (default "Job failed without error details" (error result))
      by (now destruct (error result)).
    set (msg := default "Job failed without error details" (error result))
      in *.
    rewrite (do_updateJobStatus_Some _ _ _ _ _ _ E).
    cbn [jobRepository set_jobRepository].
    rewrite (getJobById_Some _ _ _ (lookup_insert_eq _ _ _)).
    cbn [id fields]. rewrite Hatt, Hmax.
    destruct (attempts d <? maxRetries d).
    + rewrite !do_updateJobStatus_insert. reflexivity.
    + reflexivity.
  - assert (Em : match thrown with
                 | ErrorObject message => message
                 | OtherValue => "Unknown error"
                 end = msg)
      by (destruct thrown; congruence).
    rewrite Em.
    rewrite (do_updateJobStatus_Some _ _ _ _ _ _ E).
    cbn [jobRepository set_jobRepository].
    rewrite (getJobById_Some _ _ _ (lookup_insert_eq _ _ _)).
    cbn [id fields]. rewrite Hatt, Hmax.
    destruct (attempts d <? maxRetries d).
    + rewrite !do_updateJobStatus_insert. reflexivity.
    + reflexivity.
Qed.

Lemma processJob_finish_failure now job run s d msg :
  jobRepository s !! id job = Some d →
  failure_message job run = Some msg →
  processJob_finish now job run s
  = set_activeJobs (activeJobs s ∖ {[+ id job +]})
      (emit JOB_FAILED job
         (Some match race job run with
               | inl result => result
               | inr _ => {| success := false; error := Some msg |}
               end)
         (set_jobRepository
            (<[id job := after_failure now msg d]> (jobRepository s)) s)).
Proof.
  intros E Hmsg. unfold processJob_finish.
  now rewrite (processJob_settle_failure _ _ _ _ _ _ E Hmsg).
Qed.

Lemma getJobById_id (i : ObjectId) db u :
  JobRepository.getJobById i db = Ok (Some u) → id u = i.
Proof.
  unfold JobRepository.getJobById, JobRepository.findById.
  destruct (db !! i); simpl; [|done]. now intros [= <-].
Qed.

Lemma processJob_settle_other now job run s k :
  id job ≠ k →
  jobRepository (processJob_settle now job run s) !! k = jobRepository s !! k.
Proof.
  intros Hne. unfold processJob_settle.
  destruct (race job run) as [result|thrown].
  - destruct (success result).
    + cbn [jobRepository emit]. now apply do_updateJobStatus_other.
    + cbn [jobRepository emit].
      match goal with
      | |- context [JobRepository.getJobById (Id (id job)) (jobRepository ?s0)] =>
          destruct (JobRepository.getJobById (Id (id job)) (jobRepository s0))
            as [[u|]|] eqn:Eu
      end.
      * apply getJobById_id in Eu. destruct (attempts u <? maxRetries u).
        -- rewrite Eu. rewrite !do_updateJobStatus_other by done. done.
        -- now apply do_updateJobStatus_other.
      * now apply do_updateJobStatus_other.
      * now apply do_updateJobStatus_other.
  - cbn [jobRepository emit].
    match goal with
    | |- context [JobRepository.getJobById (Id (id job)) (jobRepository ?s0)] =>
        destruct (JobRepository.getJobById (Id (id job)) (jobRepository s0))
          as [[u|]|] eqn:Eu
    end.
    + apply getJobById_id in Eu. destruct (attempts u <? maxRetries u).
      * rewrite Eu. rewrite !do_updateJobStatus_other by done. done.
      * now apply do_updateJobStatus_other.
    + now apply do_updateJobStatus_other.
    + now apply do_updateJobStatus_other.
Qed.

Lemma processJob_finish_other now job run s k :
  id job ≠ k →
  jobRepository (processJob_finish now job run s) !! k = jobRepository s !! k.
Proof.
  intros Hne. unfold processJob_finish, processJob_finally.
  cbn [jobRepository set_activeJobs]. now apply processJob_settle_other.
Qed.

Lemma processJob_settle_frame now job run s :
  initialized (processJob_settle now job run s) = initialized s ∧
  jobHandlers (processJob_settle now job run s) = jobHandlers s ∧
  maxConcurrentJobs (processJob_settle now job run s) = maxConcurrentJobs s ∧
  recurringJobRepository (processJob_settle now job run s)
  = recurringJobRepository s ∧
  activeJobs (processJob_settle now job run s) = activeJobs s.
Proof.
  unfold processJob_settle.
  destruct (race job run) as [result|thrown].
  - destruct (success result); [done|].
    cbv zeta.
    match goal with
    | |- context [JobRepository.getJobById ?i ?db] =>
        destruct (JobRepository.getJobById i db) as [[u|]|]
    end; [|done|done].
    destruct (attempts u <? maxRetries u); done.
  - cbv zeta.
    match goal with
    | |- context [JobRepository.getJobById ?i ?db] =>
        destruct (JobRepository.getJobById i db) as [[u|]|]
    end; [|done|done].
    destruct (attempts u <? maxRetries u); done.
Qed.

Lemma processJob_finish_frame now job run s :
  initialized (processJob_finish now job run s) = initialized s ∧
  jobHandlers (processJob_finish now job run s) = jobHandlers s ∧
  maxConcurrentJobs (processJob_finish now job run s) = maxConcurrentJobs s ∧
  recurringJobRepository (processJob_finish now job run s)
  = recurringJobRepository s.
Proof.
  unfold processJob_finish, processJob_finally.
  pose proof (processJob_settle_frame now job run s) as (F1 & F2 & F3 & F4 & _).
  done.
Qed.

Lemma processJob_finish_active now job run s :
  activeJobs (processJob_finish now job run s)
  = activeJobs s ∖ {[+ id job +]}.
Proof.
  unfold processJob_finish, processJob_finally.
  pose proof (processJob_settle_frame now job run s) as (_ & _ & _ & _ & F5).
  cbn [activeJobs set_activeJobs]. now rewrite F5.
Qed.

Lemma launch_other (entered : list (Job * JobHandler)) s k :
  (∀ j, j ∈ entered.*1 → id j ≠ k) →
  jobRepository (launch entered s).1 !! k = jobRepository s !! k ∧
  initialized (launch entered s).1 = initialized s.
Proof.
  intros Hl. unfold launch.
  destruct (launch_spec entered s []) as (_ & E2 & _ & E4 & _).
  cbv zeta in *. rewrite E2, E4. split; [|done].
  assert (Hr : ∀ jh, jh ∈ reverse entered → id jh.1 ≠ k).
  { intros jh Hjh. apply Hl, list_elem_of_fmap_2.
    now apply elem_of_reverse. }
  clear Hl E2 E4. induction (reverse entered) as [|jh l IH]; [done|].
  cbn [foldr]. rewrite lookup_alter_ne by (apply Hr; now left).
  apply IH. intros jh' Hjh'. apply Hr. now right.
Qed.

Lemma settle_other later (l : list (Job * HandlerRun)) k :
  ∀ s,
    (∀ j, j ∈ l.*1 → id j ≠ k) →
    jobRepository (settle later l s) !! k = jobRepository s !! k ∧
    initialized (settle later l s) = initialized s.
Proof.
  unfold settle.
  induction l as [|[job run] l IH]; intros s Hl; simpl; [done|].
  destruct (IH (processJob_finish later job run s)) as [E1 E2].
  { intros j Hj. apply Hl. simpl. now right. }
  rewrite E1, E2. split.
  - apply processJob_finish_other, Hl. simpl. now left.
  - apply processJob_finish_frame.
Qed.

Lemma spawn_other now fresh r nextRunTime s k :
  fresh r ≠ k →
  jobRepository (spawn now fresh r nextRunTime s).1 !! k
  = jobRepository s !! k ∧
  initialized (spawn now fresh r nextRunTime s).1 = initialized s.
Proof.
  intros Hfresh. unfold spawn.
  destruct (stored_payload (r_data r)) as [data|]; [|done].
  destruct (RecurringJobRepository.updateLastExecutedAt _ _ _) as [[db o]|];
    cbn; now rewrite lookup_insert_ne.
Qed.

Lemma checkRecurringJob_other tz now fresh s r k :
  fresh r ≠ k →
  jobRepository (checkRecurringJob tz now fresh s r) !! k
  = jobRepository s !! k ∧
  initialized (checkRecurringJob tz now fresh s r) = initialized s.
Proof.
  intros Hfresh. unfold checkRecurringJob.
  destruct (r_lastExecutedAt r) as [last|].
  - destruct (getNextRunTime tz (r_cronExpression r) last <=? now); [|done].
    now apply spawn_other.
  - now apply spawn_other.
Qed.

Lemma checkRecurringJobs_other tz now fresh s k :
  (∀ r, fresh r ≠ k) →
  jobRepository (checkRecurringJobs tz now fresh s) !! k
  = jobRepository s !! k ∧
  initialized (checkRecurringJobs tz now fresh s) = initialized s.
Proof.
  intros Hfresh. unfold checkRecurringJobs.
  generalize (RecurringJobRepository.getActiveRecurringJobs
                (recurringJobRepository s)).
  intros l. revert s.
  induction l as [|r l IH]; intros s; simpl; [done|].
  destruct (IH (checkRecurringJob tz now fresh s r)) as [E1 E2].
  rewrite E1, E2. now apply checkRecurringJob_other.
Qed.

Lemma entered_selected (handlers : gmap string JobHandler) (l : list Job) j :
  j ∈ (omap (λ job : Job,
               (λ handler : JobHandler, (job, handler))
                 <$> handlers !! name job) l).*1 →
  j ∈ l.
Proof.
  intros Hj. apply list_elem_of_fmap in Hj as ([j' h] & -> & Hj).
  apply list_elem_of_omap in Hj as (job & Hjob & E).
  destruct (handlers !! name job); [|done].
  cbn in E. now injection E as <- <-.
Qed.

Lemma tick_keeps tz now later fresh s k d :
  initialized s = true →
  jobRepository s !! k = Some d →
  status d ≠ PENDING →
  (∀ r, fresh r ≠ k) →
  ∃ s', tick tz now later fresh s = Ok s' ∧
        initialized s' = true ∧
        jobRepository s' !! k = Some d.
Proof.
  intros Hinit E Hst Hfresh. unfold tick.
  destruct (checkRecurringJobs_other tz now fresh s k Hfresh) as [E1 E2].
  set (s1 := checkRecurringJobs tz now fresh s) in *.
  rewrite E in E1. rewrite Hinit in E2.
  destruct (processNextJobs_spec now s1 E2)
    as (s2 & entered & -> & Hfull & Hroom & Hinit2 & _).
  cbv zeta in Hroom.
  assert (jobRepository s2 !! k = Some d ∧
          ∀ j, j ∈ entered.*1 → id j ≠ k) as [E3 Hp].
  { destruct (Z.lt_ge_cases (Z.of_nat (size (activeJobs s1)))
                (maxConcurrentJobs s1)) as [Hlt|Hge].
    - destruct (Hroom Hlt) as (_ & EF & ->).
      set (pendingJobs := JobRepository.getPendingJobs now _ _) in *.
      assert (Hp : ∀ j, j ∈ pendingJobs → id j ≠ k).
      { intros j Hj Hk. apply getPendingJobs_sound in Hj as [Hj [Hdue _]].
        rewrite Hk, E1 in Hj. injection Hj as ->. done. }
      split.
      + pose proof (forEach_other now pendingJobs k (s1, []) Hp) as E3.
        rewrite <- EF in E3. cbn [fst] in E3. congruence.
      + intros j Hj. apply Hp. eapply entered_selected, Hj.
    - destruct (Hfull Hge) as [-> ->]. split; [done|].
      intros j Hj. cbn in Hj. now apply elem_of_nil in Hj. }
  destruct (launch_other entered s2 k Hp) as [E4 E5].
  pose proof (launch_spec entered s2 []) as (EL & _).
  cbv zeta in EL. fold (launch entered s2) in EL. cbn [app] in EL.
  destruct (launch entered s2) as [s3 inflight]. cbn [fst snd] in *.
  destruct (settle_other later inflight k s3) as [E6 E7].
  { intros j Hj. apply Hp. subst inflight.
    rewrite <- list_fmap_compose in Hj. exact Hj. }
  eexists. split; [reflexivity|]. split; congruence.
Qed.

Lemma ticks_keep tz clock fresh k d n :
  ∀ from s,
    initialized s = true →
    jobRepository s !! k = Some d →
    status d ≠ PENDING →
    (∀ i r, fresh i r ≠ k) →
    ∃ s', ticks tz clock fresh from n s = Ok s' ∧
          initialized s' = true ∧
          jobRepository s' !! k = Some d.
Proof.
  induction n as [|n IH]; intros from s Hinit E Hst Hfresh; simpl.
  - exists s. done.
  - destruct (tick_keeps tz (clock from) (clock from) (fresh from) s k d)
      as (s1 & -> & Hinit1 & E1); auto.
Qed.

End Outcome.

(** ** Failure, retry and the missing handler *)

Section RetryPolicy.

Implicit Types (db : gmap ObjectId JobDocument) (d : JobDocument).

Lemma after_failure_fields now msg d :
  let d' := after_failure now msg d in
  name d' = name d ∧ data d' = data d ∧
  scheduledAt d' = scheduledAt d ∧ executedAt d' = executedAt d ∧
  completedAt d' = completedAt d ∧ attempts d' = attempts d ∧
  userId d' = userId d ∧ priority d' = priority d ∧
  maxRetries d' = maxRetries d ∧ retryDelay d' = retryDelay d ∧
  timeout d' = timeout d ∧
  status d' = (if attempts d <? maxRetries d then PENDING else FAILED) ∧
  errorMessage d' = (if truthy (Some msg) then Some msg else errorMessage d).
Proof.
  unfold after_failure, JobRepository.status_update.
  destruct (attempts d <? maxRetries d), (truthy (Some msg)); done.
Qed.

(** A document that is not pending is never selected. *)
Lemma not_pending_not_selected now n db i d :
  db !! i = Some d → status d ≠ PENDING →
  i ∉ id <$> JobRepository.getPendingJobs now n db.
Proof.
  intros E Hst Hin. apply list_elem_of_fmap in Hin as (j & -> & Hj).
  apply getPendingJobs_sound in Hj as [Hj [Hp _]].
  rewrite E in Hj. injection Hj as ->. done.
Qed.

(** C1. When an execution attempt of a job fails, with [attempts] and
    [maxRetries] read from the store at that moment: if [attempts <
    maxRetries] the job is pending again; if [attempts >= maxRetries] it
    is failed, no query selects it and no later firing of the scheduler
    changes it. A job whose handler always throws and whose [maxRetries]
    is 1 is failed for good after one firing, with one attempt recorded;
    with [maxRetries] 2 it is pending with one attempt after one firing
    and failed for good after two, with two attempts recorded. *)
Theorem failure_retry_policy :
  (∀ (now : Date) (job : Job) (run : HandlerRun) (s : Scheduler)
     (d : JobDocument) (msg : string),
     jobRepository s !! id job = Some d →
     failure_message job run = Some msg →
     let s' := processJob_finish now job run s in
     ∃ d',
       jobRepository s' !! id job = Some d' ∧
       attempts d' = attempts d ∧
       maxRetries d' = maxRetries d ∧
       (attempts d < maxRetries d → status d' = PENDING) ∧
       (maxRetries d ≤ attempts d →
          status d' = FAILED ∧
          (∀ now' n,
             id job ∉ id <$> JobRepository.getPendingJobs now' n
                               (jobRepository s')) ∧
          (∀ tz clock fresh from n s1,
             initialized s1 = true →
             jobRepository s1 !! id job = Some d' →
             (∀ i r, fresh i r ≠ id job) →
             ∃ s2, ticks tz clock fresh from n s1 = Ok s2 ∧
                   jobRepository s2 !! id job = Some d'))) ∧
  (∀ tz, ∃ s1 d1,
     ticks tz every_minute spawned_ids 0 1 (scheduler_of (flaky_scheduler 1))
     = Ok s1 ∧
     jobRepository s1 !! "job-1" = Some d1 ∧
     status d1 = FAILED ∧ attempts d1 = 1 ∧
     ∀ clock fresh from n,
       (∀ i r, fresh i r ≠ "job-1") →
       ∃ s2, ticks tz clock fresh from n s1 = Ok s2 ∧
             jobRepository s2 !! "job-1" = Some d1) ∧
  (∀ tz, ∃ s1 d1 s2 d2,
     ticks tz every_minute spawned_ids 0 1 (scheduler_of (flaky_scheduler 2))
     = Ok s1 ∧
     jobRepository s1 !! "job-1" = Some d1 ∧
     status d1 = PENDING ∧ attempts d1 = 1 ∧
     ticks tz every_minute spawned_ids 0 2 (scheduler_of (flaky_scheduler 2))
     = Ok s2 ∧
     jobRepository s2 !! "job-1" = Some d2 ∧
     status d2 = FAILED ∧ attempts d2 = 2 ∧
     ∀ clock fresh from n,
       (∀ i r, fresh i r ≠ "job-1") →
       ∃ s3, ticks tz clock fresh from n s2 = Ok s3 ∧
             jobRepository s3 !! "job-1" = Some d2).
Proof.
  split; [|split].
  - intros now job run s d msg E Hmsg. cbv zeta.
    rewrite (processJob_finish_failure _ _ _ _ _ _ E Hmsg).
    cbn [jobRepository set_activeJobs emit set_jobRepository].
    pose proof (after_failure_fields now msg d) as Hf. cbv zeta in Hf.
    destruct Hf as (_ & _ & _ & _ & _ & Hatt & _ & _ & Hmax & _ & _ & Hst & _).
    exists (after_failure now msg d). rewrite lookup_insert_eq.
    split; [done|]. split; [done|]. split; [done|]. split.
    + intros Hlt. rewrite Hst.
      now destruct (Z.ltb_spec (attempts d) (maxRetries d)); [|lia].
    + intros Hge.
      assert (Hfailed : status (after_failure now msg d) = FAILED).
      { rewrite Hst.
        now destruct (Z.ltb_spec (attempts d) (maxRetries d)); [lia|]. }
      split; [done|]. split.
      * intros now' n. eapply not_pending_not_selected.
        -- apply lookup_insert_eq.
        -- congruence.
      * intros tz clock fresh from n s1 Hinit E1 Hfresh.
        destruct (ticks_keep tz clock fresh (id job)
                    (after_failure now msg d) n from s1)
          as (s2 & Hs2 & _ & E2); auto; [congruence|]. eauto.
  - intros tz. eexists _, _.
    split; [vm_compute; reflexivity|].
    split; [vm_compute; reflexivity|].
    split; [reflexivity|]. split; [reflexivity|].
    intros clock fresh from n Hfresh.
    match goal with
    | |- ∃ s2, ticks _ _ _ _ _ ?s1 = _ ∧ _ !! ?k = Some ?d1 =>
        destruct (ticks_keep tz clock fresh k d1 n from s1)
          as (s2 & Hs2 & _ & E2);
          [reflexivity | vm_compute; reflexivity | discriminate
          | exact Hfresh | ]
    end.
    eauto.
  - intros tz. eexists _, _, _, _.
    split; [vm_compute; reflexivity|].
    split; [vm_compute; reflexivity|].
    split; [reflexivity|]. split; [reflexivity|].
    split; [vm_compute; reflexivity|].
    split; [vm_compute; reflexivity|].
    split; [reflexivity|]. split; [reflexivity|].
    intros clock fresh from n Hfresh.
    match goal with
    | |- ∃ s3, ticks _ _ _ _ _ ?s2 = _ ∧ _ !! ?k = Some ?d2 =>
        destruct (ticks_keep tz clock fresh k d2 n from s2)
          as (s3 & Hs3 & _ & E3);
          [reflexivity | vm_compute; reflexivity | discriminate
          | exact Hfresh | ]
    end.
    eauto.
Qed.

(** C4. On an automatic retry the store gets the failed document with
    its status set to [PENDING] and nothing else changed: [scheduledAt]
    and all other fields are those of the failed document, no other
    document is touched, and the retry instant [now + retryDelay] is
    not stored. A job that was due stays due, so a query with room for
    it selects it at once; its due time is before the retry instant. *)
Theorem retry_rewrites_status_only (now : Date) (job : Job)
    (run : HandlerRun) (s : Scheduler) (d : JobDocument) (msg : string) :
  jobRepository s !! id job = Some d →
  failure_message job run = Some msg →
  attempts d < maxRetries d →
  let s' := processJob_finish now job run s in
  let failed := JobRepository.status_update now FAILED (Some msg) d in
  let retried := set_status PENDING failed in
  let retryTime := now + retryDelay d in
  jobRepository s' = <[id job := retried]> (jobRepository s) ∧
  status retried = PENDING ∧
  (name retried = name failed ∧ data retried = data failed ∧
   scheduledAt retried = scheduledAt failed ∧
   executedAt retried = executedAt failed ∧
   completedAt retried = completedAt failed ∧
   errorMessage retried = errorMessage failed ∧
   attempts retried = attempts failed ∧ userId retried = userId failed ∧
   priority retried = priority failed ∧
   maxRetries retried = maxRetries failed ∧
   retryDelay retried = retryDelay failed ∧
   timeout retried = timeout failed) ∧
  scheduledAt retried = scheduledAt d ∧
  (scheduledAt d ≤ now → 0 < retryDelay d →
     scheduledAt retried < retryTime) ∧
  (∀ now' n,
     scheduledAt d ≤ now' →
     Z.of_nat (size (jobRepository s')) ≤ n →
     {| id := id job; fields := retried |}
     ∈ JobRepository.getPendingJobs now' n (jobRepository s')).
Proof.
  intros E Hmsg Hlt. cbv zeta.
  rewrite (processJob_finish_failure _ _ _ _ _ _ E Hmsg).
  cbn [jobRepository set_activeJobs emit set_jobRepository].
  unfold after_failure.
  destruct (Z.ltb_spec (attempts d) (maxRetries d)) as [_|]; [|lia].
  pose proof (failed_fields now msg d) as (_ & _ & _ & Hsched).
  split; [done|]. split; [done|]. split; [done|].
  split; [exact Hsched|]. split.
  - intros Hdue Hdelay. cbn [scheduledAt set_status]. lia.
  - intros now' n Hdue Hn. apply getPendingJobs_complete.
    + apply lookup_insert_eq.
    + split; [done|]. cbn [scheduledAt set_status]. lia.
    + exact Hn.
Qed.

Lemma without_handler_eq now job d :
  without_handler now job d
  = set_errorMessage ("No handler registered for job type: " +:+ name job)
      (set_status FAILED d).
Proof. reflexivity. Qed.

(** C5. A job that is started while no handler is registered for its
    name is marked [FAILED] with the message "No handler registered for
    job type: " followed by the name. Nothing else happens: [attempts]
    is not incremented, the job does not enter the active set, no event
    is emitted, and no retry is made whatever [attempts] and
    [maxRetries] are, so that no query selects the job afterwards. *)
Theorem missing_handler_fails_without_attempt (now later : Date)
    (job : Job) (s : Scheduler) (d : JobDocument) :
  id job ∉ activeJobs s →
  jobHandlers s !! name job = None →
  jobRepository s !! id job = Some d →
  let s' := processJob now later job s in
  let d' := without_handler now job d in
  processJob_start now job s = (s', None) ∧
  jobRepository s' = <[id job := d']> (jobRepository s) ∧
  status d' = FAILED ∧
  errorMessage d'
  = Some ("No handler registered for job type: " +:+ name job) ∧
  attempts d' = attempts d ∧
  scheduledAt d' = scheduledAt d ∧
  activeJobs s' = activeJobs s ∧
  emitted s' = emitted s ∧
  (∀ now' n,
     id job ∉ id <$> JobRepository.getPendingJobs now' n (jobRepository s')).
Proof.
  intros Hact Hh E. cbv zeta.
  unfold processJob, processJob_start, processJob_enter, has_id_object.
  rewrite Hh.
  rewrite (do_updateJobStatus_Some _ _ _ _ _ _ E).
  fold (without_handler now job d).
  split; [done|]. split; [done|].
  rewrite without_handler_eq.
  split; [done|]. split; [done|]. split; [done|]. split; [done|].
  split; [done|]. split; [done|].
  intros now' n. eapply not_pending_not_selected.
  - cbn [jobRepository set_jobRepository]. apply lookup_insert_eq.
  - discriminate.
Qed.

End RetryPolicy.

(** * Further properties *)

(** ** One execution of a job *)

Section Execution.

Implicit Types (db : gmap ObjectId JobDocument) (d : JobDocument).

(** The end of [processJob] after a reported success. *)
Lemma processJob_finish_success now job run s d result :
  jobRepository s !! id job = Some d →
  race job run = inl result →
  success result = true →
  processJob_finish now job run s
  = set_activeJobs (activeJobs s ∖ {[+ id job +]})
      (emit JOB_COMPLETED job (Some result)
         (set_jobRepository
            (<[id job := completed now d]> (jobRepository s)) s)).
Proof.
  intros E Hr Hs. unfold processJob_finish, processJob_settle.
  rewrite Hr, Hs.
  now rewrite (do_updateJobStatus_Some _ _ _ _ _ _ E).
Qed.

(** X1. [processJob] records exactly one attempt for a job that it hands to
    a handler: whatever the handler does, the stored document afterwards has
    one more attempt, the start stamp [now] and the fields of the job as
    they were; the id is out of the active set again and all other ids of
    the active set and all other documents are as before. *)
Theorem processJob_records_one_attempt (now later : Date) (job : Job)
    (s : Scheduler) (d : JobDocument) (handler : JobHandler) :
  id job ∉ activeJobs s →
  jobHandlers s !! name job = Some handler →
  jobRepository s !! id job = Some d →
  let s' := processJob now later job s in
  ∃ d',
    jobRepository s' !! id job = Some d' ∧
    attempts d' = attempts d + 1 ∧
    executedAt d' = Some now ∧
    same_job d d' ∧
    status d' ≠ RUNNING ∧
    activeJobs s' = activeJobs s ∧
    ∀ k, k ≠ id job → jobRepository s' !! k = jobRepository s !! k.
Proof.
  intros Hact Hh E. cbv zeta. unfold processJob.
  rewrite (processJob_start_launch _ _ _ _ _ Hh E).
  set (s1 := emit JOB_STARTED job None _).
  assert (E1 : jobRepository s1 !! id job = Some (dispatched now d))
    by apply lookup_insert_eq.
  assert (Hother : ∀ k, k ≠ id job →
            jobRepository (processJob_finish later job (handler job) s1) !! k
            = jobRepository s !! k).
  { intros k Hk. rewrite processJob_finish_other by done.
    unfold s1. cbn [jobRepository emit set_jobRepository].
    now rewrite lookup_insert_ne. }
  assert (Hactive : activeJobs (processJob_finish later job (handler job) s1)
                    = activeJobs s).
  { rewrite processJob_finish_active. unfold s1.
    cbn [activeJobs emit set_jobRepository set_activeJobs].
    multiset_solver. }
  destruct (failure_message job (handler job)) as [msg|] eqn:Hmsg.
  - rewrite (processJob_finish_failure _ _ _ _ _ _ E1 Hmsg) in *.
    cbn [jobRepository set_activeJobs emit set_jobRepository] in *.
    exists (after_failure later msg (dispatched now d)).
    rewrite lookup_insert_eq.
    pose proof (after_failure_fields later msg (dispatched now d)) as Hf.
    cbv zeta in Hf.
    destruct Hf as (F1 & F2 & F3 & F4 & F5 & F6 & F7 & F8 & F9 & F10 & F11
                    & F12 & _).
    split; [done|]. split; [now rewrite F6|]. split; [now rewrite F4|].
    split; [unfold same_job; rewrite F1, F2, F3, F6, F7, F8, F9, F10, F11;
            cbn; repeat split; lia|].
    split; [rewrite F12; now destruct (_ <? _)|].
    split; [exact Hactive | exact Hother].
  - unfold failure_message in Hmsg.
    destruct (race job (handler job)) as [result|thrown] eqn:Hr;
      [|now destruct thrown].
    destruct (success result) eqn:Hs; [|discriminate].
    rewrite (processJob_finish_success _ _ _ _ _ _ E1 Hr Hs) in *.
    cbn [jobRepository set_activeJobs emit set_jobRepository] in *.
    exists (completed later (dispatched now d)). rewrite lookup_insert_eq.
    split; [done|]. split; [done|]. split; [done|].
    split; [unfold same_job; cbn; repeat split; lia|].
    split; [discriminate|]. split; [exact Hactive | exact Hother].
Qed.

(** X2. The events of one execution: [JOB_STARTED] and then either
    [JOB_COMPLETED] or [JOB_FAILED], nothing else; an automatic retry emits
    no event of its own. Every event carries the job as it was selected, not
    the stored document: its status is the one before the start and its
    attempts are not yet counted. *)
Theorem processJob_emits_start_and_outcome (now later : Date) (job : Job)
    (s : Scheduler) (d : JobDocument) (handler : JobHandler) :
  id job ∉ activeJobs s →
  jobHandlers s !! name job = Some handler →
  jobRepository s !! id job = Some d →
  let s' := processJob now later job s in
  ∃ outcome result,
    emitted s'
    = emitted s
      ++ [{| event := JOB_STARTED; event_job := job; event_result := None |};
          {| event := outcome; event_job := job;
             event_result := Some result |}] ∧
    ((outcome = JOB_COMPLETED ∧ success result = true ∧
      failure_message job (handler job) = None) ∨
     (outcome = JOB_FAILED ∧ success result = false ∧
      ∃ msg, failure_message job (handler job) = Some msg)).
Proof.
  intros Hact Hh E. cbv zeta. unfold processJob.
  rewrite (processJob_start_launch _ _ _ _ _ Hh E).
  set (s1 := emit JOB_STARTED job None _).
  assert (E1 : jobRepository s1 !! id job = Some (dispatched now d))
    by apply lookup_insert_eq.
  destruct (failure_message job (handler job)) as [msg|] eqn:Hmsg.
  - rewrite (processJob_finish_failure _ _ _ _ _ _ E1 Hmsg).
    cbn [emitted set_activeJobs emit set_jobRepository s1].
    eexists JOB_FAILED, _. rewrite <- app_assoc. split; [reflexivity|].
    right. split; [done|]. split; [|eauto].
    unfold failure_message in Hmsg.
    destruct (race job (handler job)) as [result|thrown]; [|done].
    now destruct (success result).
  - unfold failure_message in Hmsg.
    destruct (race job (handler job)) as [result|thrown] eqn:Hr;
      [|now destruct thrown].
    destruct (success result) eqn:Hs; [|discriminate].
    rewrite (processJob_finish_success _ _ _ _ _ _ E1 Hr Hs).
    cbn [emitted set_activeJobs emit set_jobRepository s1].
    eexists JOB_COMPLETED, result. rewrite <- app_assoc.
    split; [reflexivity|]. left. done.
Qed.

(** X3. A reported success completes the job: the stored document is
    [COMPLETED] with the completion stamp, its error message is the one it
    had, and no query selects the job any more. *)
Theorem success_completes_job (now later : Date) (job : Job) (s : Scheduler)
    (d : JobDocument) (handler : JobHandler) (result : JobResult) :
  id job ∉ activeJobs s →
  jobHandlers s !! name job = Some handler →
  jobRepository s !! id job = Some d →
  handler job = Resolves result →
  success result = true →
  let s' := processJob now later job s in
  let d' := completed later (dispatched now d) in
  jobRepository s' = <[id job := d']> (jobRepository s) ∧
  status d' = COMPLETED ∧
  completedAt d' = Some later ∧
  executedAt d' = Some now ∧
  errorMessage d' = errorMessage d ∧
  ∀ now' n,
    id job ∉ id <$> JobRepository.getPendingJobs now' n (jobRepository s').
Proof.
  intros Hact Hh E Hrun Hs. cbv zeta. unfold processJob.
  rewrite (processJob_start_launch _ _ _ _ _ Hh E).
  set (s1 := emit JOB_STARTED job None _).
  assert (E1 : jobRepository s1 !! id job = Some (dispatched now d))
    by apply lookup_insert_eq.
  rewrite (processJob_finish_success _ _ _ _ _ result E1)
    by (rewrite ?Hrun; done).
  cbn [jobRepository set_activeJobs emit set_jobRepository s1].
  rewrite insert_insert_eq.
  split; [done|]. split; [done|]. split; [done|]. split; [done|].
  split; [done|].
  intros now' n. eapply not_pending_not_selected.
  - apply lookup_insert_eq.
  - discriminate.
Qed.

(** X4. When the timer of the job fires before the handler settles, the job
    fails like after any thrown error, and the stored message is "Job timed
    out after", the timeout of the job as it was selected, "ms". *)
Theorem timeout_fails_with_message (now later : Date) (job : Job)
    (s : Scheduler) (d : JobDocument) (handler : JobHandler) :
  id job ∉ activeJobs s →
  jobHandlers s !! name job = Some handler →
  jobRepository s !! id job = Some d →
  handler job = Unsettled →
  let s' := processJob now later job s in
  let msg := "Job timed out after " +:+ pretty (timeout job) +:+ "ms" in
  ∃ d',
    jobRepository s' !! id job = Some d' ∧
    errorMessage d' = Some msg ∧
    attempts d' = attempts d + 1 ∧
    status d' = (if attempts d + 1 <? maxRetries d then PENDING else FAILED).
Proof.
  intros Hact Hh E Hrun. cbv zeta. unfold processJob.
  rewrite (processJob_start_launch _ _ _ _ _ Hh E).
  set (s1 := emit JOB_STARTED job None _).
  assert (E1 : jobRepository s1 !! id job = Some (dispatched now d))
    by apply lookup_insert_eq.
  rewrite Hrun.
  rewrite (processJob_finish_failure later job Unsettled s1 _
             ("Job timed out after " +:+ pretty (timeout job) +:+ "ms")
             E1 eq_refl).
  cbn [jobRepository set_activeJobs emit set_jobRepository].
  eexists. rewrite lookup_insert_eq. split; [reflexivity|].
  pose proof (after_failure_fields later
                ("Job timed out after " +:+ pretty (timeout job) +:+ "ms")
                (dispatched now d)) as Hf.
  cbv zeta in Hf.
  destruct Hf as (_ & _ & _ & _ & _ & F6 & _ & _ & _ & _ & _ & F12 & F13).
  split; [exact F13|]. split; [exact F6 | exact F12].
Qed.

(** X5. A failure whose message is the empty string does not touch the
    stored error message: it stays what it was before the attempt (none for
    a first attempt), while status and attempts change as for any other
    failure. *)
Theorem empty_message_keeps_old_error (now later : Date) (job : Job)
    (s : Scheduler) (d : JobDocument) (handler : JobHandler) :
  id job ∉ activeJobs s →
  jobHandlers s !! name job = Some handler →
  jobRepository s !! id job = Some d →
  failure_message job (handler job) = Some "" →
  let s' := processJob now later job s in
  ∃ d',
    jobRepository s' !! id job = Some d' ∧
    errorMessage d' = errorMessage d ∧
    attempts d' = attempts d + 1 ∧
    status d' = (if attempts d + 1 <? maxRetries d then PENDING else FAILED).
Proof.
  intros Hact Hh E Hmsg. cbv zeta. unfold processJob.
  rewrite (processJob_start_launch _ _ _ _ _ Hh E).
  set (s1 := emit JOB_STARTED job None _).
  assert (E1 : jobRepository s1 !! id job = Some (dispatched now d))
    by apply lookup_insert_eq.
  rewrite (processJob_finish_failure _ _ _ _ _ _ E1 Hmsg).
  cbn [jobRepository set_activeJobs emit set_jobRepository].
  eexists. rewrite lookup_insert_eq. split; [reflexivity|].
  pose proof (after_failure_fields later "" (dispatched now d)) as Hf.
  cbv zeta in Hf.
  destruct Hf as (_ & _ & _ & _ & _ & F6 & _ & _ & _ & _ & _ & F12 & F13).
  split; [exact F13|]. split; [exact F6 | exact F12].
Qed.

(** X6. A job whose document has been deleted since it was selected is still
    handed to its handler, and both events are emitted, but the store is
    left as it is: no document is created or changed, and the active set
    ends as it began. *)
Theorem processJob_of_deleted_job (now later : Date) (job : Job)
    (s : Scheduler) (handler : JobHandler) :
  id job ∉ activeJobs s →
  jobHandlers s !! name job = Some handler →
  jobRepository s !! id job = None →
  let s' := processJob now later job s in
  processJob_start now job s
  = (emit JOB_STARTED job None
       (set_activeJobs ({[+ id job +]} ⊎ activeJobs s)
          (set_jobRepository (jobRepository s) s)),
     Some (handler job)) ∧
  jobRepository s' = jobRepository s ∧
  activeJobs s' = activeJobs s ∧
  length (emitted s') = S (S (length (emitted s))).
Proof.
  intros Hact Hh E. cbv zeta.
  assert (Hstart : processJob_start now job s
                   = (emit JOB_STARTED job None
                        (set_activeJobs ({[+ id job +]} ⊎ activeJobs s)
                           (set_jobRepository (jobRepository s) s)),
                      Some (handler job))).
  { unfold processJob_start, processJob_enter, has_id_object,
      processJob_launch.
    rewrite Hh.
    rewrite (do_updateJobStatus_missing _ _ _ _ _ E).
    cbn [jobRepository set_jobRepository set_activeJobs activeJobs].
    unfold JobRepository.incrementJobAttempts. now rewrite E. }
  split; [exact Hstart|].
  unfold processJob. rewrite Hstart.
  set (s1 := emit JOB_STARTED job None _).
  assert (E1 : jobRepository s1 !! id job = None) by exact E.
  split; [|split].
  - apply map_eq. intros k. destruct (decide (id job = k)) as [<-|Hk].
    + unfold processJob_finish, processJob_finally, processJob_settle.
      cbn [jobRepository set_activeJobs].
      destruct (race job (handler job)) as [result|thrown].
      * destruct (success result); cbn [jobRepository emit];
          rewrite ?(do_updateJobStatus_missing _ _ _ _ _ E1);
          cbn [jobRepository set_jobRepository];
          rewrite ?(getJobById_None _ _ E1); done.
      * cbn [jobRepository emit].
        rewrite ?(do_updateJobStatus_missing _ _ _ _ _ E1).
        cbn [jobRepository set_jobRepository].
        rewrite ?(getJobById_None _ _ E1). done.
    + now rewrite processJob_finish_other.
  - rewrite processJob_finish_active. unfold s1.
    cbn [activeJobs emit set_jobRepository set_activeJobs]. multiset_solver.
  - unfold processJob_finish, processJob_finally, processJob_settle.
    cbn [emitted set_activeJobs].
    destruct (race job (handler job)) as [result|thrown].
    + destruct (success result); cbn [emitted emit];
        rewrite ?(do_updateJobStatus_missing _ _ _ _ _ E1);
        cbn [jobRepository set_jobRepository];
        rewrite ?(getJobById_None _ _ E1);
        unfold s1; cbn [emitted emit set_jobRepository set_activeJobs];
        rewrite !length_app; cbn [length]; lia.
    + cbn [emitted emit].
      rewrite ?(do_updateJobStatus_missing _ _ _ _ _ E1).
      cbn [jobRepository set_jobRepository].
      rewrite ?(getJobById_None _ _ E1).
      unfold s1. cbn [emitted emit set_jobRepository set_activeJobs].
      rewrite !length_app. cbn [length]. lia.
Qed.

End Execution.

(** ** Life cycle and management *)

Section Lifecycle.

Variable LocalTZA : Z.
Variable validate : string → bool.

(** X7. Before [initialize] and after [shutdown] every operation throws the
    same error and does nothing else; [scheduleRecurringJob] throws it
    before it looks at the expression. *)
Theorem uninitialized_operations_throw (s : Scheduler) :
  initialized s = false →
  let error := "Scheduler not initialized. Call initialize() first." in
  (∀ fresh name data scheduledAt options userId,
     scheduleJob fresh name data scheduledAt options userId s = Throw error) ∧
  (∀ now freshR fresh name data cronExpression options userId,
     scheduleRecurringJob LocalTZA validate now freshR fresh name data
       cronExpression options userId s = Throw error) ∧
  (∀ jobId, getJob jobId s = Throw error) ∧
  (∀ jobId, cancelJob jobId s = Throw error) ∧
  (∀ now jobId, retryJob now jobId s = Throw error) ∧
  (∀ now, processNextJobs now s = Throw error) ∧
  initialized (shutdown (initialize s)) = false.
Proof.
  intros Hinit. cbv zeta.
  unfold scheduleJob, scheduleRecurringJob, getJob, cancelJob, retryJob,
    processNextJobs, ensureInitialized.
  rewrite Hinit. repeat split.
Qed.


End Lifecycle.

Section Management2.



(** X11. A completed job is final: [cancelJob] answers [false] and changes
    nothing, [retryJob] throws, and no number of firings of the scheduler
    changes its document. *)
Theorem completed_job_is_final (s : Scheduler) (jobId : ObjectId)
    (d : JobDocument) :
  initialized s = true →
  jobRepository s !! jobId = Some d →
  status d = COMPLETED →
  cancelJob jobId s = Ok (s, false) ∧
  (∀ now,
     retryJob now jobId s = Throw "Cannot retry job with status: completed") ∧
  (∀ now n, jobId ∉ id <$> JobRepository.getPendingJobs now n (jobRepository s)) ∧
  (∀ tz clock fresh from n,
     (∀ i r, fresh i r ≠ jobId) →
     ∃ s', ticks tz clock fresh from n s = Ok s' ∧
           jobRepository s' !! jobId = Some d).
Proof.
  intros Hinit E Hst.
  unfold cancelJob, retryJob, ensureInitialized. rewrite Hinit.
  rewrite (getJobById_Some _ _ _ E). cbn [fields]. rewrite Hst.
  split; [reflexivity|]. split; [reflexivity|]. split.
  - intros now n. eapply not_pending_not_selected; [exact E | congruence].
  - intros tz clock fresh from n Hfresh.
    destruct (ticks_keep tz clock fresh jobId d n from s)
      as (s' & Hs' & _ & E'); auto; [congruence|]. eauto.
Qed.

(** X12. A manual retry buys exactly one more execution: [retryJob] on a job
    that failed with its attempts used up makes it pending with the same
    attempts, so that it is selected again when due; when that execution
    fails too, the job is failed again with one more attempt, without an
    automatic retry. *)
Theorem manual_retry_runs_once_more (now later : Date) (s : Scheduler)
    (jobId : ObjectId) (d : JobDocument) (handler : JobHandler)
    (msg : string) :
  initialized s = true →
  jobRepository s !! jobId = Some d →
  status d = FAILED →
  maxRetries d ≤ attempts d →
  jobId ∉ activeJobs s →
  jobHandlers s !! name d = Some handler →
  let job := {| id := jobId; fields := set_status PENDING d |} in
  failure_message job (handler job) = Some msg →
  ∃ s1,
    retryJob now jobId s = Ok (s1, Some job) ∧
    (∀ n, scheduledAt d ≤ now →
          Z.of_nat (size (jobRepository s1)) ≤ n →
          job ∈ JobRepository.getPendingJobs now n (jobRepository s1)) ∧
    ∃ d',
      jobRepository (processJob now later job s1) !! jobId = Some d' ∧
      status d' = FAILED ∧
      attempts d' = attempts d + 1 ∧
      ∀ now' n,
        jobId ∉ id <$> JobRepository.getPendingJobs now' n
                         (jobRepository (processJob now later job s1)).
Proof.
  intros Hinit E Hst Hmax Hact Hh. cbv zeta. intros Hmsg.
  unfold retryJob, ensureInitialized. rewrite Hinit.
  rewrite (getJobById_Some _ _ _ E). cbn [fields]. rewrite Hst. cbn.
  unfold JobRepository.updateJobStatus. rewrite E. cbn.
  eexists. split; [reflexivity|].
  set (job := {| id := jobId; fields := set_status PENDING d |}) in *.
  set (s1 := emit JOB_RETRIED _ None _).
  assert (E1 : jobRepository s1 !! id job = Some (set_status PENDING d))
    by apply lookup_insert_eq.
  split.
  - intros n Hdue Hn. apply (getPendingJobs_complete now n _ jobId); auto.
    split; [done|]. exact Hdue.
  - unfold processJob.
    rewrite (processJob_start_launch now job s1 _ handler Hh E1).
    set (s2 := emit JOB_STARTED job None _).
    assert (E2 : jobRepository s2 !! id job
                 = Some (dispatched now (set_status PENDING d)))
      by apply lookup_insert_eq.
    rewrite (processJob_finish_failure _ _ _ _ _ _ E2 Hmsg).
    cbn [jobRepository set_activeJobs emit set_jobRepository].
    pose proof (after_failure_fields later msg
                  (dispatched now (set_status PENDING d))) as Hf.
    cbv zeta in Hf.
    destruct Hf as (_ & _ & _ & _ & _ & F6 & _ & _ & F9 & _ & _ & F12 & _).
    assert (Hfail : status (after_failure later msg
                              (dispatched now (set_status PENDING d)))
                    = FAILED).
    { rewrite F12. cbn [attempts maxRetries dispatched inc_attempts
                          set_executedAt set_status].
      destruct (Z.ltb_spec (attempts d + 1) (maxRetries d)); [lia|done]. }
    eexists. split; [apply lookup_insert_eq|].
    split; [exact Hfail|]. split; [exact F6|].
    intros now' n. eapply not_pending_not_selected.
    + apply lookup_insert_eq.
    + congruence.
Qed.

End Management2.

(** ** The queries of the job repository *)

Section Queries.

Implicit Types (db : gmap ObjectId JobDocument) (d : JobDocument).

(** What a filtered, sorted and limited query over the collection
    answers, for any filter and any total and transitive order. *)
Section AnyQuery.

Context (R : relation Job) `{!∀ a b, Decision (R a b)}.
Context (P : Job → Prop) `{!∀ j, Decision (P j)}.
Hypothesis R_total : Total R.
Hypothesis R_trans : Transitive R.

Local Abbreviation query n db :=
  (JobRepository.limit n
     (merge_sort R (filter P (convertToJob <$> map_to_list db)))).

Lemma query_sound n db (j : Job) :
  j ∈ query n db → db !! id j = Some (fields j) ∧ P j.
Proof.
  intros Hj. apply limit_subseteq in Hj.
  rewrite merge_sort_Permutation in Hj.
  apply list_elem_of_filter in Hj as [HP Hj].
  apply list_elem_of_fmap in Hj as ([i d] & -> & Hj).
  apply elem_of_map_to_list in Hj. done.
Qed.

Lemma query_NoDup n db : NoDup (id <$> query n db).
Proof.
  set (sorted := merge_sort _ _).
  assert (Hs : NoDup (id <$> sorted)).
  { unfold sorted. rewrite merge_sort_Permutation.
    eapply sublist_NoDup; [|apply fmap_sublist, sublist_filter].
    rewrite <- list_fmap_compose.
    apply (NoDup_fst_map_to_list db). }
  unfold JobRepository.limit. destruct (n =? 0); [done|].
  eapply sublist_NoDup; [exact Hs | apply fmap_sublist, sublist_take].
Qed.

Lemma query_sorted n db : StronglySorted R (query n db).
Proof.
  set (sorted := merge_sort _ _).
  assert (Hs : StronglySorted R sorted)
    by (apply StronglySorted_merge_sort; done).
  unfold JobRepository.limit. destruct (n =? 0); [done|].
  rewrite <- (take_drop (Z.abs_nat n) sorted) in Hs.
  now apply StronglySorted_app_1_l in Hs.
Qed.

Lemma query_left_out n db i d (j : Job) :
  db !! i = Some d → P {| id := i; fields := d |} →
  j ∈ query n db →
  i ∉ id <$> query n db →
  R j {| id := i; fields := d |}.
Proof.
  intros E HP Hj Hi.
  set (sorted := merge_sort R (filter P (convertToJob <$> map_to_list db)))
    in *.
  assert (Hin : {| id := i; fields := d |} ∈ sorted).
  { unfold sorted. rewrite merge_sort_Permutation.
    apply list_elem_of_filter. split; [done|].
    apply list_elem_of_fmap. exists (i, d). split; [done|].
    now apply elem_of_map_to_list. }
  assert (Hs : StronglySorted R sorted)
    by (apply StronglySorted_merge_sort; done).
  unfold JobRepository.limit in *. destruct (n =? 0).
  - exfalso. apply Hi. apply list_elem_of_fmap.
    exists {| id := i; fields := d |}. done.
  - rewrite <- (take_drop (Z.abs_nat n) sorted) in Hs, Hin.
    apply elem_of_app in Hin as [Hin|Hin].
    + exfalso. apply Hi. apply list_elem_of_fmap.
      exists {| id := i; fields := d |}. done.
    + eapply StronglySorted_app_1_elem_of; eauto.
Qed.

Lemma query_complete n db i d :
  db !! i = Some d → P {| id := i; fields := d |} →
  Z.of_nat (size db) ≤ n →
  {| id := i; fields := d |} ∈ query n db.
Proof.
  intros E HP Hn. rewrite limit_all.
  - rewrite merge_sort_Permutation.
    apply list_elem_of_filter. split; [done|].
    apply list_elem_of_fmap. exists (i, d). split; [done|].
    now apply elem_of_map_to_list.
  - rewrite merge_sort_Permutation.
    etrans; [|exact Hn].
    apply inj_le. etrans; [apply length_filter|].
    rewrite length_fmap. now rewrite length_map_to_list.
Qed.

End AnyQuery.

Local Ltac leb_cases :=
  repeat match goal with
         | |- context [?x <=? ?y] => destruct (Z.leb_spec x y)
         end;
  cbn; try tauto; try lia; try (exfalso; lia).

(** The comparison of the stored priorities, here as a table. *)
Lemma priority_compare (p q : JobPriority) :
  String.compare (JobPriority_value p) (JobPriority_value q)
  = match p, q with
    | NORMAL, NORMAL | LOW, LOW | HIGH, HIGH => Eq
    | NORMAL, _ | LOW, HIGH => Gt
    | _, _ => Lt
    end.
Proof. destruct p, q; vm_compute; reflexivity. Qed.

(** The order of the selection query is total and transitive. *)
Lemma sort_before_total : Total (λ a b : Job, Is_true (JobRepository.sort_before a b)).
Proof.
  intros a b. unfold JobRepository.sort_before. rewrite !priority_compare.
  destruct (priority a), (priority b); cbn; leb_cases.
Qed.

Lemma sort_before_trans :
  Transitive (λ a b : Job, Is_true (JobRepository.sort_before a b)).
Proof.
  intros a b c. unfold JobRepository.sort_before. rewrite !priority_compare.
  destruct (priority a), (priority b), (priority c); cbn; leb_cases.
Qed.

(** X13. [getPendingJobs] answers stored documents that are pending and due,
    each once, at most [n] of them for a positive [n], in the order of the
    query: every job of the answer sorts before the jobs after it and before
    every due pending document that was left out. The order puts the
    priority "normal" first, then "low", then "high", and within one
    priority the earlier due time first. *)
Theorem getPendingJobs_answers_first_in_order (now : Date) (n : Z)
    (db : gmap ObjectId JobDocument) :
  let jobs := JobRepository.getPendingJobs now n db in
  (∀ j : Job, j ∈ jobs →
     db !! id j = Some (fields j) ∧ status j = PENDING ∧ scheduledAt j ≤ now) ∧
  NoDup (id <$> jobs) ∧
  (0 < n → Z.of_nat (length jobs) ≤ n) ∧
  StronglySorted (λ a b, Is_true (JobRepository.sort_before a b)) jobs ∧
  (∀ (j : Job) i d,
     j ∈ jobs → db !! i = Some d → due now d → i ∉ id <$> jobs →
     JobRepository.sort_before j {| id := i; fields := d |} = true) ∧
  (∀ a b : Job,
     JobRepository.sort_before a b = true ↔
     match priority a, priority b with
     | NORMAL, NORMAL | LOW, LOW | HIGH, HIGH => scheduledAt a ≤ scheduledAt b
     | NORMAL, _ | LOW, HIGH => True
     | _, _ => False
     end).
Proof.
  cbv zeta. unfold JobRepository.getPendingJobs.
  split; [|split; [|split; [|split; [|split]]]].
  - intros j Hj.
    apply (query_sound _ (λ j : Job, status j = PENDING ∧ scheduledAt j ≤ now))
      in Hj. tauto.
  - apply query_NoDup.
  - apply length_limit.
  - apply query_sorted; [apply sort_before_total | apply sort_before_trans].
  - intros j i d Hj E Hdue Hi. apply Is_true_true.
    apply (query_left_out (λ a b : Job, Is_true (JobRepository.sort_before a b))
             (λ j : Job, status j = PENDING ∧ scheduledAt j ≤ now)
             sort_before_total sort_before_trans n db i d j); done.
  - intros a b. unfold JobRepository.sort_before. rewrite priority_compare.
    destruct (priority a), (priority b); cbn;
      rewrite ?Z.leb_le; intuition congruence.
Qed.

Lemma StronglySorted_weaken {A} (R R' : relation A) (l : list A) :
  (∀ a b, R a b → R' a b) → StronglySorted R l → StronglySorted R' l.
Proof.
  intros HR. induction 1 as [|a l Hs IH Hall]; constructor; [done|].
  eapply Forall_impl; [exact Hall|]. intros b. apply HR.
Qed.

Lemma later_first_total : Total (λ a b : Job, Is_true (JobRepository.later_first a b)).
Proof.
  intros a b. unfold JobRepository.later_first. leb_cases.
Qed.

Lemma later_first_trans :
  Transitive (λ a b : Job, Is_true (JobRepository.later_first a b)).
Proof.
  intros a b c. unfold JobRepository.later_first. leb_cases.
Qed.

(** X14. [getJobsByUserId] answers stored documents of the given owner (and
    of the given status, when there is one), each once, at most [n] of them
    for a positive [n], the later due time first; documents without owner
    are never answered; with room for the whole collection every document of
    the owner is answered. *)
Theorem getJobsByUserId_answers_owned_jobs (uid : string)
    (st : option JobStatus) (n : Z) (db : gmap ObjectId JobDocument) :
  let jobs := JobRepository.getJobsByUserId uid st n db in
  (∀ j : Job, j ∈ jobs →
     db !! id j = Some (fields j) ∧ userId j = Some uid ∧
     ∀ st', st = Some st' → status j = st') ∧
  NoDup (id <$> jobs) ∧
  (0 < n → Z.of_nat (length jobs) ≤ n) ∧
  StronglySorted (λ a b : Job, scheduledAt b ≤ scheduledAt a) jobs ∧
  (∀ i d,
     db !! i = Some d → userId d = Some uid →
     (∀ st', st = Some st' → status d = st') →
     Z.of_nat (size db) ≤ n →
     {| id := i; fields := d |} ∈ jobs).
Proof.
  cbv zeta. unfold JobRepository.getJobsByUserId.
  split; [|split; [|split; [|split]]].
  - intros j Hj.
    apply (query_sound _ (λ j : Job, Is_true (JobRepository.owned_by uid st j)))
      in Hj.
    destruct Hj as [E Hown]. split; [done|].
    unfold JobRepository.owned_by in Hown.
    apply andb_prop_elim in Hown as [H1 H2].
    apply bool_decide_unpack in H1. split; [done|].
    intros st' ->. now apply bool_decide_unpack in H2.
  - apply query_NoDup.
  - apply length_limit.
  - eapply StronglySorted_weaken;
      [|apply query_sorted; [apply later_first_total | apply later_first_trans]].
    intros a b H. unfold JobRepository.later_first in H.
    now apply Is_true_true, Z.leb_le in H.
  - intros i d E Hu Hst Hn.
    apply (query_complete _ (λ j : Job, Is_true (JobRepository.owned_by uid st j)));
      [done| |done].
    unfold JobRepository.owned_by. cbn [fields].
    apply andb_prop_intro. split.
    + now apply bool_decide_pack.
    + destruct st as [st'|]; [|done]. apply bool_decide_pack. now apply Hst.
Qed.

End Queries.

(** ** The branches of the next-run calculator *)

Section Branches.

Import JsDate.

Variable LocalTZA : Z.

Local Ltac div_mod :=
  unfold HourFromTime, MinFromTime, SecFromTime, msFromTime, Day,
    TimeWithinDay, WeekDay, MakeDate, MakeTime, LocalTime, UTC,
    local_minute, local_time_of_day, start_of_local_hour,
    msPerDay, msPerHour, msPerMinute, msPerSecond in *;
  Z.to_euclidean_division_equations; lia.

Lemma setHours_add d k :
  setHours LocalTZA d (getHours LocalTZA d + k) = d + k * msPerHour.
Proof.
  pose proof (time_fields (LocalTime LocalTZA d)).
  unfold setHours, getHours, UTC, MakeDate, MakeTime in *.
  unfold LocalTime in *. lia.
Qed.

(** The local day of the local midnight that begins day [k]. *)
Lemma day_of_local_midnight k :
  Day (LocalTime LocalTZA (k * msPerDay - LocalTZA)) = k.
Proof.
  unfold Day, LocalTime.
  replace (k * msPerDay - LocalTZA + LocalTZA) with (k * msPerDay) by lia.
  apply Z.div_mul; unfold msPerDay; lia.
Qed.

(** Minutes and hours set to zero on a whole minute: the local midnight
    that begins the day. *)
Lemma start_of_local_day d :
  (d + LocalTZA) mod msPerMinute = 0 →
  setHours LocalTZA (setMinutes LocalTZA d 0) 0
  = Day (LocalTime LocalTZA d) * msPerDay - LocalTZA.
Proof.
  intros Hd. rewrite setHours_zero, setMinutes_zero. div_mod.
Qed.

Lemma rounded_on_minute from :
  (from - (from + LocalTZA) mod msPerMinute + msPerMinute + LocalTZA)
    mod msPerMinute = 0.
Proof. div_mod. Qed.

(** The three statements with which [getNextRunTime] begins. *)
Lemma rounding from :
  setMilliseconds LocalTZA
    (setSeconds LocalTZA
       (setMinutes LocalTZA from (getMinutes LocalTZA from + 1)) 0) 0
  = from - (from + LocalTZA) mod msPerMinute + msPerMinute.
Proof.
  rewrite (setMinutes_add LocalTZA from 1), setSeconds_zero,
    setMilliseconds_zero.
  div_mod.
Qed.

(** The tests of the branches, told from the fields. *)
Lemma not_every_minute cronExpression :
  field_is (split_string " " cronExpression) 0 "0" = true →
  bool_decide (cronExpression = "* * * * *") = false.
Proof.
  intros H. apply bool_decide_eq_false_2. intros ->.
  vm_compute in H. discriminate.
Qed.

(** X15. Every minute: the start of the next local minute. *)
Theorem every_minute_next_run (from : Date) :
  let next := getNextRunTime LocalTZA "* * * * *" from in
  next = from - (from + LocalTZA) mod msPerMinute + msPerMinute ∧
  from < next ≤ from + msPerMinute ∧
  SecFromTime (LocalTime LocalTZA next) = 0 ∧
  msFromTime (LocalTime LocalTZA next) = 0.
Proof.
  cbv zeta.
  assert (Hb : bool_decide ("* * * * *" = "* * * * *") = true)
    by (vm_compute; reflexivity).
  cbv beta zeta delta [getNextRunTime]. rewrite Hb, rounding.
  split; [done|]. split; [div_mod|]. split; div_mod.
Qed.

Lemma hourly_arith t :
  let rounded := t - t mod 60000 + 60000 in
  rounded - (rounded / 60000) mod 60 * 60000
  = if (t / 60000) mod 60 =? 59 then t - t mod 3600000 + 3600000
    else t - t mod 3600000.
Proof.
  cbv zeta.
  assert (E1 : (t - t mod 60000 + 60000) / 60000 = t / 60000 + 1)
    by (Z.to_euclidean_division_equations; lia).
  assert (E2 : t mod 3600000 = (t / 60000) mod 60 * 60000 + t mod 60000)
    by (Z.to_euclidean_division_equations; lia).
  rewrite E1, E2.
  destruct (Z.eqb_spec (t / 60000 mod 60) 59);
    Z.to_euclidean_division_equations; lia.
Qed.

(** The hourly branch: the start of the local hour that [from] is in,
    or the start of the next one when [from] is in the first or in the
    last minute of its hour. *)
Lemma hourly_value cronExpression from :
  field_is (split_string " " cronExpression) 0 "0" = true →
  field_is (split_string " " cronExpression) 1 "*" = true →
  getNextRunTime LocalTZA cronExpression from
  = if (local_minute LocalTZA from =? 0) || (local_minute LocalTZA from =? 59)
    then start_of_local_hour LocalTZA from + msPerHour
    else start_of_local_hour LocalTZA from.
Proof.
  intros H0 H1. pose proof (not_every_minute _ H0) as Hne.
  cbv beta zeta delta [getNextRunTime].
  rewrite Hne, H0, H1. cbv [andb].
  rewrite rounding, setHours_add, setMinutes_zero.
  change (getMinutes LocalTZA from) with (local_minute LocalTZA from).
  pose proof (hourly_arith (from + LocalTZA)) as Ha. cbv zeta in Ha.
  unfold start_of_local_hour, local_minute, MinFromTime, LocalTime,
    msPerMinute, msPerHour in *.
  replace (from - (from + LocalTZA) mod 60000 + 60000 + LocalTZA)
    with (from + LocalTZA - (from + LocalTZA) mod 60000 + 60000) by lia.
  destruct (Z.eqb_spec ((from + LocalTZA) / 60000 mod 60) 0) as [Hm|Hm];
    destruct (Z.eqb_spec ((from + LocalTZA) / 60000 mod 60) 59) as [Hm'|Hm'];
    cbn [orb]; lia.
Qed.

(** X16. For an expression whose first two fields are "0" and "*" (the
    hourly pattern is one), the next run is the start of the next local hour
    only when [from] is in the first or in the last minute of its hour; in
    every other minute it is the start of the hour that [from] is in, which
    is not after [from]. *)
Theorem hourly_next_run (cronExpression : string) (from : Date) :
  field_is (split_string " " cronExpression) 0 "0" = true →
  field_is (split_string " " cronExpression) 1 "*" = true →
  let next := getNextRunTime LocalTZA cronExpression from in
  let minute := local_minute LocalTZA from in
  let hour_start := start_of_local_hour LocalTZA from in
  hour_start ≤ from < hour_start + msPerHour ∧
  (minute = 0 ∨ minute = 59 → next = hour_start + msPerHour ∧ from < next) ∧
  (1 ≤ minute ≤ 58 → next = hour_start ∧ next ≤ from).
Proof.
  intros H0 H1. cbv zeta. rewrite (hourly_value _ _ H0 H1).
  assert (Hh : start_of_local_hour LocalTZA from ≤ from
               < start_of_local_hour LocalTZA from + msPerHour) by div_mod.
  split; [exact Hh|]. split.
  - intros [Hm|Hm]; rewrite Hm; cbn; lia.
  - intros Hm.
    destruct (Z.eqb_spec (local_minute LocalTZA from) 0);
      destruct (Z.eqb_spec (local_minute LocalTZA from) 59); cbn [orb]; lia.
Qed.

(** The daily branch takes every expression whose first three fields are
    "0", "0" and "*", whatever the other fields say. *)
Lemma daily_branch_value cronExpression from :
  field_is (split_string " " cronExpression) 0 "0" = true →
  field_is (split_string " " cronExpression) 1 "0" = true →
  field_is (split_string " " cronExpression) 2 "*" = true →
  getNextRunTime LocalTZA cronExpression from
  = (Day (LocalTime LocalTZA (round_forward LocalTZA from)) + 1) * msPerDay
    - LocalTZA.
Proof.
  intros H0 H1 H2. pose proof (not_every_minute _ H0) as Hne.
  assert (H1' : field_is (split_string " " cronExpression) 1 "*" = false).
  { unfold field_is in *. apply bool_decide_eq_true_1 in H1.
    apply bool_decide_eq_false_2. congruence. }
  cbv beta zeta delta [getNextRunTime].
  rewrite Hne, H0, H1, H1', H2. cbv [andb].
  rewrite rounding, setDate_add, setHours_zero, setMinutes_zero.
  rewrite round_forward_eq.
  div_mod.
Qed.

(** X17. The test of the daily branch comes before the test of the weekly
    branch and does not look at the fifth field: every expression whose
    first three fields are "0", "0" and "*" (the weekly pattern "0 0 * * 0"
    is one) gets the next run of the daily pattern, the next local midnight,
    whose day of the week is the one after that of the rounded instant, a
    Sunday only when that is a Saturday. *)
Theorem daily_test_shadows_weekly (cronExpression : string) (from : Date) :
  field_is (split_string " " cronExpression) 0 "0" = true →
  field_is (split_string " " cronExpression) 1 "0" = true →
  field_is (split_string " " cronExpression) 2 "*" = true →
  let next := getNextRunTime LocalTZA cronExpression from in
  next = getNextRunTime LocalTZA "0 0 * * *" from ∧
  first_midnight_after LocalTZA (round_forward LocalTZA from) next ∧
  WeekDay (LocalTime LocalTZA next)
  = (WeekDay (LocalTime LocalTZA (round_forward LocalTZA from)) + 1) mod 7 ∧
  from < next ≤ from + msPerDay + msPerMinute.
Proof.
  intros H0 H1 H2. cbv zeta.
  rewrite (daily_branch_value _ _ H0 H1 H2), daily_value. split; [done|].
  split; [apply first_midnight_after_next_day|].
  split.
  - unfold WeekDay. rewrite day_of_local_midnight.
    generalize (Day (LocalTime LocalTZA (round_forward LocalTZA from))).
    intros k. Z.to_euclidean_division_equations; lia.
  - rewrite round_forward_eq. div_mod.
Qed.

Lemma weekly_value cronExpression from :
  field_is (split_string " " cronExpression) 0 "0" = true →
  field_is (split_string " " cronExpression) 1 "0" = true →
  field_is (split_string " " cronExpression) 2 "*" = false →
  field_is (split_string " " cronExpression) 4 "0" = true →
  getNextRunTime LocalTZA cronExpression from
  = (Day (LocalTime LocalTZA (round_forward LocalTZA from)) + 7
     - WeekDay (LocalTime LocalTZA (round_forward LocalTZA from)))
    * msPerDay - LocalTZA.
Proof.
  intros H0 H1 H2 H4. pose proof (not_every_minute _ H0) as Hne.
  assert (H1' : field_is (split_string " " cronExpression) 1 "*" = false).
  { unfold field_is in *. apply bool_decide_eq_true_1 in H1.
    apply bool_decide_eq_false_2. congruence. }
  cbv beta zeta delta [getNextRunTime].
  rewrite Hne, H0, H1, H1', H2, H4. cbv [andb].
  rewrite rounding, setDate_add.
  rewrite (start_of_local_day _ (rounded_on_minute from)).
  unfold getDay, WeekDay at 1. rewrite day_of_local_midnight.
  rewrite round_forward_eq. unfold WeekDay. lia.
Qed.

(** X18. The weekly branch, reached when the first, second and fifth fields
    are "0" and the third is not "*": the local midnight that begins the
    first Sunday after the day of the rounded instant. *)
Theorem weekly_branch_next_run (cronExpression : string) (from : Date) :
  field_is (split_string " " cronExpression) 0 "0" = true →
  field_is (split_string " " cronExpression) 1 "0" = true →
  field_is (split_string " " cronExpression) 2 "*" = false →
  field_is (split_string " " cronExpression) 4 "0" = true →
  let next := getNextRunTime LocalTZA cronExpression from in
  let rounded := LocalTime LocalTZA (round_forward LocalTZA from) in
  next = (Day rounded + 7 - WeekDay rounded) * msPerDay - LocalTZA ∧
  is_midnight LocalTZA next ∧
  WeekDay (LocalTime LocalTZA next) = 0 ∧
  from < next ≤ from + 7 * msPerDay + msPerMinute.
Proof.
  intros H0 H1 H2 H4. cbv zeta.
  rewrite (weekly_value _ _ H0 H1 H2 H4).
  split; [done|]. split; [|split].
  - unfold is_midnight. div_mod.
  - unfold WeekDay at 1. rewrite day_of_local_midnight.
    unfold WeekDay.
    generalize (Day (LocalTime LocalTZA (round_forward LocalTZA from))).
    intros k. Z.to_euclidean_division_equations; lia.
  - rewrite round_forward_eq. unfold WeekDay.
    set (t := from - (from + LocalTZA) mod msPerMinute + msPerMinute).
    assert (Ht : from < t ≤ from + msPerMinute) by (unfold t; div_mod).
    assert (Hd : Day (LocalTime LocalTZA t) * msPerDay ≤ t + LocalTZA
                 < Day (LocalTime LocalTZA t) * msPerDay + msPerDay)
      by div_mod.
    assert (Hw : 0 ≤ (Day (LocalTime LocalTZA t) + 4) mod 7 < 7)
      by (apply Z.mod_pos_bound; lia).
    unfold msPerDay, msPerMinute in *. lia.
Qed.

End Branches.

(** ** Months *)

Section Months.

Import JsDate.

Variable LocalTZA : Z.

Lemma InLeapYear_range y : InLeapYear y = 0 ∨ InLeapYear y = 1.
Proof.
  unfold InLeapYear.
  destruct (y mod 4 =? 0), (y mod 100 =? 0), (y mod 400 =? 0); cbn; auto.
Qed.

(** A year has 365 days, and one more when it is a leap year. *)
Lemma DayFromYear_succ y :
  DayFromYear (y + 1) = DayFromYear y + 365 + InLeapYear y.
Proof.
  unfold DayFromYear, InLeapYear.
  destruct (Z.eqb_spec (y mod 4) 0), (Z.eqb_spec (y mod 100) 0),
    (Z.eqb_spec (y mod 400) 0); cbn [negb];
    Z.to_euclidean_division_equations; lia.
Qed.

Lemma YearFromTime_unique t y :
  DayFromYear y ≤ Day t < DayFromYear (y + 1) → YearFromTime t = y.
Proof.
  intros [H1 H2]. pose proof (YearFromTime_bounds t) as [B1 B2].
  pose proof (YearFromTime_largest t y H1).
  destruct (Z.le_gt_cases (YearFromTime t) y) as [|Hgt]; [lia|].
  pose proof (DayFromYear_mono (y + 1) (YearFromTime t)). lia.
Qed.

Lemma DayWithinYear_range t :
  0 ≤ DayWithinYear t < 365 + InLeapYear (YearFromTime t).
Proof.
  unfold DayWithinYear. pose proof (YearFromTime_bounds t) as [B1 B2].
  rewrite DayFromYear_succ in B2. lia.
Qed.

Lemma monthEnd_next l m :
  0 ≤ m ≤ 11 →
  monthEnd l m = if m =? 11 then 365 + l else monthStart l (m + 1).
Proof.
  intros Hm.
  assert (m = 0 ∨ m = 1 ∨ m = 2 ∨ m = 3 ∨ m = 4 ∨ m = 5 ∨ m = 6 ∨ m = 7
          ∨ m = 8 ∨ m = 9 ∨ m = 10 ∨ m = 11) as Hc by lia.
  repeat destruct Hc as [->|Hc]; try subst m; reflexivity.
Qed.

Lemma month_of_day t :
  let l := InLeapYear (YearFromTime t) in
  let m := MonthFromTime t in
  0 ≤ m ≤ 11 ∧
  monthStart l m ≤ DayWithinYear t < monthEnd l m ∧
  1 ≤ monthEnd l m - monthStart l m ≤ 31.
Proof.
  cbv zeta. pose proof (DayWithinYear_range t) as Hr.
  pose proof (InLeapYear_range (YearFromTime t)) as Hl.
  unfold MonthFromTime. cbv zeta.
  repeat match goal with
         | |- context [?a <? ?b] => destruct (Z.ltb_spec a b)
         end; cbn [monthStart monthEnd]; lia.
Qed.

(** The first day of month [m] of year [y], as a local instant. *)
Lemma first_of_month y m :
  0 ≤ m ≤ 11 →
  let t := (DayFromYear y + monthStart (InLeapYear y) m) * msPerDay in
  YearFromTime t = y ∧ MonthFromTime t = m ∧ DateFromTime t = 1.
Proof.
  intros Hm. cbv zeta.
  set (t := (DayFromYear y + monthStart (InLeapYear y) m) * msPerDay).
  assert (Hd : Day t = DayFromYear y + monthStart (InLeapYear y) m)
    by (unfold t, Day; apply Z.div_mul; unfold msPerDay; lia).
  pose proof (InLeapYear_range y) as Hl.
  assert (Hs : 0 ≤ monthStart (InLeapYear y) m < 365).
  { assert (m = 0 ∨ m = 1 ∨ m = 2 ∨ m = 3 ∨ m = 4 ∨ m = 5 ∨ m = 6 ∨ m = 7
            ∨ m = 8 ∨ m = 9 ∨ m = 10 ∨ m = 11) as Hc by lia.
    repeat destruct Hc as [->|Hc]; try subst m; cbn; lia. }
  assert (Hy : YearFromTime t = y).
  { apply YearFromTime_unique. rewrite Hd, DayFromYear_succ. lia. }
  assert (Hw : DayWithinYear t = monthStart (InLeapYear y) m)
    by (unfold DayWithinYear; rewrite Hy, Hd; lia).
  assert (Hmo : MonthFromTime t = m).
  { unfold MonthFromTime. rewrite Hw, Hy.
    assert (m = 0 ∨ m = 1 ∨ m = 2 ∨ m = 3 ∨ m = 4 ∨ m = 5 ∨ m = 6 ∨ m = 7
            ∨ m = 8 ∨ m = 9 ∨ m = 10 ∨ m = 11) as Hc by lia.
    repeat destruct Hc as [->|Hc]; try subst m; cbn [monthStart];
      repeat match goal with
             | |- context [?a <? ?b] => destruct (Z.ltb_spec a b)
             end; lia. }
  split; [done|]. split; [done|].
  unfold DateFromTime. rewrite Hw, Hy, Hmo. lia.
Qed.

Lemma calendar_of_day t t' :
  Day t = Day t' →
  YearFromTime t = YearFromTime t' ∧ MonthFromTime t = MonthFromTime t' ∧
  DateFromTime t = DateFromTime t'.
Proof.
  intros E.
  assert (Hy : YearFromTime t = YearFromTime t')
    by (unfold YearFromTime; now rewrite E).
  assert (Hw : DayWithinYear t = DayWithinYear t')
    by (unfold DayWithinYear; now rewrite E, Hy).
  assert (Hm : MonthFromTime t = MonthFromTime t')
    by (unfold MonthFromTime; now rewrite Hw, Hy).
  split; [done|]. split; [done|].
  unfold DateFromTime. now rewrite Hw, Hy, Hm.
Qed.

Lemma MakeDay_first y m :
  0 ≤ m ≤ 11 →
  MakeDay y m 1 = DayFromYear y + monthStart (InLeapYear y) m.
Proof.
  intros Hm. unfold MakeDay.
  rewrite Z.div_small, Z.mod_small, Z.add_0_r by lia. lia.
Qed.

(** The first day of the month after month [m] of year [y]. *)
Lemma MakeDay_next_month y m :
  0 ≤ m ≤ 11 →
  MakeDay y (m + 1) 1 = DayFromYear y + monthEnd (InLeapYear y) m ∧
  0 ≤ (m + 1) mod 12 ≤ 11 ∧
  MakeDay y (m + 1) 1
  = DayFromYear (y + (m + 1) / 12)
    + monthStart (InLeapYear (y + (m + 1) / 12)) ((m + 1) mod 12).
Proof.
  intros Hm. unfold MakeDay. rewrite (monthEnd_next _ m Hm).
  destruct (Z.eqb_spec m 11) as [->|Hne].
  - replace ((11 + 1) / 12) with 1 by reflexivity.
    replace ((11 + 1) mod 12) with 0 by reflexivity.
    rewrite DayFromYear_succ. cbn [monthStart].
    split; [lia|]. split; lia.
  - rewrite Z.div_small, Z.mod_small, Z.add_0_r by lia.
    split; [lia|]. split; lia.
Qed.

Lemma monthly_value cronExpression from :
  field_is (split_string " " cronExpression) 0 "0" = true →
  field_is (split_string " " cronExpression) 1 "0" = true →
  field_is (split_string " " cronExpression) 2 "1" = true →
  field_is (split_string " " cronExpression) 4 "0" = false →
  getNextRunTime LocalTZA cronExpression from
  = MakeDay (YearFromTime (LocalTime LocalTZA (round_forward LocalTZA from)))
      (MonthFromTime (LocalTime LocalTZA (round_forward LocalTZA from)) + 1) 1
    * msPerDay - LocalTZA.
Proof.
  intros H0 H1 H2 H4. pose proof (not_every_minute _ H0) as Hne.
  assert (H1' : field_is (split_string " " cronExpression) 1 "*" = false).
  { unfold field_is in *. apply bool_decide_eq_true_1 in H1.
    apply bool_decide_eq_false_2. congruence. }
  assert (H2' : field_is (split_string " " cronExpression) 2 "*" = false).
  { unfold field_is in *. apply bool_decide_eq_true_1 in H2.
    apply bool_decide_eq_false_2. congruence. }
  cbv beta zeta delta [getNextRunTime].
  rewrite Hne, H0, H1, H1', H2, H2', H4. cbv [andb].
  rewrite (rounding LocalTZA).
  rewrite (start_of_local_day LocalTZA _ (rounded_on_minute LocalTZA from)).
  rewrite (round_forward_eq LocalTZA from).
  generalize (from - (from + LocalTZA) mod msPerMinute + msPerMinute).
  intros r.
  pose proof (month_of_day (LocalTime LocalTZA r)) as Hmd. cbv zeta in Hmd.
  destruct Hmd as (Hm & _ & _).
  pose proof (day_of_local_midnight LocalTZA (Day (LocalTime LocalTZA r)))
    as Hx.
  destruct (calendar_of_day _ _ Hx) as (E1 & E2 & _).
  assert (Hxt : TimeWithinDay
                  (LocalTime LocalTZA
                     (Day (LocalTime LocalTZA r) * msPerDay - LocalTZA)) = 0).
  { unfold TimeWithinDay at 1, LocalTime at 1.
    replace (Day (LocalTime LocalTZA r) * msPerDay - LocalTZA + LocalTZA)
      with (Day (LocalTime LocalTZA r) * msPerDay) by lia.
    apply Z.mod_mul. unfold msPerDay. lia. }
  unfold setMonth, getMonth, setDate. rewrite E1, E2, Hxt.
  revert Hm.
  generalize (MonthFromTime (LocalTime LocalTZA r)) as m.
  generalize (YearFromTime (LocalTime LocalTZA r)) as y.
  intros y m Hm.
  rewrite (MakeDay_first y m Hm).
  destruct (first_of_month y m Hm) as (F1 & F2 & F3).
  assert (Hl1 : LocalTime LocalTZA
                  (UTC LocalTZA
                     (MakeDate (DayFromYear y + monthStart (InLeapYear y) m) 0))
                = (DayFromYear y + monthStart (InLeapYear y) m) * msPerDay)
    by (unfold LocalTime, UTC, MakeDate; lia).
  rewrite Hl1, F1, F2, F3.
  unfold TimeWithinDay. rewrite Z.mod_mul by (unfold msPerDay; lia).
  unfold UTC, MakeDate. lia.
Qed.

Lemma rounded_after from :
  from < from - (from + LocalTZA) mod msPerMinute + msPerMinute
       ≤ from + msPerMinute.
Proof. unfold msPerMinute. Z.to_euclidean_division_equations; lia. Qed.

(** The first of the next month is after the rounded instant, by 31 days
    at most. *)
Lemma next_month_after r :
  let y := YearFromTime (LocalTime LocalTZA r) in
  let m := MonthFromTime (LocalTime LocalTZA r) in
  r < MakeDay y (m + 1) 1 * msPerDay - LocalTZA ≤ r + 31 * msPerDay.
Proof.
  cbv zeta.
  pose proof (month_of_day (LocalTime LocalTZA r)) as Hmd. cbv zeta in Hmd.
  destruct Hmd as (Hm & Hdw & Hlen).
  assert (Hday : Day (LocalTime LocalTZA r)
                 = DayFromYear (YearFromTime (LocalTime LocalTZA r))
                   + DayWithinYear (LocalTime LocalTZA r))
    by (unfold DayWithinYear; lia).
  assert (Hd : Day (LocalTime LocalTZA r) * msPerDay ≤ r + LocalTZA
               < Day (LocalTime LocalTZA r) * msPerDay + msPerDay).
  { unfold Day, LocalTime, msPerDay. Z.to_euclidean_division_equations; lia. }
  revert Hm Hdw Hlen Hday Hd.
  generalize (DayWithinYear (LocalTime LocalTZA r)) as w.
  generalize (Day (LocalTime LocalTZA r)) as k.
  generalize (MonthFromTime (LocalTime LocalTZA r)) as m.
  generalize (YearFromTime (LocalTime LocalTZA r)) as y.
  intros y m k w Hm Hdw Hlen Hday Hd.
  destruct (MakeDay_next_month y m Hm) as (Hnext & _ & _).
  rewrite Hnext. unfold msPerDay in *. lia.
Qed.

(** X19. The monthly branch, reached when the first three fields are "0",
    "0" and "1" and the fifth is not "0": the local midnight that begins the
    first day of the month after the month of the rounded instant. *)
Theorem monthly_next_run (cronExpression : string) (from : Date) :
  field_is (split_string " " cronExpression) 0 "0" = true →
  field_is (split_string " " cronExpression) 1 "0" = true →
  field_is (split_string " " cronExpression) 2 "1" = true →
  field_is (split_string " " cronExpression) 4 "0" = false →
  let next := getNextRunTime LocalTZA cronExpression from in
  let rounded := LocalTime LocalTZA (round_forward LocalTZA from) in
  let next_local := LocalTime LocalTZA next in
  is_midnight LocalTZA next ∧
  DateFromTime next_local = 1 ∧
  MonthFromTime next_local = (MonthFromTime rounded + 1) mod 12 ∧
  YearFromTime next_local
  = YearFromTime rounded + (MonthFromTime rounded + 1) / 12 ∧
  from < next ≤ from + 31 * msPerDay + msPerMinute.
Proof.
  intros H0 H1 H2 H4. cbv zeta.
  rewrite (monthly_value _ _ H0 H1 H2 H4).
  pose proof (next_month_after (round_forward LocalTZA from)) as Hafter.
  cbv zeta in Hafter.
  pose proof (rounded_after from) as Hr. rewrite <- round_forward_eq in Hr.
  revert Hafter Hr. generalize (round_forward LocalTZA from). intros r Hafter Hr.
  pose proof (month_of_day (LocalTime LocalTZA r)) as Hmd. cbv zeta in Hmd.
  destruct Hmd as (Hm & _ & _).
  revert Hm Hafter.
  generalize (MonthFromTime (LocalTime LocalTZA r)) as m.
  generalize (YearFromTime (LocalTime LocalTZA r)) as y.
  intros y m Hm Hafter.
  destruct (MakeDay_next_month y m Hm) as (_ & Hm' & Hnext').
  assert (Hl : LocalTime LocalTZA (MakeDay y (m + 1) 1 * msPerDay - LocalTZA)
               = MakeDay y (m + 1) 1 * msPerDay)
    by (unfold LocalTime; lia).
  rewrite Hl.
  split.
  { unfold is_midnight. rewrite Hl. unfold TimeWithinDay.
    apply Z.mod_mul. unfold msPerDay. lia. }
  rewrite Hnext'.
  destruct (first_of_month (y + (m + 1) / 12) ((m + 1) mod 12) Hm')
    as (G1 & G2 & G3).
  split; [exact G3|]. split; [exact G2|]. split; [exact G1|].
  rewrite <- Hnext'. unfold msPerDay, msPerMinute in *. lia.
Qed.

(** X20. Whatever the expression, the next run is on a whole minute of local
    time; and unless the expression takes the hourly branch (first field
    "0", second field "*"), the next run is strictly after [from] and at
    most 31 days and one minute after it. *)
Theorem next_run_is_later_on_the_minute (cronExpression : string)
    (from : Date) :
  let next := getNextRunTime LocalTZA cronExpression from in
  let parts := split_string " " cronExpression in
  (LocalTime LocalTZA next) mod msPerMinute = 0 ∧
  (field_is parts 0 "0" && field_is parts 1 "*" = false →
   from < next ≤ from + 31 * msPerDay + msPerMinute).
Proof.
  cbv zeta.
  pose proof (rounded_after from) as Hr.
  pose proof (rounded_on_minute LocalTZA from) as Hon.
  destruct (bool_decide (cronExpression = "* * * * *")) eqn:B.
  { apply bool_decide_eq_true_1 in B. subst cronExpression.
    assert (E : getNextRunTime LocalTZA "* * * * *" from
                = from - (from + LocalTZA) mod msPerMinute + msPerMinute).
    { assert (Hb : bool_decide ("* * * * *" = "* * * * *") = true)
        by (vm_compute; reflexivity).
      cbv beta zeta delta [getNextRunTime]. rewrite Hb.
      apply rounding. }
    rewrite E. split; [exact Hon|]. intros _. unfold msPerDay, msPerMinute in *.
    lia. }
  assert (Hfall : falls_through cronExpression = true →
            (LocalTime LocalTZA (getNextRunTime LocalTZA cronExpression from))
              mod msPerMinute = 0 ∧
            from < getNextRunTime LocalTZA cronExpression from
                 ≤ from + 31 * msPerDay + msPerMinute).
  { intros Hf. rewrite (fallback_value LocalTZA _ _ Hf), round_forward_eq.
    unfold LocalTime, msPerDay, msPerMinute in *.
    split; [Z.to_euclidean_division_equations; lia | lia]. }
  unfold falls_through in Hfall. rewrite B in Hfall.
  destruct (field_is (split_string " " cronExpression) 0 "0") eqn:F0;
    [|cbn in *; destruct (Hfall eq_refl); auto].
  destruct (field_is (split_string " " cronExpression) 1 "*") eqn:F1s.
  { rewrite (hourly_value LocalTZA _ _ F0 F1s). split; [|discriminate].
    destruct (_ || _); unfold start_of_local_hour, LocalTime, msPerHour,
      msPerMinute; Z.to_euclidean_division_equations; lia. }
  destruct (field_is (split_string " " cronExpression) 1 "0") eqn:F10;
    [|cbn in *; destruct (Hfall eq_refl); auto].
  destruct (field_is (split_string " " cronExpression) 2 "*") eqn:F2s.
  { rewrite (daily_branch_value LocalTZA _ _ F0 F10 F2s), round_forward_eq.
    split; [|intros _];
      unfold Day, LocalTime, msPerDay, msPerMinute in *;
      Z.to_euclidean_division_equations; lia. }
  destruct (field_is (split_string " " cronExpression) 4 "0") eqn:F40.
  { rewrite (weekly_value LocalTZA _ _ F0 F10 F2s F40), round_forward_eq.
    assert (Hw : 0 ≤ WeekDay (LocalTime LocalTZA
                   (from - (from + LocalTZA) mod msPerMinute + msPerMinute))
                 < 7)
      by (unfold WeekDay; apply Z.mod_pos_bound; lia).
    revert Hw. generalize (WeekDay (LocalTime LocalTZA
                   (from - (from + LocalTZA) mod msPerMinute + msPerMinute))).
    intros w Hw.
    split; [|intros _];
      unfold Day, LocalTime, msPerDay, msPerMinute in *;
      Z.to_euclidean_division_equations; lia. }
  destruct (field_is (split_string " " cronExpression) 2 "1") eqn:F21;
    [|cbn in *; destruct (Hfall eq_refl); auto].
  rewrite (monthly_value _ _ F0 F10 F21 F40).
  pose proof (next_month_after (round_forward LocalTZA from)) as Hafter.
  cbv zeta in Hafter. rewrite round_forward_eq in *.
  split.
  - clear. generalize (MakeDay
      (YearFromTime (LocalTime LocalTZA
         (from - (from + LocalTZA) mod msPerMinute + msPerMinute)))
      (MonthFromTime (LocalTime LocalTZA
         (from - (from + LocalTZA) mod msPerMinute + msPerMinute)) + 1) 1).
    intros k. unfold LocalTime, msPerDay, msPerMinute.
    Z.to_euclidean_division_equations; lia.
  - intros _. unfold msPerDay, msPerMinute in *. lia.
Qed.

End Months.

(** ** The firings of the scheduler *)

Section Firings.

Implicit Types (db : gmap ObjectId JobDocument) (d : JobDocument).

Lemma insert_alter_Some (f : JobDocument → JobDocument) i db d :
  db !! i = Some d → <[i := f d]> db = alter f i db.
Proof.
  intros E. apply map_eq. intros k. rewrite lookup_alter.
  destruct (decide (i = k)) as [->|Hne].
  - now rewrite lookup_insert_eq, E.
  - now rewrite lookup_insert_ne.
Qed.

Lemma alter_None (f : JobDocument → JobDocument) i db :
  db !! i = None → alter f i db = db.
Proof.
  intros E. apply map_eq. intros k. rewrite lookup_alter.
  destruct (decide (i = k)) as [->|Hne]; [now rewrite E | done].
Qed.

Lemma failure_message_None job run :
  failure_message job run = None →
  ∃ result, race job run = inl result ∧ success result = true.
Proof.
  unfold failure_message. destruct (race job run) as [result|[msg|]];
    [|done|done].
  destruct (success result) eqn:E; [|done]. eauto.
Qed.

(** What the end of [processJob] writes to the store. *)
Lemma processJob_finish_repo later job run s :
  jobRepository (processJob_finish later job run s)
  = alter (λ d, match failure_message job run with
                | None => completed later d
                | Some msg => after_failure later msg d
                end) (id job) (jobRepository s).
Proof.
  destruct (jobRepository s !! id job) as [d|] eqn:E.
  - destruct (failure_message job run) as [msg|] eqn:Hm.
    + rewrite (processJob_finish_failure _ _ _ _ _ _ E Hm).
      cbn [jobRepository set_activeJobs emit set_jobRepository].
      now apply (insert_alter_Some (after_failure later msg)).
    + destruct (failure_message_None _ _ Hm) as (result & Hr & Hs).
      rewrite (processJob_finish_success _ _ _ _ _ _ E Hr Hs).
      cbn [jobRepository set_activeJobs emit set_jobRepository].
      now apply (insert_alter_Some (completed later)).
  - rewrite alter_None by done.
    unfold processJob_finish, processJob_finally, processJob_settle.
    cbn [jobRepository set_activeJobs].
    destruct (race job run) as [result|thrown].
    + destruct (success result).
      * now rewrite do_updateJobStatus_missing.
      * rewrite do_updateJobStatus_missing by done.
        cbn [jobRepository set_jobRepository].
        now rewrite (getJobById_None _ _ E).
    + rewrite do_updateJobStatus_missing by done.
      cbn [jobRepository set_jobRepository].
      now rewrite (getJobById_None _ _ E).
Qed.

(** *** No job is lost *)

Lemma same_job_refl d : same_job d d.
Proof. unfold same_job. repeat split; lia. Qed.

Lemma same_job_trans d1 d2 d3 :
  same_job d1 d2 → same_job d2 d3 → same_job d1 d3.
Proof. unfold same_job. intuition (try congruence; try lia). Qed.

Lemma same_job_dispatched now d : same_job d (dispatched now d).
Proof. unfold same_job. cbn. repeat split; lia. Qed.

Lemma same_job_without_handler now job d :
  same_job d (without_handler now job d).
Proof.
  unfold same_job, without_handler, JobRepository.status_update.
  destruct (truthy _); cbn; repeat split; lia.
Qed.

Lemma same_job_completed now d : same_job d (completed now d).
Proof. unfold same_job. cbn. repeat split; lia. Qed.

Lemma same_job_after_failure now msg d : same_job d (after_failure now msg d).
Proof.
  pose proof (after_failure_fields now msg d) as H. cbv zeta in H.
  unfold same_job. intuition (try congruence; try lia).
Qed.

Lemma alter_same_job (f : JobDocument → JobDocument) i db k d :
  (∀ d, same_job d (f d)) →
  db !! k = Some d →
  ∃ d', alter f i db !! k = Some d' ∧ same_job d d'.
Proof.
  intros Hf E. rewrite lookup_alter.
  destruct (decide (i = k)) as [->|Hne].
  - rewrite E. eexists. split; [reflexivity | apply Hf].
  - eexists. split; [exact E | apply same_job_refl].
Qed.

Lemma same_job_running now d :
  same_job d (JobRepository.status_update now RUNNING None d).
Proof. unfold same_job. cbn. repeat split; lia. Qed.

Lemma same_job_inc_attempts d : same_job d (inc_attempts d).
Proof. unfold same_job. cbn. repeat split; lia. Qed.

Lemma processJob_enter_same now job s k d :
  jobRepository s !! k = Some d →
  ∃ d', jobRepository (processJob_enter now job s).1 !! k = Some d' ∧
        same_job d d'.
Proof.
  intros E. rewrite processJob_enter_repo.
  apply alter_same_job; [|done].
  destruct (jobHandlers s !! name job); intros d0;
    [apply same_job_running | apply same_job_without_handler].
Qed.

Lemma processJob_finish_same later job run s k d :
  jobRepository s !! k = Some d →
  ∃ d', jobRepository (processJob_finish later job run s) !! k = Some d' ∧
        same_job d d'.
Proof.
  intros E. rewrite processJob_finish_repo.
  apply alter_same_job; [|done].
  destruct (failure_message job run); intros d0;
    [apply same_job_after_failure | apply same_job_completed].
Qed.

Lemma forEach_same now (l : list Job) k :
  ∀ acc d,
    jobRepository acc.1 !! k = Some d →
    ∃ d', jobRepository (foldl (forEach_body now) acc l).1 !! k = Some d' ∧
          same_job d d'.
Proof.
  induction l as [|job l IH]; intros acc d E; simpl.
  - eexists. split; [exact E | apply same_job_refl].
  - destruct (processJob_enter_same now job acc.1 k d E) as (d1 & E1 & H1).
    rewrite <- forEach_body_fst in E1.
    destruct (IH _ _ E1) as (d2 & E2 & H2).
    exists d2. split; [done|]. eapply same_job_trans; eauto.
Qed.

Lemma launch_same (entered : list (Job * JobHandler)) s k d :
  jobRepository s !! k = Some d →
  ∃ d', jobRepository (launch entered s).1 !! k = Some d' ∧ same_job d d'.
Proof.
  intros E. unfold launch.
  destruct (launch_spec entered s []) as (_ & -> & _).
  induction (reverse entered) as [|jh l IH]; cbn [foldr].
  - eexists. split; [exact E | apply same_job_refl].
  - destruct IH as (d1 & E1 & H1).
    destruct (alter_same_job inc_attempts (id jh.1) _ k d1
                same_job_inc_attempts E1) as (d2 & E2 & H2).
    exists d2. split; [done|]. eapply same_job_trans; eauto.
Qed.

Lemma settle_same later (l : list (Job * HandlerRun)) k :
  ∀ s d,
    jobRepository s !! k = Some d →
    ∃ d', jobRepository (settle later l s) !! k = Some d' ∧ same_job d d'.
Proof.
  unfold settle.
  induction l as [|[job run] l IH]; intros s d E; simpl.
  - eexists. split; [exact E | apply same_job_refl].
  - destruct (processJob_finish_same later job run s k d E) as (d1 & E1 & H1).
    destruct (IH _ _ E1) as (d2 & E2 & H2).
    exists d2. split; [done|]. eapply same_job_trans; eauto.
Qed.

Lemma launch_frame (entered : list (Job * JobHandler)) s :
  initialized (launch entered s).1 = initialized s ∧
  jobHandlers (launch entered s).1 = jobHandlers s ∧
  maxConcurrentJobs (launch entered s).1 = maxConcurrentJobs s ∧
  recurringJobRepository (launch entered s).1 = recurringJobRepository s.
Proof.
  unfold launch.
  now destruct (launch_spec entered s []) as (_ & _ & _ & E4 & E5 & E6 & E7).
Qed.

Lemma settle_frame later (l : list (Job * HandlerRun)) :
  ∀ s,
    initialized (settle later l s) = initialized s ∧
    jobHandlers (settle later l s) = jobHandlers s ∧
    maxConcurrentJobs (settle later l s) = maxConcurrentJobs s ∧
    recurringJobRepository (settle later l s) = recurringJobRepository s.
Proof.
  unfold settle.
  induction l as [|[job run] l IH]; intros s; simpl; [done|].
  destruct (IH (processJob_finish later job run s)) as (E1 & E2 & E3 & E4).
  rewrite E1, E2, E3, E4. apply processJob_finish_frame.
Qed.

Lemma checkRecurringJobs_frame tz now fresh s :
  let s' := checkRecurringJobs tz now fresh s in
  initialized s' = initialized s ∧
  jobHandlers s' = jobHandlers s ∧
  maxConcurrentJobs s' = maxConcurrentJobs s ∧
  activeJobs s' = activeJobs s ∧
  emitted s' = emitted s.
Proof.
  unfold checkRecurringJobs.
  generalize (RecurringJobRepository.getActiveRecurringJobs
                (recurringJobRepository s)).
  intros l. revert s.
  induction l as [|r l IH]; intros s; simpl; [done|].
  destruct (IH (checkRecurringJob tz now fresh s r)) as (E1 & E2 & E3 & E4 & E5).
  cbv zeta. rewrite E1, E2, E3, E4, E5.
  assert (Hspawn : ∀ t,
            let s' := (spawn now fresh r t s).1 in
            initialized s' = initialized s ∧
            jobHandlers s' = jobHandlers s ∧
            maxConcurrentJobs s' = maxConcurrentJobs s ∧
            activeJobs s' = activeJobs s ∧
            emitted s' = emitted s).
  { intros t. unfold spawn.
    destruct (stored_payload (r_data r)) as [data|]; [|done].
    now destruct (RecurringJobRepository.updateLastExecutedAt _ _ _)
      as [[db o]|]. }
  unfold checkRecurringJob.
  destruct (r_lastExecutedAt r) as [last|]; [|apply Hspawn].
  destruct (getNextRunTime tz (r_cronExpression r) last <=? now);
    [apply Hspawn | done].
Qed.

(** The outcome of a firing at an initialized scheduler, step by step. *)
Lemma tick_steps tz now later fresh s :
  initialized s = true →
  ∃ s2 entered s3 inflight,
    processNextJobs now (checkRecurringJobs tz now fresh s)
    = Ok (s2, entered) ∧
    launch entered s2 = (s3, inflight) ∧
    tick tz now later fresh s = Ok (settle later inflight s3) ∧
    (∃ l : list Job,
       (∀ j : Job, j ∈ l →
          jobRepository (checkRecurringJobs tz now fresh s) !! id j
          = Some (fields j) ∧ status j = PENDING) ∧
       NoDup (id <$> l) ∧
       (s2, entered)
       = foldl (forEach_body now)
           (checkRecurringJobs tz now fresh s, []) l).
Proof.
  intros Hinit. unfold tick.
  destruct (checkRecurringJobs_frame tz now fresh s) as (E & _).
  cbv zeta in E. rewrite Hinit in E.
  set (s1 := checkRecurringJobs tz now fresh s) in *.
  destruct (processNextJobs_spec now s1 E)
    as (s2 & entered & -> & Hfull & Hroom & _).
  destruct (launch entered s2) as [s3 inflight] eqn:EL.
  exists s2, entered, s3, inflight.
  split; [done|]. split; [done|]. split; [done|].
  destruct (Z.lt_ge_cases (Z.of_nat (size (activeJobs s1)))
              (maxConcurrentJobs s1)) as [Hlt|Hge].
  - destruct (Hroom Hlt) as (_ & Ef & _).
    set (l := JobRepository.getPendingJobs now _ (jobRepository s1)) in *.
    exists l. split; [|split; [apply getPendingJobs_NoDup | done]].
    intros j Hj. apply getPendingJobs_sound in Hj as [Hj [Hp _]]. done.
  - destruct (Hfull Hge) as [-> ->].
    exists []. split; [|split; [constructor | done]].
    intros j Hj. now apply elem_of_nil in Hj.
Qed.

Lemma tick_same tz now later fresh s :
  initialized s = true →
  ∃ s', tick tz now later fresh s = Ok s' ∧
        initialized s' = true ∧
        jobHandlers s' = jobHandlers s ∧
        maxConcurrentJobs s' = maxConcurrentJobs s ∧
        ∀ k d, (∀ r, fresh r ≠ k) →
               jobRepository s !! k = Some d →
               ∃ d', jobRepository s' !! k = Some d' ∧ same_job d d'.
Proof.
  intros Hinit.
  destruct (tick_steps tz now later fresh s Hinit)
    as (s2 & entered & s3 & inflight & _ & EL & -> & l & _ & _ & Ef).
  destruct (checkRecurringJobs_frame tz now fresh s) as (F1 & F2 & F3 & _).
  cbv zeta in F1, F2, F3.
  destruct (forEach_frame now l (checkRecurringJobs tz now fresh s, []))
    as (G1 & G2 & G3 & _).
  cbv zeta in G1, G2, G3. rewrite <- Ef in G1, G2, G3. cbn [fst] in *.
  destruct (launch_frame entered s2) as (L1 & L2 & L3 & _).
  rewrite EL in L1, L2, L3. cbn [fst] in *.
  destruct (settle_frame later inflight s3) as (K1 & K2 & K3 & _).
  eexists. split; [reflexivity|].
  split; [congruence|]. split; [congruence|]. split; [congruence|].
  intros k d Hfresh E.
  destruct (checkRecurringJobs_other tz now fresh s k Hfresh) as [E1 _].
  rewrite E in E1.
  destruct (forEach_same now l k (checkRecurringJobs tz now fresh s, []) d E1)
    as (d2 & E2 & H2).
  rewrite <- Ef in E2. cbn [fst] in E2.
  destruct (launch_same entered s2 k d2 E2) as (d3 & E3 & H3).
  rewrite EL in E3. cbn [fst] in E3.
  destruct (settle_same later inflight k s3 d3 E3) as (d4 & E4 & H4).
  exists d4. split; [done|].
  eapply same_job_trans; [|exact H4]. eapply same_job_trans; eauto.
Qed.

Lemma ticks_same tz clock fresh n :
  ∀ from s,
    initialized s = true →
    ∃ s', ticks tz clock fresh from n s = Ok s' ∧
          initialized s' = true ∧
          jobHandlers s' = jobHandlers s ∧
          maxConcurrentJobs s' = maxConcurrentJobs s ∧
          ∀ k d, (∀ i r, fresh i r ≠ k) →
                 jobRepository s !! k = Some d →
                 ∃ d', jobRepository s' !! k = Some d' ∧ same_job d d'.
Proof.
  induction n as [|n IH]; intros from s Hinit; simpl.
  - exists s. repeat (split; [done|]). intros k d _ E.
    exists d. split; [done | apply same_job_refl].
  - destruct (tick_same tz (clock from) (clock from) (fresh from) s Hinit)
      as (s1 & -> & I1 & I2 & I3 & I4).
    destruct (IH (S from) s1 I1) as (s' & -> & J1 & J2 & J3 & J4).
    exists s'. split; [done|]. split; [done|].
    split; [congruence|]. split; [congruence|].
    intros k d Hk E.
    destruct (I4 k d (Hk from) E) as (d1 & E1 & H1).
    destruct (J4 k d1 Hk E1) as (d2 & E2 & H2).
    exists d2. split; [done|]. eapply same_job_trans; eauto.
Qed.

(** X21. No firing of the scheduler loses or rewrites a job: after any
    number of firings (with ids for the spawned jobs that are new to the
    store) every document that was stored is still stored under its id, with
    the name, payload, due time, owner, priority and policy it had, and with
    at least the attempts it had; the scheduler is still initialized, with
    the same handlers and the same cap. *)
Theorem firings_keep_every_job (tz : Z) (clock : nat → Date)
    (fresh : nat → RecurringJob → ObjectId) (from n : nat) (s : Scheduler) :
  initialized s = true →
  (∀ i r, jobRepository s !! fresh i r = None) →
  ∃ s', ticks tz clock fresh from n s = Ok s' ∧
        initialized s' = true ∧
        jobHandlers s' = jobHandlers s ∧
        maxConcurrentJobs s' = maxConcurrentJobs s ∧
        ∀ k d, jobRepository s !! k = Some d →
               ∃ d', jobRepository s' !! k = Some d' ∧ same_job d d'.
Proof.
  intros Hinit Hfresh.
  destruct (ticks_same tz clock fresh n from s Hinit)
    as (s' & Et & I1 & I2 & I3 & I4).
  exists s'. repeat (split; [done|]).
  intros k d E. apply I4; [|done].
  intros i r Hk. rewrite <- Hk, Hfresh in E. discriminate.
Qed.

(** *** The budget of automatic executions *)



















End Firings.

(** ** Schedules *)

Section Schedules.

Implicit Types (rdb : gmap ObjectId RecurringJobDocument).
Implicit Types (r : RecurringJob).

Lemma getActiveRecurringJobs_spec rdb r :
  r ∈ RecurringJobRepository.getActiveRecurringJobs rdb ↔
  rdb !! r_id r = Some (r_fields r) ∧ r_isActive r = true.
Proof.
  unfold RecurringJobRepository.getActiveRecurringJobs.
  rewrite list_elem_of_filter, list_elem_of_fmap. split.
  - intros [Ha ([i d] & -> & Hin)]. apply elem_of_map_to_list in Hin. done.
  - intros [E Ha]. split; [done|]. exists (r_id r, r_fields r).
    split; [now destruct r|]. now apply elem_of_map_to_list.
Qed.


Lemma updateLastExecutedAt_alter (i : ObjectId) t rdb :
  ∃ o, RecurringJobRepository.updateLastExecutedAt i t rdb
       = Ok (alter (RecurringJobRepository.set_lastExecutedAt t) i rdb, o).
Proof.
  unfold RecurringJobRepository.updateLastExecutedAt.
  destruct (rdb !! i) as [d|] eqn:E; eexists; f_equal; f_equal.
  - apply map_eq; intros k. rewrite lookup_alter.
    destruct (decide (i = k)) as [->|Hne].
    + now rewrite lookup_insert_eq, E.
    + now rewrite lookup_insert_ne.
  - apply map_eq; intros k. rewrite lookup_alter.
    destruct (decide (i = k)) as [->|Hne]; [now rewrite E | done].
Qed.

(** The two outcomes of [createJob] and [updateLastExecutedAt] in
    [checkRecurringJobs]: job and stamp are written when a payload was
    read with the schedule; nothing is written when there was none. *)
Lemma spawn_cases now fresh r t s :
  (r_data r ≠ "{}" ∧
   jobRepository (spawn now fresh r t s).1
   = <[fresh r := occurrence r t]> (jobRepository s) ∧
   recurringJobRepository (spawn now fresh r t s).1
   = alter (RecurringJobRepository.set_lastExecutedAt now) (r_id r)
       (recurringJobRepository s) ∧
   (spawn now fresh r t s).2 = None) ∨
  (r_data r = "{}" ∧
   spawn now fresh r t s
   = (s, Some "Job validation failed: data: Path `data` is required.")).
Proof.
  unfold spawn, stored_payload. case_bool_decide as Hd; [now right|].
  left. split; [done|].
  cbn [recurringJobRepository set_jobRepository].
  destruct (updateLastExecutedAt_alter (r_id r) now (recurringJobRepository s))
    as [o ->].
  done.
Qed.

(** The outcomes of the loop body of [checkRecurringJobs]. *)
Lemma checkRecurringJob_cases tz now fresh s r :
  let s' := checkRecurringJob tz now fresh s r in
  let expr := r_cronExpression r in
  (∃ t,
     (r_lastExecutedAt r = None ∧ t = getNextRunTime tz expr now ∨
      ∃ last, r_lastExecutedAt r = Some last ∧
              t = getNextRunTime tz expr last ∧ t ≤ now) ∧
     r_data r ≠ "{}" ∧
     jobRepository s' = <[fresh r := occurrence r t]> (jobRepository s) ∧
     recurringJobRepository s'
     = alter (RecurringJobRepository.set_lastExecutedAt now) (r_id r)
         (recurringJobRepository s)) ∨
  (((∃ last, r_lastExecutedAt r = Some last ∧
             now < getNextRunTime tz expr last) ∨ r_data r = "{}") ∧
   s' = s).
Proof.
  cbv zeta. unfold checkRecurringJob.
  destruct (r_lastExecutedAt r) as [last|] eqn:El.
  - destruct (Z.leb_spec (getNextRunTime tz (r_cronExpression r) last) now)
      as [Hle|Hlt].
    + destruct (spawn_cases now fresh r
                  (getNextRunTime tz (r_cronExpression r) last) s)
        as [(Hd & E1 & E2 & _)|(Hd & ->)].
      * left. eexists. split; [right; eauto|]. done.
      * right. split; [now right | done].
    + right. split; [left; eauto | done].
  - destruct (spawn_cases now fresh r
                (getNextRunTime tz (r_cronExpression r) now) s)
      as [(Hd & E1 & E2 & _)|(Hd & ->)].
    + left. eexists. split; [left; eauto|]. done.
    + right. split; [now right | done].
Qed.



(** A check stamps schedules and adds jobs, and does nothing else. *)
Lemma check_changes tz now fresh (l : list RecurringJob) :
  ∀ s,
    let s' := foldl (checkRecurringJob tz now fresh) s l in
    (∀ k doc,
       recurringJobRepository s !! k = Some doc →
       recurringJobRepository s' !! k = Some doc ∨
       (k ∈ r_id <$> l) ∧
       recurringJobRepository s' !! k
       = Some (RecurringJobRepository.set_lastExecutedAt now doc)) ∧
    (∀ k, recurringJobRepository s !! k = None →
          recurringJobRepository s' !! k = None) ∧
    (∀ k d,
       jobRepository s' !! k = Some d →
       jobRepository s !! k = Some d ∨
       ∃ r t, r ∈ l ∧ k = fresh r ∧ d = occurrence r t).
Proof.
  induction l as [|r l IH]; intros s; cbn [foldl]; cbv zeta.
  - split; [auto|]. split; [auto|]. auto.
  - destruct (IH (checkRecurringJob tz now fresh s r)) as (I1 & I2 & I3).
    cbv zeta in I1, I2, I3.
    set (s1 := checkRecurringJob tz now fresh s r) in *.
    set (s' := foldl (checkRecurringJob tz now fresh) s1 l) in *.
    assert (Hstep :
      (∀ k doc,
         recurringJobRepository s !! k = Some doc →
         recurringJobRepository s1 !! k = Some doc ∨
         k = r_id r ∧
         recurringJobRepository s1 !! k
         = Some (RecurringJobRepository.set_lastExecutedAt now doc)) ∧
      (∀ k, recurringJobRepository s !! k = None →
            recurringJobRepository s1 !! k = None) ∧
      (∀ k d,
         jobRepository s1 !! k = Some d →
         jobRepository s !! k = Some d ∨
         ∃ t, k = fresh r ∧ d = occurrence r t)).
    { unfold s1.
      destruct (checkRecurringJob_cases tz now fresh s r)
        as [(t & _ & _ & -> & ->)|(_ & ->)]; [|auto].
      split; [|split].
      - intros k doc E. rewrite lookup_alter.
        destruct (decide (r_id r = k)) as [<-|Hne]; [|auto].
        right. rewrite E. done.
      - intros k E. rewrite lookup_alter.
        destruct (decide (r_id r = k)) as [<-|Hne]; [|auto].
        now rewrite E.
      - intros k d. destruct (decide (fresh r = k)) as [<-|Hne].
        + rewrite lookup_insert_eq. intros [= <-]. right. eauto.
        + rewrite lookup_insert_ne by done. auto. }
    destruct Hstep as (S1 & S2 & S3).
    split; [|split].
    + intros k doc E. rewrite fmap_cons.
      destruct (S1 k doc E) as [E1|[-> E1]].
      * destruct (I1 k doc E1) as [E2|[Hin E2]]; [auto|].
        right. split; [now right | done].
      * right. split; [left|].
        destruct (I1 _ _ E1) as [E2|[_ E2]]; [done|].
        rewrite E2. now destruct doc.
    + intros k E. apply I2, S2, E.
    + intros k d E. destruct (I3 k d E) as [E1|(r' & t & Hr' & -> & ->)].
      * destruct (S3 k d E1) as [E0|(t & -> & ->)]; [auto|].
        right. exists r, t. split; [left | done].
      * right. exists r', t. split; [now right | done].
Qed.


(** X24. [checkRecurringJobs] writes nothing but the stamp of active
    schedules and new jobs: every schedule is stored as it was, or is active
    and has the stamp [now] and is otherwise as it was; no schedule is
    created or deleted; every job of the store is the one that was there or
    the occurrence of an active schedule; handlers, cap and active set are
    as they were, and no event is emitted for the new jobs. *)
Theorem checkRecurringJobs_stamps_and_adds_only (tz : Z) (now : Date)
    (fresh : RecurringJob → ObjectId) (s : Scheduler) :
  let s' := checkRecurringJobs tz now fresh s in
  (∀ k doc,
     recurringJobRepository s !! k = Some doc →
     recurringJobRepository s' !! k = Some doc ∨
     r_isActive doc = true ∧
     recurringJobRepository s' !! k
     = Some (RecurringJobRepository.set_lastExecutedAt now doc)) ∧
  (∀ k, recurringJobRepository s !! k = None →
        recurringJobRepository s' !! k = None) ∧
  (∀ k d,
     jobRepository s' !! k = Some d →
     jobRepository s !! k = Some d ∨
     ∃ r t, recurringJobRepository s !! r_id r = Some (r_fields r) ∧
            r_isActive r = true ∧ k = fresh r ∧ d = occurrence r t) ∧
  jobHandlers s' = jobHandlers s ∧
  maxConcurrentJobs s' = maxConcurrentJobs s ∧
  activeJobs s' = activeJobs s ∧
  emitted s' = emitted s.
Proof.
  cbv zeta.
  destruct (checkRecurringJobs_frame tz now fresh s) as (_ & F2 & F3 & F4 & F5).
  destruct (check_changes tz now fresh
              (RecurringJobRepository.getActiveRecurringJobs
                 (recurringJobRepository s)) s) as (C1 & C2 & C3).
  cbv zeta in *. fold (checkRecurringJobs tz now fresh s) in C1, C2, C3.
  split; [|split; [exact C2|split; [|done]]].
  - intros k doc E. destruct (C1 k doc E) as [E1|[Hin E1]]; [auto|].
    right. split; [|done].
    apply list_elem_of_fmap in Hin as (r & -> & Hr).
    apply getActiveRecurringJobs_spec in Hr as [Er Ha].
    rewrite E in Er. injection Er as ->. done.
  - intros k d E. destruct (C3 k d E) as [E1|(r & t & Hr & -> & ->)]; [auto|].
    right. exists r, t.
    apply getActiveRecurringJobs_spec in Hr as [Er Ha]. done.
Qed.

(** X25. A schedule that [updateRecurringJob] has made inactive is out of
    the answer of [getActiveRecurringJobs], and checks leave it as it is,
    without a stamp. *)
Theorem inactive_schedule_is_skipped (tz : Z) (now : Date)
    (fresh : RecurringJob → ObjectId) (s : Scheduler) (jobId : ObjectId)
    (doc : RecurringJobDocument) (updates : RecurringJobRepository.Updates) :
  recurringJobRepository s !! jobId = Some doc →
  RecurringJobRepository.u_isActive updates = Some false →
  ∃ updated,
    RecurringJobRepository.updateRecurringJob jobId updates
      (recurringJobRepository s) = Ok updated ∧
    let s' := checkRecurringJobs tz now fresh
                (set_recurringJobRepository updated.1 s) in
    updated.2
    = Some {| r_id := jobId;
              r_fields := RecurringJobRepository.apply_updates updates doc |} ∧
    (jobId ∉ r_id <$> RecurringJobRepository.getActiveRecurringJobs updated.1) ∧
    recurringJobRepository s' !! jobId
    = Some (RecurringJobRepository.apply_updates updates doc) ∧
    (∀ k doc', k ≠ jobId → recurringJobRepository s !! k = Some doc' →
               updated.1 !! k = Some doc').
Proof.
  intros E Hu.
  unfold RecurringJobRepository.updateRecurringJob. rewrite E.
  eexists. split; [reflexivity|]. cbv zeta. cbn [fst snd].
  set (doc' := RecurringJobRepository.apply_updates updates doc).
  assert (Hin : r_isActive doc' = false).
  { unfold doc', RecurringJobRepository.apply_updates. cbn. now rewrite Hu. }
  split; [done|]. split; [|split].
  - intros Hin'. apply list_elem_of_fmap in Hin' as (r & Hid & Hr).
    apply getActiveRecurringJobs_spec in Hr as [Er Ha].
    rewrite <- Hid, lookup_insert_eq in Er. injection Er as Er.
    rewrite <- Er, Hin in Ha. discriminate.
  - destruct (check_changes tz now fresh
                (RecurringJobRepository.getActiveRecurringJobs
                   (<[jobId := doc']> (recurringJobRepository s)))
                (set_recurringJobRepository
                   (<[jobId := doc']> (recurringJobRepository s)) s))
      as (C1 & _).
    cbv zeta in C1.
    destruct (C1 jobId doc') as [E1|[Hin' _]].
    + cbn. apply lookup_insert_eq.
    + exact E1.
    + exfalso. apply list_elem_of_fmap in Hin' as (r & Hid & Hr).
      apply getActiveRecurringJobs_spec in Hr as [Er Ha].
      cbn in Er. rewrite <- Hid, lookup_insert_eq in Er. injection Er as Er.
      rewrite <- Er, Hin in Ha. discriminate.
  - intros k doc0 Hne E0. now rewrite lookup_insert_ne.
Qed.

End Schedules.

Section FirstOccurrence.

Variable LocalTZA : Z.
Variable validate : string → bool.


End FirstOccurrence.

(** ** Configuration *)

Section Configuration.

(** X27. [getMongoURI] always answers a URI that [isValidMongoURI] accepts:
    the URI of the environment when that one is accepted, and the URI of the
    local store otherwise (also when the variable is unset or empty). *)
Theorem getMongoURI_is_valid (envURI : option string) :
  Config.isValidMongoURI (Config.getMongoURI envURI) = true ∧
  (∀ uri, envURI = Some uri → Config.isValidMongoURI uri = true →
          Config.getMongoURI envURI = uri) ∧
  (∀ uri, envURI = Some uri → Config.isValidMongoURI uri = false →
          Config.getMongoURI envURI = "mongodb://localhost:27017/scheduler") ∧
  (envURI = None →
   Config.getMongoURI envURI = "mongodb://localhost:27017/scheduler").
Proof.
  assert (Hd : Config.isValidMongoURI "mongodb://localhost:27017/scheduler"
               = true) by (vm_compute; reflexivity).
  destruct envURI as [uri|]; cbn [Config.getMongoURI].
  - destruct (Config.isValidMongoURI uri) eqn:Ev.
    + assert (Ht : truthy (Some uri) = true).
      { destruct uri; [vm_compute in Ev; discriminate | reflexivity]. }
      rewrite Ht. cbn [andb]. split; [done|].
      split; [now intros ? [= <-]|]. split; [|done].
      intros uri' [= <-]. congruence.
    + rewrite andb_false_r. split; [done|].
      split; [intros uri' [= <-]; congruence|]. done.
  - split; [done|]. done.
Qed.

End Configuration.

(** ** The store of schedules, handlers and the cap *)

Section StoreAndSetup.

Implicit Types (rdb : gmap ObjectId RecurringJobDocument).


(** X29. The handler registered last for a name is the one that a job of
    that name is handed to, whatever was registered for the name before;
    registering needs no initialized scheduler, and changes neither the
    handlers of other names nor anything else. *)
Theorem registerJobHandler_last_wins (jobName : string)
    (handler : JobHandler) (now : Date) (job : Job) (s : Scheduler) :
  name job = jobName →
  id job ∉ activeJobs s →
  let s' := registerJobHandler jobName handler s in
  (processJob_start now job s').2 = Some (handler job) ∧
  (∀ earlier,
     (processJob_start now job
        (registerJobHandler jobName handler
           (registerJobHandler jobName earlier s))).2
     = Some (handler job)) ∧
  (∀ other, other ≠ jobName →
            jobHandlers s' !! other = jobHandlers s !! other) ∧
  initialized s' = initialized s ∧
  jobRepository s' = jobRepository s ∧
  activeJobs s' = activeJobs s ∧
  emitted s' = emitted s.
Proof.
  intros Hn Hact. cbv zeta.
  split; [|split; [|split; [|done]]].
  - rewrite processJob_start_run.
    cbn [registerJobHandler set_jobHandlers jobHandlers].
    now rewrite Hn, lookup_insert_eq.
  - intros earlier. rewrite processJob_start_run.
    cbn [registerJobHandler set_jobHandlers jobHandlers].
    now rewrite Hn, lookup_insert_eq.
  - intros other Hne.
    cbn [registerJobHandler set_jobHandlers jobHandlers].
    now rewrite lookup_insert_ne.
Qed.

(** X30. Of the caps that the constructor can be given, only 0 (or none)
    is replaced by the default 10; every other cap is taken as it is, a
    negative one too. A scheduler with a negative cap never starts a job:
    [processNextJobs] answers at once, and a firing leaves every job as it
    is, the due pending ones included. *)
Theorem negative_cap_starts_nothing (c : Z) (now later : Date)
    (s : Scheduler) :
  maxConcurrentJobs (new_Scheduler None) = 10 ∧
  maxConcurrentJobs (new_Scheduler (Some 0)) = 10 ∧
  (c ≠ 0 → maxConcurrentJobs (new_Scheduler (Some c)) = c) ∧
  (c < 0 →
   initialized s = true →
   maxConcurrentJobs s = maxConcurrentJobs (new_Scheduler (Some c)) →
   maxConcurrentJobs s = c ∧
   processNextJobs now s = Ok (s, []) ∧
   ∀ tz fresh,
     ∃ s', tick tz now later fresh s = Ok s' ∧
           emitted s' = emitted s ∧
           activeJobs s' = activeJobs s ∧
           ∀ k, (∀ r, fresh r ≠ k) →
                jobRepository s' !! k = jobRepository s !! k).
Proof.
  assert (Hkept : c ≠ 0 → maxConcurrentJobs (new_Scheduler (Some c)) = c).
  { intros Hc. cbn. destruct (Z.eqb_spec c 0); [lia | done]. }
  split; [reflexivity|]. split; [reflexivity|]. split; [exact Hkept|].
  intros Hc Hinit Hcap.
  assert (Hc' : maxConcurrentJobs s = c) by (rewrite Hcap; apply Hkept; lia).
  assert (Hskip : ∀ s0, initialized s0 = true → maxConcurrentJobs s0 = c →
                        processNextJobs now s0 = Ok (s0, [])).
  { intros s0 Hi Hm. unfold processNextJobs, ensureInitialized.
    rewrite Hi, Hm.
    destruct (Z.geb_spec (Z.of_nat (size (activeJobs s0))) c); [done | lia]. }
  split; [done|]. split; [now apply Hskip|].
  intros tz fresh. unfold tick.
  destruct (checkRecurringJobs_frame tz now fresh s)
    as (F1 & _ & F3 & F4 & F5).
  cbv zeta in *.
  rewrite Hskip by congruence.
  eexists. split; [reflexivity|]. cbn [settle launch foldl].
  split; [done|]. split; [done|].
  intros k Hk. now apply checkRecurringJobs_other.
Qed.

End StoreAndSetup.

(** * Concrete runs *)

Section ConcreteRuns.

Import JsDate.

(** C6 at the pending job of the sample scheduler: the call answers
    [true] and the job is gone; with a text that is no ObjectId the call
    throws. *)
Lemma cancelJob_iff_pending_witness :
  initialized (scheduler_of (flaky_scheduler 1)) = true ∧
  (∃ s' b,
     cancelJob "job-1" (scheduler_of (flaky_scheduler 1)) = Ok (s', b) ∧
     (b = true ↔
        ∃ d, jobRepository (scheduler_of (flaky_scheduler 1)) !! "job-1"
             = Some d ∧ status d = PENDING) ∧
     (b = true →
        jobRepository s'
        = delete "job-1" (jobRepository (scheduler_of (flaky_scheduler 1))) ∧
        jobRepository s' !! "job-1" = None) ∧
     (b = false → s' = scheduler_of (flaky_scheduler 1))) ∧
  cancelJob (NotAnId "not-an-id") (scheduler_of (flaky_scheduler 1))
  = Throw (CastError "not-an-id" "Job").
Proof.
  split; [reflexivity|].
  destruct (cancelJob_iff_pending (scheduler_of (flaky_scheduler 1)) eq_refl)
    as [H1 H2].
  split; [apply (H1 "job-1") | apply H2].
Defined.

(** C6 as stated fails: "not-an-id" is the id of no job, and [cancelJob]
    with it does not answer [false]: it throws the error of the failed
    cast. *)
Lemma cancelJob_cast_counterexample :
  initialized orphan_scheduler = true ∧
  (∀ i : ObjectId, Id i ≠ NotAnId "not-an-id") ∧
  cancelJob (NotAnId "not-an-id") orphan_scheduler
  = Throw (CastError "not-an-id" "Job") ∧
  (∀ s', cancelJob (NotAnId "not-an-id") orphan_scheduler ≠ Ok (s', false)).
Proof.
  split; [reflexivity|]. split; [discriminate|].
  split; [reflexivity | discriminate].
Qed.

(** C7 at a failed job (made pending) and at a pending job (refused). *)
Lemma retryJob_only_failed_witness :
  (∃ s' d',
     retryJob 5000 "job-1" failed_scheduler
     = Ok (s', Some {| id := "job-1"; fields := d' |}) ∧
     status d' = PENDING ∧ attempts d' = 0 ∧ scheduledAt d' = 0) ∧
  retryJob 5000 "job-1" orphan_scheduler
  = Throw "Cannot retry job with status: pending".
Proof.
  split.
  - destruct (retryJob_only_failed 5000 failed_scheduler "job-1"
                (set_status FAILED (sample_job "report" NORMAL 0 3)))
      as [_ H]; [reflexivity | vm_compute; reflexivity |].
    destruct H as (s' & d' & E & _ & _ & Hst & Hatt & Hsch); [reflexivity|].
    exists s', d'. split; [exact E|]. split; [exact Hst|].
    split; [exact Hatt | exact Hsch].
  - destruct (retryJob_only_failed 5000 orphan_scheduler "job-1"
                (fields orphan_job))
      as [H _]; [reflexivity | vm_compute; reflexivity |].
    apply H. discriminate.
Defined.




(** C9 at midnight UTC of the first day: the next run is the next
    midnight. *)
Lemma daily_next_run_witness :
  TimeWithinDay (LocalTime 0 0) < msPerDay - msPerMinute ∧
  first_midnight_after 0 0 (getNextRunTime 0 "0 0 * * *" 0) ∧
  getNextRunTime 0 "0 0 * * *" 0 = 86400000.
Proof.
  destruct (daily_next_run 0 0) as (_ & H & _ & _).
  split; [reflexivity|].
  split; [apply H; reflexivity|].
  vm_compute. reflexivity.
Defined.

(** C9 as stated fails: at 23:59:30 UTC of the first day the next run
    is the midnight that ends the second day, though the midnight that
    ends the first day is strictly after that instant. *)
Lemma daily_last_minute_counterexample :
  getNextRunTime 0 "0 0 * * *" 86370000 = 172800000 ∧
  is_midnight 0 86400000 ∧ 86370000 < 86400000 < 172800000 ∧
  ¬ first_midnight_after 0 86370000 (getNextRunTime 0 "0 0 * * *" 86370000).
Proof.
  assert (E : getNextRunTime 0 "0 0 * * *" 86370000 = 172800000)
    by (vm_compute; reflexivity).
  split; [exact E|]. split; [reflexivity|]. split; [lia|].
  rewrite E. intros (_ & _ & Hmin).
  specialize (Hmin 86400000 eq_refl ltac:(lia)). lia.
Qed.

(** C1 at the sample job with [maxRetries = 1], whose first attempt
    throws: one attempt is recorded and the job is failed. *)
Lemma failure_retry_policy_witness :
  jobRepository (flaky_running 1) !! "job-1" = Some (flaky_running_doc 1) ∧
  failure_message (flaky_job 1) (always_throws (flaky_job 1)) = Some "boom" ∧
  ∃ d',
    jobRepository
      (processJob_finish 2000 (flaky_job 1) (always_throws (flaky_job 1))
         (flaky_running 1)) !! "job-1" = Some d' ∧
    attempts d' = 1 ∧ maxRetries d' = 1 ∧ status d' = FAILED.
Proof.
  assert (E : jobRepository (flaky_running 1) !! "job-1"
              = Some (flaky_running_doc 1)) by (vm_compute; reflexivity).
  split; [exact E|]. split; [reflexivity|].
  destruct (proj1 failure_retry_policy 2000 (flaky_job 1)
              (always_throws (flaky_job 1)) (flaky_running 1)
              (flaky_running_doc 1) "boom" E eq_refl)
    as (d' & E' & Hatt & Hmax & _ & Hfailed).
  exists d'. split; [exact E'|]. split; [exact Hatt|]. split; [exact Hmax|].
  apply Hfailed. vm_compute. discriminate.
Defined.

(** C1 as stated fails: with [attempts = maxRetries] at the failure the
    job is not pending again. The sample job with [maxRetries = 1] has
    one attempt, not two, after two firings. *)
Lemma retry_at_budget_counterexample :
  ¬ (∀ (now : Date) (job : Job) (run : HandlerRun) (s : Scheduler)
       (d : JobDocument) (msg : string),
       jobRepository s !! id job = Some d →
       failure_message job run = Some msg →
       attempts d ≤ maxRetries d →
       ∃ d',
         jobRepository (processJob_finish now job run s) !! id job
         = Some d' ∧
         status d' = PENDING) ∧
  ∃ s2 d2,
    ticks 0 every_minute spawned_ids 0 2 (scheduler_of (flaky_scheduler 1))
    = Ok s2 ∧
    jobRepository s2 !! "job-1" = Some d2 ∧
    status d2 = FAILED ∧ attempts d2 = 1 ∧ attempts d2 ≠ 2.
Proof.
  split.
  - intros H.
    destruct (H 2000 (flaky_job 1) (always_throws (flaky_job 1))
                (flaky_running 1) (flaky_running_doc 1) "boom")
      as (d' & E & Hst);
      [vm_compute; reflexivity | reflexivity | vm_compute; discriminate |].
    vm_compute in E. injection E as <-. discriminate.
  - eexists _, _.
    split; [vm_compute; reflexivity|].
    split; [vm_compute; reflexivity|].
    split; [reflexivity|]. split; [reflexivity|]. discriminate.
Qed.

(** C4 at the sample job with [maxRetries = 2], whose first attempt
    throws at 2000: the job is pending again with its due time 0, and
    the query at that instant selects it. *)
Lemma retry_rewrites_status_only_witness :
  jobRepository (flaky_running 2) !! "job-1" = Some (flaky_running_doc 2) ∧
  failure_message (flaky_job 2) (always_throws (flaky_job 2)) = Some "boom" ∧
  attempts (flaky_running_doc 2) < maxRetries (flaky_running_doc 2) ∧
  ∃ retried,
    jobRepository
      (processJob_finish 2000 (flaky_job 2) (always_throws (flaky_job 2))
         (flaky_running 2)) !! "job-1" = Some retried ∧
    status retried = PENDING ∧ scheduledAt retried = 0 ∧
    {| id := "job-1"; fields := retried |}
    ∈ JobRepository.getPendingJobs 2000 10
        (jobRepository
           (processJob_finish 2000 (flaky_job 2)
              (always_throws (flaky_job 2)) (flaky_running 2))).
Proof.
  assert (E : jobRepository (flaky_running 2) !! "job-1"
              = Some (flaky_running_doc 2)) by (vm_compute; reflexivity).
  assert (Hlt : attempts (flaky_running_doc 2)
                < maxRetries (flaky_running_doc 2)) by reflexivity.
  split; [exact E|]. split; [reflexivity|]. split; [exact Hlt|].
  destruct (retry_rewrites_status_only 2000 (flaky_job 2)
              (always_throws (flaky_job 2)) (flaky_running 2)
              (flaky_running_doc 2) "boom" E eq_refl Hlt)
    as (Edb & Hst & _ & Hsch & _ & Hsel).
  eexists. split; [rewrite Edb; apply lookup_insert_eq|].
  split; [exact Hst|]. split; [exact Hsch|].
  apply Hsel.
  - vm_compute. discriminate.
  - vm_compute. discriminate.
Defined.

(** C5 at the job of the scheduler without handlers. *)
Lemma missing_handler_fails_without_attempt_witness :
  (id orphan_job ∉ activeJobs orphan_scheduler) ∧
  jobHandlers orphan_scheduler !! name orphan_job = None ∧
  jobRepository orphan_scheduler !! id orphan_job
  = Some (fields orphan_job) ∧
  jobRepository (processJob 1000 2000 orphan_job orphan_scheduler)
  = <["job-1" := without_handler 1000 orphan_job (fields orphan_job)]>
      (jobRepository orphan_scheduler) ∧
  errorMessage (without_handler 1000 orphan_job (fields orphan_job))
  = Some "No handler registered for job type: unknown" ∧
  activeJobs (processJob 1000 2000 orphan_job orphan_scheduler) = ∅.
Proof.
  assert (H1 : id orphan_job ∉ activeJobs orphan_scheduler)
    by (apply (bool_decide_eq_false_1 _); vm_compute; reflexivity).
  assert (H2 : jobHandlers orphan_scheduler !! name orphan_job = None)
    by (vm_compute; reflexivity).
  assert (H3 : jobRepository orphan_scheduler !! id orphan_job
               = Some (fields orphan_job)) by (vm_compute; reflexivity).
  split; [exact H1|]. split; [exact H2|]. split; [exact H3|].
  destruct (missing_handler_fails_without_attempt 1000 2000 orphan_job
              orphan_scheduler (fields orphan_job) H1 H2 H3)
    as (_ & Edb & _ & Hmsg & _ & _ & Hact & _).
  split; [exact Edb|]. split; [exact Hmsg|]. exact Hact.
Defined.

(** C5 as stated fails: after the start of the job without a handler no
    attempt is recorded, and the job stays failed with its retry budget
    untouched; the same start with a handler that throws records the
    attempt and queues the retry. *)
Lemma missing_handler_counterexample :
  (∃ d',
     jobRepository (processJob 1000 2000 orphan_job orphan_scheduler)
     !! "job-1" = Some d' ∧
     attempts d' = attempts orphan_job ∧ attempts d' ≠ 1 ∧
     attempts d' < maxRetries d' ∧ status d' = FAILED ∧
     status d' ≠ PENDING) ∧
  (∃ d',
     jobRepository
       (processJob 1000 2000 (flaky_job 3) (scheduler_of (flaky_scheduler 3)))
     !! "job-1" = Some d' ∧
     attempts d' = 1 ∧ attempts d' < maxRetries d' ∧ status d' = PENDING).
Proof.
  split.
  - eexists. split; [vm_compute; reflexivity|].
    split; [reflexivity|]. split; [discriminate|].
    split; [reflexivity|]. split; [reflexivity | discriminate].
  - eexists. split; [vm_compute; reflexivity|].
    split; [reflexivity|]. split; reflexivity.
Qed.

End ConcreteRuns.

(** * Further concrete runs *)

Section FurtherRuns.

Import JsDate.

(** X1 at one execution of the sample job, the handler throwing. *)
Lemma processJob_records_one_attempt_witness :
  ∃ d',
    jobRepository
      (processJob 1000 2000 (flaky_job 1) (scheduler_of (flaky_scheduler 1)))
    !! "job-1" = Some d' ∧
    attempts d' = 1 ∧ executedAt d' = Some 1000.
Proof.
  destruct (processJob_records_one_attempt 1000 2000 (flaky_job 1)
              (scheduler_of (flaky_scheduler 1))
              (sample_job "flaky" NORMAL 0 1) always_throws)
    as (d' & E & Ha & He & _);
    [apply (bool_decide_eq_false_1 _); vm_compute; reflexivity
    |vm_compute; reflexivity | vm_compute; reflexivity |].
  exists d'. split; [exact E|]. split; [exact Ha | exact He].
Defined.

(** X2 at the two events of that execution. *)
Lemma processJob_emits_start_and_outcome_witness :
  ∃ outcome result,
    emitted
      (processJob 1000 2000 (flaky_job 1) (scheduler_of (flaky_scheduler 1)))
    = emitted (scheduler_of (flaky_scheduler 1))
      ++ [{| event := JOB_STARTED; event_job := flaky_job 1;
             event_result := None |};
          {| event := outcome; event_job := flaky_job 1;
             event_result := Some result |}] ∧
    outcome = JOB_FAILED.
Proof.
  destruct (processJob_emits_start_and_outcome 1000 2000 (flaky_job 1)
              (scheduler_of (flaky_scheduler 1))
              (sample_job "flaky" NORMAL 0 1) always_throws)
    as (outcome & result & E & [(_ & _ & Hm)|(Ho & _)]);
    [apply (bool_decide_eq_false_1 _); vm_compute; reflexivity
    |vm_compute; reflexivity | vm_compute; reflexivity | |].
  - vm_compute in Hm. discriminate.
  - exists outcome, result. split; [exact E | exact Ho].
Defined.

(** X3 at the sample job with a handler that reports success. *)
Lemma success_completes_job_witness :
  jobRepository
    (processJob 1000 2000 (flaky_job 1) (scheduler_with always_succeeds))
  !! "job-1"
  = Some (completed 2000 (dispatched 1000 (sample_job "flaky" NORMAL 0 1))) ∧
  status (completed 2000 (dispatched 1000 (sample_job "flaky" NORMAL 0 1)))
  = COMPLETED.
Proof.
  destruct (success_completes_job 1000 2000 (flaky_job 1)
              (scheduler_with always_succeeds)
              (sample_job "flaky" NORMAL 0 1) always_succeeds
              {| success := true; error := None |})
    as (E & Hs & _);
    [apply (bool_decide_eq_false_1 _); vm_compute; reflexivity
    |vm_compute; reflexivity | vm_compute; reflexivity
    |reflexivity | reflexivity |].
  split; [|exact Hs]. rewrite E. apply lookup_insert_eq.
Defined.

(** X4 at the sample job with a handler that never settles: the timeout of
    the job, 30000 ms, is in the message. *)
Lemma timeout_fails_with_message_witness :
  ∃ d',
    jobRepository
      (processJob 1000 31000 (flaky_job 1) (scheduler_with never_settles))
    !! "job-1" = Some d' ∧
    errorMessage d' = Some "Job timed out after 30000ms" ∧
    status d' = FAILED.
Proof.
  destruct (timeout_fails_with_message 1000 31000 (flaky_job 1)
              (scheduler_with never_settles)
              (sample_job "flaky" NORMAL 0 1) never_settles)
    as (d' & E & Hm & _ & Hs);
    [apply (bool_decide_eq_false_1 _); vm_compute; reflexivity
    |vm_compute; reflexivity | vm_compute; reflexivity | reflexivity |].
  exists d'. split; [exact E|]. split; [exact Hm | exact Hs].
Defined.

(** X5 at the sample job with a handler that throws an error without a
    message. *)
Lemma empty_message_keeps_old_error_witness :
  ∃ d',
    jobRepository
      (processJob 1000 2000 (flaky_job 1) (scheduler_with throws_empty))
    !! "job-1" = Some d' ∧
    errorMessage d' = None ∧ status d' = FAILED.
Proof.
  destruct (empty_message_keeps_old_error 1000 2000 (flaky_job 1)
              (scheduler_with throws_empty)
              (sample_job "flaky" NORMAL 0 1) throws_empty)
    as (d' & E & Hm & _ & Hs);
    [apply (bool_decide_eq_false_1 _); vm_compute; reflexivity
    |vm_compute; reflexivity | vm_compute; reflexivity | reflexivity |].
  exists d'. split; [exact E|]. split; [exact Hm | exact Hs].
Defined.

(** X6 at the sample job handed to a scheduler whose store is empty. *)
Lemma processJob_of_deleted_job_witness :
  jobRepository (processJob 1000 2000 (flaky_job 1) empty_scheduler) = ∅ ∧
  length (emitted (processJob 1000 2000 (flaky_job 1) empty_scheduler)) = 2%nat.
Proof.
  destruct (processJob_of_deleted_job 1000 2000 (flaky_job 1) empty_scheduler
              always_throws)
    as (_ & E & _ & Hl);
    [apply (bool_decide_eq_false_1 _); vm_compute; reflexivity
    |vm_compute; reflexivity | vm_compute; reflexivity |].
  split; [exact E | exact Hl].
Defined.

(** X7 at a scheduler that was never initialized. *)
Lemma uninitialized_operations_throw_witness :
  getJob "job-1" (new_Scheduler None)
  = Throw "Scheduler not initialized. Call initialize() first." ∧
  processNextJobs 1000 (new_Scheduler None)
  = Throw "Scheduler not initialized. Call initialize() first.".
Proof.
  destruct (uninitialized_operations_throw 0 accept_all (new_Scheduler None))
    as (_ & _ & Hg & _ & _ & Hp & _); [reflexivity|].
  split; [apply Hg | apply Hp].
Defined.




(** X11 at the completed job of the sample scheduler. *)
Lemma completed_job_is_final_witness :
  cancelJob "job-1" completed_scheduler = Ok (completed_scheduler, false) ∧
  retryJob 5000 "job-1" completed_scheduler
  = Throw "Cannot retry job with status: completed".
Proof.
  destruct (completed_job_is_final completed_scheduler "job-1"
              (set_status COMPLETED (sample_job "report" NORMAL 0 3)))
    as (Hc & Hr & _);
    [reflexivity | vm_compute; reflexivity | reflexivity |].
  split; [exact Hc | apply Hr].
Defined.

(** X12 at the job that failed with three attempts of three, retried by
    hand: the fourth attempt fails for good. *)
Lemma manual_retry_runs_once_more_witness :
  ∃ s1 d',
    retryJob 5000 "job-1" exhausted_scheduler
    = Ok (s1, Some {| id := "job-1";
                      fields := set_status PENDING exhausted_doc |}) ∧
    jobRepository
      (processJob 5000 7000
         {| id := "job-1"; fields := set_status PENDING exhausted_doc |} s1)
    !! "job-1" = Some d' ∧
    status d' = FAILED ∧ attempts d' = 4.
Proof.
  destruct (manual_retry_runs_once_more 5000 7000 exhausted_scheduler "job-1"
              exhausted_doc always_throws "boom")
    as (s1 & E & _ & d' & Ed & Hs & Ha & _);
    [reflexivity | vm_compute; reflexivity | reflexivity
    |vm_compute; discriminate
    |apply (bool_decide_eq_false_1 _); vm_compute; reflexivity
    |vm_compute; reflexivity | reflexivity |].
  exists s1, d'. split; [exact E|]. split; [exact Ed|].
  split; [exact Hs | exact Ha].
Defined.

(** X16 at the hourly pattern at half past midnight UTC: the next run is
    midnight, which is past. *)
Lemma hourly_next_run_witness :
  getNextRunTime 0 "0 * * * *" 1800000 = start_of_local_hour 0 1800000 ∧
  getNextRunTime 0 "0 * * * *" 1800000 ≤ 1800000.
Proof.
  destruct (hourly_next_run 0 "0 * * * *" 1800000) as (_ & _ & H);
    [vm_compute; reflexivity | vm_compute; reflexivity |].
  apply H. vm_compute. split; discriminate.
Defined.

(** X17 at the weekly pattern, thirty seconds past midnight UTC of a
    Thursday: the next run is the next midnight, a Friday. *)
Lemma daily_test_shadows_weekly_witness :
  getNextRunTime 0 "0 0 * * 0" 30000 = getNextRunTime 0 "0 0 * * *" 30000 ∧
  WeekDay (LocalTime 0 (getNextRunTime 0 "0 0 * * 0" 30000)) = 5.
Proof.
  destruct (daily_test_shadows_weekly 0 "0 0 * * 0" 30000)
    as (E & _ & Hw & _);
    [vm_compute; reflexivity | vm_compute; reflexivity
    |vm_compute; reflexivity |].
  split; [exact E | exact Hw].
Defined.

(** X18 at an expression that reaches the weekly branch, at the same
    instant: the next run is the midnight that begins the first Sunday. *)
Lemma weekly_branch_next_run_witness :
  getNextRunTime 0 "0 0 1 * 0" 30000 = 3 * msPerDay ∧
  WeekDay (LocalTime 0 (getNextRunTime 0 "0 0 1 * 0" 30000)) = 0.
Proof.
  destruct (weekly_branch_next_run 0 "0 0 1 * 0" 30000)
    as (E & _ & Hw & _);
    [vm_compute; reflexivity | vm_compute; reflexivity
    |vm_compute; reflexivity | vm_compute; reflexivity |].
  split; [exact E | exact Hw].
Defined.

(** X19 at the monthly pattern at the same instant, in January 1970: the
    next run is the midnight that begins the first of February. *)
Lemma monthly_next_run_witness :
  DateFromTime (LocalTime 0 (getNextRunTime 0 "0 0 1 * *" 30000)) = 1 ∧
  MonthFromTime (LocalTime 0 (getNextRunTime 0 "0 0 1 * *" 30000)) = 1 ∧
  YearFromTime (LocalTime 0 (getNextRunTime 0 "0 0 1 * *" 30000)) = 1970.
Proof.
  destruct (monthly_next_run 0 "0 0 1 * *" 30000)
    as (_ & Hd & Hm & Hy & _);
    [vm_compute; reflexivity | vm_compute; reflexivity
    |vm_compute; reflexivity | vm_compute; reflexivity |].
  split; [exact Hd|]. split; [exact Hm | exact Hy].
Defined.

(** X21 at two firings at the sample job with [maxRetries = 2]: the job is
    still stored, with the due time it had. *)
Lemma firings_keep_every_job_witness :
  ∃ s' d',
    ticks 0 every_minute spawned_ids 0 2 (scheduler_of (flaky_scheduler 2))
    = Ok s' ∧
    jobRepository s' !! "job-1" = Some d' ∧
    scheduledAt d' = 0 ∧ name d' = "flaky".
Proof.
  destruct (firings_keep_every_job 0 every_minute spawned_ids 0 2
              (scheduler_of (flaky_scheduler 2)))
    as (s' & E & _ & _ & _ & H);
    [reflexivity | intros i r; vm_compute; reflexivity |].
  destruct (H "job-1" (sample_job "flaky" NORMAL 0 2))
    as (d' & Ed & Hn & _ & Hs & _); [vm_compute; reflexivity|].
  exists s', d'. split; [exact E|]. split; [exact Ed|].
  split; [exact Hs | exact Hn].
Defined.



(** X25 at the sample schedule made inactive, then checked. *)
Lemma inactive_schedule_is_skipped_witness :
  ∃ updated,
    RecurringJobRepository.updateRecurringJob "schedule-1" deactivate
      (recurringJobRepository (schedule_scheduler None)) = Ok updated ∧
    recurringJobRepository
      (checkRecurringJobs 0 30000 job_of_schedule
         (set_recurringJobRepository updated.1 (schedule_scheduler None)))
    !! "schedule-1"
    = Some (RecurringJobRepository.apply_updates deactivate
              (sample_schedule None)) ∧
    r_lastExecutedAt
      (RecurringJobRepository.apply_updates deactivate (sample_schedule None))
    = None.
Proof.
  destruct (inactive_schedule_is_skipped 0 30000 job_of_schedule
              (schedule_scheduler None) "schedule-1" (sample_schedule None)
              deactivate) as (updated & Eu & _ & _ & E & _);
    [vm_compute; reflexivity | reflexivity |].
  exists updated. split; [exact Eu|]. split; [exact E | reflexivity].
Defined.



(** X29 at a handler registered over the one of the sample scheduler. *)
Lemma registerJobHandler_last_wins_witness :
  (processJob_start 1000 (flaky_job 1) (scheduler_with always_succeeds)).2
  = Some (always_succeeds (flaky_job 1)).
Proof.
  destruct (registerJobHandler_last_wins "flaky" always_succeeds 1000
              (flaky_job 1) (scheduler_of (flaky_scheduler 1)))
    as (E & _);
    [reflexivity
    |apply (bool_decide_eq_false_1 _); vm_compute; reflexivity |].
  exact E.
Defined.

(** X30 at the scheduler built with the cap -1: its due job is not started. *)
Lemma negative_cap_starts_nothing_witness :
  maxConcurrentJobs capped_scheduler = -1 ∧
  processNextJobs 1000 capped_scheduler = Ok (capped_scheduler, []).
Proof.
  destruct (negative_cap_starts_nothing (-1) 1000 2000 capped_scheduler)
    as (_ & _ & _ & H).
  destruct H as (E & Hp & _); [lia | reflexivity | reflexivity |].
  split; [exact E | exact Hp].
Defined.

End FurtherRuns.
